(** * LifeTrack health-metrics aggregation engine

    A shallow embedding of [data_structures.py]: the severity classifier,
    the LRU cache, the per-user timeline, the doctor workload heap, the
    treatment priority queue and the aggregator facade, together with the
    parts of the Python library they call ([heapq], [list.sort],
    [Counter.most_common], [datetime] comparison and subtraction).

    Conventions of the embedding
    - Python [int] is [Z]; list positions are [nat].
    - [str] is [string]; [str.lower] is modelled on ASCII text.
    - A [dict] is a [gmap]; a [Counter] (whose iteration order matters for
      [most_common]) is an association list in insertion order.
    - An operation that can raise returns [option].
    - [datetime.now()] is an explicit argument of the operation reading it. *)

From Stdlib Require Import ZArith Ascii String QArith ZifyNat.
From stdpp Require Import gmap strings pretty list fin_maps sorting.

Local Open Scope Z_scope.

(** ** Severity *)

Inductive Severity := MILD | MODERATE | CRITICAL.

#[global] Instance Severity_eq_dec : EqDecision Severity.
Proof. solve_decision. Defined.

(** [Severity.value] *)
Definition severity_value (s : Severity) : string :=
  match s with
  | MILD => "mild"
  | MODERATE => "moderate"
  | CRITICAL => "critical"
  end.

(** ** Strings: [str.lower] and the [in] substring test *)

Module Str.

Definition is_upper (c : ascii) : bool :=
  let n := nat_of_ascii c in (65 <=? n)%nat && (n <=? 90)%nat.

Definition is_lower (c : ascii) : bool :=
  let n := nat_of_ascii c in (97 <=? n)%nat && (n <=? 122)%nat.

Definition lower_char (c : ascii) : ascii :=
  if is_upper c then ascii_of_nat (nat_of_ascii c + 32) else c.

Definition upper_char (c : ascii) : ascii :=
  if is_lower c then ascii_of_nat (nat_of_ascii c - 32) else c.

Fixpoint lower (s : string) : string :=
  match s with
  | EmptyString => EmptyString
  | String c s' => String (lower_char c) (lower s')
  end.

Fixpoint upper (s : string) : string :=
  match s with
  | EmptyString => EmptyString
  | String c s' => String (upper_char c) (upper s')
  end.

(** [hay.startswith(p)] *)
Fixpoint startswith (p hay : string) : bool :=
  match p, hay with
  | EmptyString, _ => true
  | String a p', String b hay' => if decide (a = b) then startswith p' hay' else false
  | String _ _, EmptyString => false
  end.

(** [needle in hay]: [needle] starts at some position of [hay]. *)
Fixpoint contains (needle hay : string) : bool :=
  startswith needle hay ||
  match hay with
  | EmptyString => false
  | String _ hay' => contains needle hay'
  end.

(** The declarative reading of [needle in hay]. *)
Definition substring_of (needle hay : string) : Prop :=
  ∃ pre post, hay = pre +:+ needle +:+ post.

End Str.

(** ** HealthRecord *)

Definition critical_keywords : list string :=
  ["hypertension"; "diabetes"; "heart"; "cancer"; "stroke"; "emergency"]%string.

Definition moderate_keywords : list string :=
  ["asthma"; "allergies"; "migraine"; "arthritis"; "chronic"]%string.

(** [any(keyword in text for keyword in keywords)] *)
Definition any_keyword_in (keywords : list string) (text : string) : bool :=
  existsb (λ keyword, Str.contains keyword text) keywords.

(** [HealthRecord._calculate_severity], as a function of the diagnosis. *)
Definition _calculate_severity (diagnosis : string) : Severity :=
  let diagnosis_lower := Str.lower diagnosis in
  if any_keyword_in critical_keywords diagnosis_lower then CRITICAL
  else if any_keyword_in moderate_keywords diagnosis_lower then MODERATE
  else MILD.

(** ** Python's [<] protocol

    [heapq] and [list.sort] only ever call [<] on the items they order.
    Tuples compare lexicographically: the first position where the two
    tuples differ decides. *)

Class PyOrd (A : Type) := py_lt : A → A → bool.
#[global] Hint Mode PyOrd ! : typeclass_instances.

(** [not (b < a)], the reading of "a sorts no later than b". *)
Definition py_le `{PyOrd A} (a b : A) : Prop := py_lt b a = false.

(** The laws of a strict total order, which [int], naive [datetime] and
    tuples of them satisfy. *)
Class PyTotalOrd (A : Type) `{PyOrd A} := {
  py_lt_irrefl (a : A) : py_lt a a = false;
  py_lt_trans (a b c : A) : py_lt a b = true → py_lt b c = true → py_lt a c = true;
  py_lt_connex (a b : A) : py_lt a b = false → py_lt b a = false → a = b
}.

#[global] Instance Z_PyOrd : PyOrd Z := Z.ltb.

#[global] Instance prod_PyOrd `{EqDecision A, PyOrd A, PyOrd B} : PyOrd (A * B) :=
  λ x y, if decide (x.1 = y.1) then py_lt x.2 y.2 else py_lt x.1 y.1.

(** ** datetime (naive) *)

Module Datetime.

Record t := mk {
  year : Z; month : Z; day : Z;
  hour : Z; minute : Z; second : Z; microsecond : Z
}.

#[global] Instance eq_dec : EqDecision t.
Proof. solve_decision. Defined.

(** The tuple that [datetime._cmp] compares. *)
Definition fields (d : t) : Z * Z * Z * Z * Z * Z * Z :=
  (year d, month d, day d, hour d, minute d, second d, microsecond d).

#[global] Instance lt : PyOrd t := λ a b, py_lt (fields a) (fields b).

Definition _is_leap (y : Z) : bool :=
  (y mod 4 =? 0) && (negb (y mod 100 =? 0) || (y mod 400 =? 0)).

Definition _days_before_year (y : Z) : Z :=
  let y := y - 1 in y * 365 + y / 4 - y / 100 + y / 400.

Definition _DAYS_IN_MONTH : list Z :=
  [-1; 31; 28; 31; 30; 31; 30; 31; 31; 30; 31; 30; 31].

Definition _DAYS_BEFORE_MONTH : list Z :=
  [-1; 0; 31; 59; 90; 120; 151; 181; 212; 243; 273; 304; 334].

Definition _days_in_month (y m : Z) : Z :=
  if (m =? 2) && _is_leap y then 29 else nth (Z.to_nat m) _DAYS_IN_MONTH 0.

Definition _days_before_month (y m : Z) : Z :=
  nth (Z.to_nat m) _DAYS_BEFORE_MONTH 0 + (if (2 <? m) && _is_leap y then 1 else 0).

Definition _ymd2ord (y m d : Z) : Z :=
  _days_before_year y + _days_before_month y m + d.

Definition toordinal (d : t) : Z := _ymd2ord (year d) (month d) (day d).

(** The field ranges the [datetime] constructor enforces. *)
Definition valid (d : t) : Prop :=
  1 ≤ year d ≤ 9999 ∧ 1 ≤ month d ≤ 12 ∧
  1 ≤ day d ≤ _days_in_month (year d) (month d) ∧
  0 ≤ hour d < 24 ∧ 0 ≤ minute d < 60 ∧ 0 ≤ second d < 60 ∧
  0 ≤ microsecond d < 1000000.

(** [(a - b).days]: [datetime.__sub__] builds
    [timedelta(days1 - days2, secs1 - secs2, us1 - us2)], whose constructor
    carries microseconds into seconds and seconds into days with floor
    division. *)
Definition sub_days (a b : t) : Z :=
  let days := toordinal a - toordinal b in
  let secs := (second a + minute a * 60 + hour a * 3600)
              - (second b + minute b * 60 + hour b * 3600) in
  let us := microsecond a - microsecond b in
  let secs := secs + us / 1000000 in
  days + secs / 86400.

(** A date at midnight, as [datetime.fromisoformat("YYYY-MM-DD")] gives. *)
Definition date (y m d : Z) : t := mk y m d 0 0 0 0.

End Datetime.

(** ** heapq *)

Module heapq.
Section heapq.
Context {A : Type} `{PyOrd A}.

(** The [while pos > startpos] loop of [_siftdown]; [pos] bounds the
    number of iterations since [parentpos < pos]. A failed list read
    stands for [IndexError]. *)
Fixpoint _siftdown_loop (fuel : nat) (heap : list A) (startpos pos : nat)
    (newitem : A) : option (list A) :=
  match fuel with
  | O => Some (<[pos := newitem]> heap)
  | S fuel =>
    if decide (startpos < pos)%nat then
      let parentpos := ((pos - 1) / 2)%nat in
      parent ← heap !! parentpos;
      if py_lt newitem parent
      then _siftdown_loop fuel (<[pos := parent]> heap) startpos parentpos newitem
      else Some (<[pos := newitem]> heap)
    else Some (<[pos := newitem]> heap)
  end.

Definition _siftdown (heap : list A) (startpos pos : nat) : option (list A) :=
  newitem ← heap !! pos;
  _siftdown_loop pos heap startpos pos newitem.

(** The [while childpos < endpos] loop of [_siftup]; returns the heap
    with the smaller children moved up and the position of the emptied
    leaf. *)
Fixpoint _siftup_loop (fuel : nat) (heap : list A) (endpos pos : nat)
    : option (list A * nat) :=
  let childpos := (2 * pos + 1)%nat in
  match fuel with
  | O => Some (heap, pos)
  | S fuel =>
    if decide (childpos < endpos)%nat then
      let rightpos := (childpos + 1)%nat in
      left ← heap !! childpos;
      childpos ← (if decide (rightpos < endpos)%nat then
                    right ← heap !! rightpos;
                    Some (if negb (py_lt left right) then rightpos else childpos)
                  else Some childpos);
      child ← heap !! childpos;
      _siftup_loop fuel (<[pos := child]> heap) endpos childpos
    else Some (heap, pos)
  end.

Definition _siftup (heap : list A) (pos : nat) : option (list A) :=
  let endpos := length heap in
  let startpos := pos in
  newitem ← heap !! pos;
  '(heap, pos) ← _siftup_loop endpos heap endpos pos;
  _siftdown (<[pos := newitem]> heap) startpos pos.

Definition heappush (heap : list A) (item : A) : option (list A) :=
  let heap := heap ++ [item] in
  _siftdown heap 0 (length heap - 1).

(** [list.pop()] *)
Definition list_pop (l : list A) : option (A * list A) :=
  lastelt ← last l; Some (lastelt, removelast l).

Definition heappop (heap : list A) : option (A * list A) :=
  '(lastelt, heap) ← list_pop heap;
  match heap with
  | [] => Some (lastelt, heap)
  | returnitem :: _ =>
      heap ← _siftup (<[0%nat := lastelt]> heap) 0;
      Some (returnitem, heap)
  end.

(** [n] successive [heappop] calls: the popped items, in order, and the
    heap that is left. *)
Fixpoint heappop_n (n : nat) (heap : list A) : option (list A * list A) :=
  match n with
  | O => Some ([], heap)
  | S n =>
      '(item, heap) ← heappop heap;
      '(items, heap) ← heappop_n n heap;
      Some (item :: items, heap)
  end.

(** The heap invariant of the [heapq] documentation:
    [heap[k] <= heap[2*k+1]] and [heap[k] <= heap[2*k+2]], stated from
    the child's side. *)
Definition heap_ok (heap : list A) : Prop :=
  ∀ i x p, (0 < i)%nat → heap !! i = Some x → heap !! ((i - 1) / 2)%nat = Some p →
    py_le p x.

End heapq.
End heapq.

(** ** [list.sort(key=..., reverse=True)] and [Counter]

    Python's sort is stable, also with [reverse=True]: elements with equal
    keys keep their original order. The sorted result of a stable sort is
    determined by the input, so it is modelled by insertion from the right:
    an element passes the elements with a strictly larger key and stops
    before the first one whose key is not larger. *)

Section sort.
Context {A B : Type} `{PyOrd B} (key : A → B).

Fixpoint insert_desc (x : A) (l : list A) : list A :=
  match l with
  | [] => [x]
  | y :: l' =>
      if py_lt (key x) (key y) then y :: insert_desc x l' else x :: y :: l'
  end.

Definition sort_desc (l : list A) : list A := foldr insert_desc [] l.
End sort.

(** Ascending counterpart, the order in which [heapq] hands items out. *)
Section sort_asc.
Context {A : Type} `{PyOrd A}.

Fixpoint insert_asc (x : A) (l : list A) : list A :=
  match l with
  | [] => [x]
  | y :: l' => if py_lt y x then y :: insert_asc x l' else x :: y :: l'
  end.

Definition sort_asc (l : list A) : list A := foldr insert_asc [] l.
End sort_asc.

Module Counter.
Section Counter.
Context {K : Type} `{EqDecision K}.

(** A [Counter] is a [dict]: its items iterate in first-insertion order. *)
Definition t := list (K * Z).

(** [c[k]], which is 0 for a missing key *)
Fixpoint get (c : t) (k : K) : Z :=
  match c with
  | [] => 0
  | (k', n) :: c' => if decide (k = k') then n else get c' k
  end.

(** [c[k] += 1] *)
Fixpoint incr (c : t) (k : K) : t :=
  match c with
  | [] => [(k, 1)]
  | (k', n) :: c' =>
      if decide (k = k') then (k', n + 1) :: c' else (k', n) :: incr c' k
  end.

(** [c.most_common(n)], that is
    [sorted(c.items(), key=itemgetter(1), reverse=True)[:n]]. *)
Definition most_common (c : t) (n : nat) : list (K * Z) :=
  take n (sort_desc snd c).
End Counter.
End Counter.

(** ** Python values held by the cache: [None] or an object *)

Inductive pyval (V : Type) := PyNone | PyObj (v : V).
Arguments PyNone {V}.
Arguments PyObj {V} v.

(** ** HealthDataCache *)

(** [deque.remove(x)]: drops the first occurrence, [ValueError] if none. *)
Fixpoint deque_remove {K} `{EqDecision K} (x : K) (d : list K) : option (list K) :=
  match d with
  | [] => None
  | y :: d' => if decide (x = y) then Some d' else (y ::.) <$> deque_remove x d'
  end.

(** [deque.popleft()]: [IndexError] on an empty deque. *)
Definition deque_popleft {K} (d : list K) : option (K * list K) :=
  match d with
  | [] => None
  | y :: d' => Some (y, d')
  end.

Module HealthDataCache.
Section HealthDataCache.
Context {V : Type}.

Record t := mk {
  cache : gmap string (pyval V);
  access_order : list string;
  max_size : Z
}.

Definition init (max_size : Z) : t := mk ∅ [] max_size.

Definition get (self : t) (key : string) : option (pyval V * t) :=
  match cache self !! key with
  | Some value =>
      order ← deque_remove key (access_order self);
      Some (value, mk (cache self) (order ++ [key]) (max_size self))
  | None => Some (PyNone, self)
  end.

Definition put (self : t) (key : string) (value : pyval V) : option t :=
  '(cache, order) ←
    (if decide (is_Some (cache self !! key)) then
       order ← deque_remove key (access_order self);
       Some (cache self, order)
     else if decide (max_size self ≤ Z.of_nat (size (cache self))) then
       '(oldest, order) ← deque_popleft (access_order self);
       _ ← cache self !! oldest;  (* [del] raises [KeyError] otherwise *)
       Some (delete oldest (cache self), order)
     else Some (cache self, access_order self));
  Some (mk (<[key := value]> cache) (order ++ [key]) (max_size self)).
End HealthDataCache.
Arguments t : clear implicits.
End HealthDataCache.

(** ** HealthRecord and Doctor *)

Record HealthRecord := mkHealthRecord {
  record_id : Z;
  user_id : Z;
  doctor_id : Z;
  diagnosis : string;
  record_date : Datetime.t;
  severity : Severity;
  file_path : option string
}.

(** The dataclass constructor followed by [__post_init__]: whatever
    severity is passed, the stored one is computed from the diagnosis. *)
Definition HealthRecord_new (record_id user_id doctor_id : Z) (diagnosis : string)
    (record_date : Datetime.t) (file_path : option string) : HealthRecord :=
  mkHealthRecord record_id user_id doctor_id diagnosis record_date
    (_calculate_severity diagnosis) file_path.

(** [Doctor]; the float field [avg_severity_score] is not read by any
    operation modelled here and is left out. *)
Record Doctor := mkDoctor {
  d_doctor_id : Z;
  d_name : string;
  d_specialization : string;
  d_contact_number : string;
  d_email : string;
  d_patient_count : Z
}.

#[global] Instance Severity_countable : Countable Severity.
Proof.
  refine (inj_countable'
    (λ s, match s with MILD => 0 | MODERATE => 1 | CRITICAL => 2 end)%nat
    (λ n, match n with 0 => MILD | 1 => MODERATE | _ => CRITICAL end)%nat _).
  by intros [].
Defined.

(** [sum(f(v) for v in d.values())] *)
Definition sum_values {K V} `{Countable K} (f : V → Z) (d : gmap K V) : Z :=
  map_fold (λ _ v acc, f v + acc) 0 d.

(** ** PatientTimeline *)

Module PatientTimeline.

Record t := mk {
  records_by_year : gmap Z (list HealthRecord);
  severity_index : gmap Severity (list HealthRecord);
  doctor_visits : @Counter.t Z;
  condition_frequency : @Counter.t string
}.

Definition init : t := mk ∅ ∅ [] [].

(** [d[k]] on a [defaultdict(list)]: the bucket, created empty when absent. *)
Definition bucket {K} `{Countable K} (d : gmap K (list HealthRecord)) (k : K)
    : list HealthRecord :=
  default [] (d !! k).

Definition touch {K} `{Countable K} (d : gmap K (list HealthRecord)) (k : K)
    : gmap K (list HealthRecord) :=
  <[k := bucket d k]> d.

Definition add_record (self : t) (record : HealthRecord) : t :=
  let year := Datetime.year (record_date record) in
  let by_year := <[year := bucket (records_by_year self) year ++ [record]]>
                   (records_by_year self) in
  let by_sev := <[severity record :=
                    bucket (severity_index self) (severity record) ++ [record]]>
                  (severity_index self) in
  let visits := Counter.incr (doctor_visits self) (doctor_id record) in
  let conditions := Counter.incr (condition_frequency self) (diagnosis record) in
  (* Sort records by date within each year *)
  let by_year := <[year := sort_desc record_date (bucket by_year year)]> by_year in
  mk by_year by_sev visits conditions.

Definition get_records_by_year (self : t) (year : Z) : list HealthRecord * t :=
  (bucket (records_by_year self) year,
   mk (touch (records_by_year self) year) (severity_index self)
      (doctor_visits self) (condition_frequency self)).

Definition get_critical_records (self : t) : list HealthRecord * t :=
  (bucket (severity_index self) CRITICAL,
   mk (records_by_year self) (touch (severity_index self) CRITICAL)
      (doctor_visits self) (condition_frequency self)).

Definition get_most_visited_doctors (self : t) (limit : nat) : list (Z * Z) :=
  Counter.most_common (doctor_visits self) limit.

Definition get_common_conditions (self : t) (limit : nat) : list (string * Z) :=
  Counter.most_common (condition_frequency self) limit.

(** [sum(len(records) for records in self.records_by_year.values())] *)
Definition count_records (self : t) : Z :=
  sum_values (λ records, Z.of_nat (length records)) (records_by_year self).

End PatientTimeline.

(** ** DoctorAnalytics

    [calculate_efficiency_score] works on floats and touches only
    [efficiency_scores]; neither is modelled. *)

Module DoctorAnalytics.

Record t := mk {
  specialization_map : gmap string (list Doctor);
  workload_heap : list (Z * Z)  (* (patient_count, doctor_id) *)
}.

Definition init : t := mk ∅ [].

Definition add_doctor (self : t) (doctor : Doctor) : option t :=
  let spec := d_specialization doctor in
  let by_spec := <[spec := default [] (specialization_map self !! spec) ++ [doctor]]>
                   (specialization_map self) in
  heap ← heapq.heappush (workload_heap self) (d_patient_count doctor, d_doctor_id doctor);
  Some (mk by_spec heap).

(** Reading a [defaultdict(list)] creates the entry when it is missing. *)
Definition get_doctors_by_specialization (self : t) (specialization : string)
    : list Doctor * t :=
  let doctors := default [] (specialization_map self !! specialization) in
  (doctors,
   mk (<[specialization := doctors]> (specialization_map self)) (workload_heap self)).

(** The comprehension [[heappop(heap)[1] for _ in range(n)]]. *)
Fixpoint pop_ids (n : nat) (heap : list (Z * Z)) : option (list Z * list (Z * Z)) :=
  match n with
  | O => Some ([], heap)
  | S n =>
      '(item, heap) ← heapq.heappop heap;
      '(ids, heap) ← pop_ids n heap;
      Some (item.2 :: ids, heap)
  end.

Definition get_least_busy_doctors (self : t) (count : Z) : option (list Z * t) :=
  let n := Z.to_nat (Z.min count (Z.of_nat (length (workload_heap self)))) in
  '(ids, heap) ← pop_ids n (workload_heap self);
  Some (ids, mk (specialization_map self) heap).

End DoctorAnalytics.

(** ** TreatmentPriorityQueue *)

Module TreatmentPriorityQueue.

(** (priority, follow_up_date, treatment_id) *)
Definition entry : Type := Z * Datetime.t * Z.

Record t := mk {
  urgent_treatments : list entry;
  overdue_treatments : gset Z
}.

Definition init : t := mk [] ∅.

Definition severity_modifier (severity : Severity) : Z :=
  match severity with
  | CRITICAL => 0
  | MODERATE => 10
  | MILD => 20
  end.

(** Lower number = higher priority *)
Definition _calculate_priority (now follow_up_date : Datetime.t) (severity : Severity) : Z :=
  let days_until_due := Datetime.sub_days follow_up_date now in
  days_until_due + severity_modifier severity.

(** [add_treatment] reads the clock twice: [now1] inside
    [_calculate_priority], [now2] for the overdue check. *)
Definition add_treatment (now1 now2 : Datetime.t) (self : t)
    (treatment_id : Z) (follow_up_date : Datetime.t) (severity : Severity) : option t :=
  let priority := _calculate_priority now1 follow_up_date severity in
  heap ← heapq.heappush (urgent_treatments self) (priority, follow_up_date, treatment_id);
  Some (mk heap
          (if py_lt follow_up_date now2
           then {[treatment_id]} ∪ overdue_treatments self
           else overdue_treatments self)).

(** The first loop of [get_next_urgent_treatments]: pops into [urgent]
    and [temp_heap]. *)
Fixpoint pop_loop (n : nat) (heap : list entry) (urgent : list Z) (temp_heap : list entry)
    : option (list entry * list Z * list entry) :=
  match n with
  | O => Some (heap, urgent, temp_heap)
  | S n =>
      match heap with
      | [] => pop_loop n heap urgent temp_heap
      | _ :: _ =>
          '(item, heap) ← heapq.heappop heap;
          let '(priority, date, treatment_id) := item in
          pop_loop n heap (urgent ++ [treatment_id])
            (temp_heap ++ [(priority, date, treatment_id)])
      end
  end.

(** The second loop: pushes [temp_heap] back, in order. *)
Fixpoint restore_loop (temp_heap : list entry) (heap : list entry) : option (list entry) :=
  match temp_heap with
  | [] => Some heap
  | item :: temp_heap =>
      heap ← heapq.heappush heap item;
      restore_loop temp_heap heap
  end.

Definition get_next_urgent_treatments (self : t) (count : Z) : option (list Z * t) :=
  let n := Z.to_nat (Z.min count (Z.of_nat (length (urgent_treatments self)))) in
  '(heap, urgent, temp_heap) ← pop_loop n (urgent_treatments self) [] [];
  heap ← restore_loop temp_heap heap;
  Some (urgent, mk heap (overdue_treatments self)).

(** Returns a copy; the queue is not touched. *)
Definition get_overdue_treatments (self : t) : gset Z := overdue_treatments self.

End TreatmentPriorityQueue.

(** ** HealthMetricsAggregator *)

Module HealthMetricsAggregator.

(** The summary [dict] built by [get_user_health_summary]. *)
Record Summary := mkSummary {
  total_records : Z;
  critical_conditions : Z;
  most_visited_doctors : list (Z * Z);
  common_conditions : list (string * Z);
  recent_activity : Z
}.

(** What a summary request returns: a summary or
    [{"error": "No health records found"}]. *)
Inductive SummaryResult :=
  | SummaryOk (s : Summary)
  | SummaryError (msg : string).

Record t := mk {
  user_timelines : gmap Z PatientTimeline.t;
  doctor_analytics : DoctorAnalytics.t;
  treatment_queue : TreatmentPriorityQueue.t;
  cache : HealthDataCache.t Summary
}.

(** [HealthDataCache()] takes the default [max_size=100]. *)
Definition init : t :=
  mk ∅ DoctorAnalytics.init TreatmentPriorityQueue.init (HealthDataCache.init 100).

(** The fields of [record_data], with [record_date] already parsed by
    [datetime.fromisoformat]. *)
Record record_data := mkRecordData {
  rd_record_id : Z;
  rd_user_id : Z;
  rd_doctor_id : Z;
  rd_diagnosis : string;
  rd_record_date : Datetime.t;
  rd_file_path : option string
}.

Definition timeline_key (user_id : Z) : string := "user_timeline_" +:+ pretty user_id.
Definition summary_key (user_id : Z) : string := "user_summary_" +:+ pretty user_id.

Definition add_health_record (self : t) (data : record_data) : option t :=
  let record := HealthRecord_new (rd_record_id data) (rd_user_id data)
                  (rd_doctor_id data) (rd_diagnosis data) (rd_record_date data)
                  (rd_file_path data) in
  (* Add to user timeline *)
  let timelines :=
    if decide (is_Some (user_timelines self !! user_id record))
    then user_timelines self
    else <[user_id record := PatientTimeline.init]> (user_timelines self) in
  timeline ← timelines !! user_id record;
  let timelines :=
    <[user_id record := PatientTimeline.add_record timeline record]> timelines in
  (* Invalidate relevant cache entries *)
  cache ← HealthDataCache.put (cache self) (timeline_key (user_id record)) PyNone;
  Some (mk timelines (doctor_analytics self) (treatment_queue self) cache).

(** Truth value of a cached object, as [if cached:] tests it: [None] is
    false; a summary dict has five keys, is never empty, and is true. *)
Definition truthy (v : pyval Summary) : bool :=
  match v with
  | PyNone => false
  | PyObj _ => true
  end.

(** [len([r for ... if (datetime.now() - r.record_date).days <= 30])] *)
Definition count_recent (now : Datetime.t) (timeline : PatientTimeline.t) : Z :=
  sum_values
    (λ records, Z.of_nat (length
       (filter (λ r, Datetime.sub_days now (record_date r) ≤ 30) records)))
    (PatientTimeline.records_by_year timeline).

Definition get_user_health_summary (now : Datetime.t) (self : t) (user_id : Z)
    : option (SummaryResult * t) :=
  let cache_key := summary_key user_id in
  '(cached, cache) ← HealthDataCache.get (cache self) cache_key;
  let self := mk (user_timelines self) (doctor_analytics self) (treatment_queue self) cache in
  match cached with
  | PyObj s => (* [if cached:] holds, see [truthy] *)
      Some (SummaryOk s, self)
  | PyNone =>
      match user_timelines self !! user_id with
      | None => Some (SummaryError "No health records found", self)
      | Some timeline =>
          let total := PatientTimeline.count_records timeline in
          let '(critical, timeline) := PatientTimeline.get_critical_records timeline in
          let summary := mkSummary
            total
            (Z.of_nat (length critical))
            (PatientTimeline.get_most_visited_doctors timeline 3)
            (PatientTimeline.get_common_conditions timeline 5)
            (count_recent now timeline) in
          cache ← HealthDataCache.put cache cache_key (PyObj summary);
          Some (SummaryOk summary,
                mk (<[user_id := timeline]> (user_timelines self))
                   (doctor_analytics self) (treatment_queue self) cache)
      end
  end.

(** The [dict] returned by [get_system_analytics]. [total / users] is
    Python's true division; the model keeps the exact quotient. *)
Record Analytics := mkAnalytics {
  a_total_users : Z;
  a_total_records : Z;
  a_severity_distribution : gmap string Z;
  a_avg_records_per_user : Q
}.

(** [severity_dist[severity.value] += len(records)] on a [defaultdict(int)] *)
Definition dist_add (severity : Severity) (records : list HealthRecord)
    (dist : gmap string Z) : gmap string Z :=
  <[severity_value severity :=
      default 0 (dist !! severity_value severity) + Z.of_nat (length records)]> dist.

Definition get_system_analytics (self : t) : Analytics :=
  let total_users := Z.of_nat (size (user_timelines self)) in
  let total_records := sum_values PatientTimeline.count_records (user_timelines self) in
  (* Severity distribution *)
  let severity_dist :=
    map_fold (λ _ timeline dist,
                map_fold dist_add dist (PatientTimeline.severity_index timeline))
             ∅ (user_timelines self) in
  mkAnalytics total_users total_records severity_dist
    (if decide (0 < total_users)
     then (inject_Z total_records / inject_Z total_users)%Q
     else 0%Q).

End HealthMetricsAggregator.

(** ** Specification vocabulary for the cache

    A run of the cache records the keys it touches, most recent first; the
    age of a key is the number of touches since its last one. *)

Module CacheSpec.
Import HealthDataCache.

Section deque.
Context {K : Type} `{EqDecision K}.

(** The items queued behind the first occurrence of [k]. *)
Fixpoint behind (k : K) (l : list K) : list K :=
  match l with
  | [] => []
  | x :: l' => if decide (x = k) then l' else behind k l'
  end.

End deque.

Section cache.
Context {V : Type}.
Implicit Types (c : HealthDataCache.t V) (k : string) (v : pyval V).

(** The dictionary and the recency deque hold the same keys, once each. *)
Definition wf c : Prop :=
  NoDup (access_order c) ∧ ∀ k, k ∈ access_order c ↔ is_Some (cache c !! k).

(** The number of touches since [k] was last touched, where [hist] lists
    the touched keys, most recent first. *)
Fixpoint age (k : string) (hist : list string) : nat :=
  match hist with
  | [] => 0
  | x :: hist' => if decide (x = k) then 0 else S (age k hist')
  end.

(** One call on the cache. *)
Inductive op := Get (k : string) | Put (k : string) (v : pyval V).

(** A call acts on the cache and on the history of touched keys: a [put]
    and a [get] that hits touch their key, a [get] that misses touches
    nothing. *)
Definition step (s : HealthDataCache.t V * list string) (o : op)
    : option (HealthDataCache.t V * list string) :=
  match o with
  | Get k =>
      '(_, c') ← get s.1 k;
      Some (c', if decide (is_Some (cache s.1 !! k)) then k :: s.2 else s.2)
  | Put k v => c' ← put s.1 k v; Some (c', k :: s.2)
  end.

Fixpoint run (s : HealthDataCache.t V * list string) (ops : list op)
    : option (HealthDataCache.t V * list string) :=
  match ops with
  | [] => Some s
  | o :: ops => s' ← step s o; run s' ops
  end.

(** Recency order: later in the deque means touched more recently. *)
Definition by_age (hist : list string) (a b : string) : Prop :=
  (age b hist < age a hist)%nat.

(** What every reachable cache of capacity [N] satisfies. *)
Definition inv (N : Z) (s : HealthDataCache.t V * list string) : Prop :=
  max_size s.1 = N ∧ wf s.1 ∧
  Z.of_nat (size (cache s.1)) ≤ Z.max 0 N ∧
  StronglySorted (by_age s.2) (access_order s.1).

(** The key a call is about. *)
Definition op_key (o : op) : string :=
  match o with Get k => k | Put k _ => k end.

(** [k] is cached with value [w] and at most [i] keys are queued behind it. *)
Definition surv (k : string) (w : pyval V) (i : nat) c : Prop :=
  k ∈ access_order c ∧ (length (behind k (access_order c)) ≤ i)%nat ∧
  cache c !! k = Some w.

End cache.
Arguments op : clear implicits.
End CacheSpec.

(** ** Specification vocabulary for the treatment queue *)

Module QueueSpec.
Import TreatmentPriorityQueue.

(** One call on the queue, with the clock readings it makes. *)
Inductive call :=
  | AddTreatment (now1 now2 : Datetime.t) (treatment_id : Z)
      (follow_up_date : Datetime.t) (severity : Severity)
  | NextUrgent (count : Z).

Definition step (q : t) (c : call) : option t :=
  match c with
  | AddTreatment now1 now2 treatment_id follow_up_date severity =>
      add_treatment now1 now2 q treatment_id follow_up_date severity
  | NextUrgent count => snd <$> get_next_urgent_treatments q count
  end.

Fixpoint run (q : t) (calls : list call) : option t :=
  match calls with
  | [] => Some q
  | c :: calls => q' ← step q c; run q' calls
  end.

(** The entry queued for a treatment when the clock reads [now]. *)
Definition entry_of (now : Datetime.t) (a : Z * Datetime.t * Severity) : entry :=
  (_calculate_priority now a.1.2 a.2, a.1.2, a.1.1).

(** Adding (treatment_id, follow_up_date, severity) triples with the clock
    held at [now]. *)
Definition add_all (now : Datetime.t) (adds : list (Z * Datetime.t * Severity)) : list call :=
  (λ a, AddTreatment now now a.1.1 a.1.2 a.2) <$> adds.

(** Reachable queues keep a valid heap. *)
Definition queue_ok (q : t) : Prop := heapq.heap_ok (urgent_treatments q).

End QueueSpec.

(** ** Specification vocabulary for the doctor analytics *)

Module DoctorSpec.
Import DoctorAnalytics.

(** Registering doctors one after the other. *)
Fixpoint register_all (self : t) (doctors : list Doctor) : option t :=
  match doctors with
  | [] => Some self
  | doctor :: doctors => self ← add_doctor self doctor; register_all self doctors
  end.

(** A doctor as the request layer registers it: [patient_count] keeps
    its default 0. *)
Definition new_doctor (doctor_id : Z) (name specialization : string) : Doctor :=
  mkDoctor doctor_id name specialization "" "" 0.

End DoctorSpec.

(** ** Specification vocabulary for the timeline *)

Module TimelineSpec.
Import PatientTimeline.

(** A sequence of [add_record] calls. *)
Definition add_records (self : t) (records : list HealthRecord) : t :=
  foldl add_record self records.

(** [a] may stand before [b] in a most-recent-first listing. *)
Definition newest_first (a b : HealthRecord) : Prop :=
  py_le (record_date b) (record_date a).

(** Every year bucket is sorted most recent first. *)
Definition buckets_sorted (self : t) : Prop :=
  ∀ year, StronglySorted newest_first (bucket (records_by_year self) year).

End TimelineSpec.

(** ** Specification vocabulary for the aggregator *)

Module AggregatorSpec.
Import HealthMetricsAggregator.

(** One call on the engine, with the clock reading it makes. *)
Inductive call :=
  | AddHealthRecord (data : record_data)
  | GetUserHealthSummary (now : Datetime.t) (user_id : Z).

Definition step (self : t) (c : call) : option t :=
  match c with
  | AddHealthRecord data => add_health_record self data
  | GetUserHealthSummary now user_id => snd <$> get_user_health_summary now self user_id
  end.

Fixpoint run (self : t) (calls : list call) : option t :=
  match calls with
  | [] => Some self
  | c :: calls => self ← step self c; run self calls
  end.

(** The records handed to [add_health_record], oldest first. *)
Fixpoint added (calls : list call) : list record_data :=
  match calls with
  | [] => []
  | AddHealthRecord data :: calls => data :: added calls
  | GetUserHealthSummary _ _ :: calls => added calls
  end.

(** How many of the records classify into the tier. *)
Definition tier_count (tier : Severity) (records : list record_data) : Z :=
  Z.of_nat (length (filter (λ d, _calculate_severity (rd_diagnosis d) = tier) records)).

(** How many distinct users the records belong to. *)
Definition user_count (records : list record_data) : Z :=
  Z.of_nat (size (list_to_set (rd_user_id <$> records) : gset Z)).

(** The records indexed under a tier, over all timelines. *)
Definition tier_total (tier : Severity) (timelines : gmap Z PatientTimeline.t) : Z :=
  sum_values
    (λ timeline, Z.of_nat (length
       (PatientTimeline.bucket (PatientTimeline.severity_index timeline) tier)))
    timelines.

(** The timelines account for exactly the given records. *)
Definition indices_ok (records : list record_data) (self : t) : Prop :=
  dom (user_timelines self) = list_to_set (rd_user_id <$> records) ∧
  sum_values PatientTimeline.count_records (user_timelines self)
    = Z.of_nat (length records) ∧
  ∀ tier, tier_total tier (user_timelines self) = tier_count tier records.

(** The engine's cache is a consistent LRU cache of capacity 100. *)
Definition cache_ok (self : t) : Prop :=
  ∃ hist, CacheSpec.inv 100 (cache self, hist).

(** The summary of a timeline, computed from its indices. *)
Definition fresh_summary (now : Datetime.t) (timeline : PatientTimeline.t) : Summary :=
  mkSummary
    (PatientTimeline.count_records timeline)
    (Z.of_nat (length
       (PatientTimeline.bucket (PatientTimeline.severity_index timeline) CRITICAL)))
    (Counter.most_common (PatientTimeline.doctor_visits timeline) 3)
    (Counter.most_common (PatientTimeline.condition_frequency timeline) 5)
    (count_recent now timeline).

(** What a summary request answers when nothing usable is cached. *)
Definition miss_result (now : Datetime.t) (self : t) (user_id : Z) : SummaryResult :=
  match user_timelines self !! user_id with
  | None => SummaryError "No health records found"
  | Some timeline => SummaryOk (fresh_summary now timeline)
  end.

End AggregatorSpec.

(** ** The cache as a dictionary *)

Module CacheDict.
Import HealthDataCache CacheSpec.

Section dict.
Context {V : Type}.

(** What a plain [dict] holds after the same calls: every [put] stores,
    nothing is ever dropped. *)
Fixpoint dict_of (m : gmap string (pyval V)) (ops : list (op V)) : gmap string (pyval V) :=
  match ops with
  | [] => m
  | Get _ :: ops => dict_of m ops
  | Put k v :: ops => dict_of (<[k := v]> m) ops
  end.

(** The keys the calls store under. *)
Fixpoint put_keys (ops : list (op V)) : gset string :=
  match ops with
  | [] => ∅
  | Get _ :: ops => put_keys ops
  | Put k _ :: ops => {[k]} ∪ put_keys ops
  end.

End dict.
End CacheDict.

(** ** Specification vocabulary for counters *)

Module CounterSpec.
Section CounterSpec.
Context {K : Type} `{EqDecision K}.

(** How often [k] occurs. *)
Definition occurrences (k : K) (l : list K) : Z :=
  Z.of_nat (length (filter (λ x, x = k) l)).

(** The distinct items, in the order of their first occurrence. *)
Definition first_seen (l : list K) : list K :=
  foldl (λ seen k, if decide (k ∈ seen) then seen else seen ++ [k]) [] l.

(** Each distinct item with its number of occurrences, in first-seen
    order: the items of [Counter(l)]. *)
Definition tally (l : list K) : list (K * Z) :=
  (λ k, (k, occurrences k l)) <$> first_seen l.

(** Counting the items one at a time, as [add_record] does. *)
Definition count_all (l : list K) : @Counter.t K := foldl Counter.incr [] l.

(** [result] lists the [limit] most frequent items of [l]: the head of
    the tally sorted by count, highest first, which keeps items of equal
    count in first-seen order. *)
Definition is_top_counts (l : list K) (limit : nat) (result : list (K * Z)) : Prop :=
  result = take limit (sort_desc snd (tally l)) ∧
  (∀ k n, (k, n) ∈ result → n = occurrences k l ∧ 0 < n) ∧
  NoDup result.*1 ∧
  StronglySorted (λ a b, b.2 ≤ a.2) result ∧
  length result = (limit `min` length (first_seen l))%nat ∧
  (∀ k p, k ∈ l → k ∉ result.*1 → p ∈ result → occurrences k l ≤ p.2) ∧
  (∀ n, filter (λ p, p.2 = n) result `prefix_of` filter (λ p, p.2 = n) (tally l)).

End CounterSpec.
End CounterSpec.

(** ** Specification vocabulary for the ranking structures *)

Module RankingSpec.

(** The heap item [add_doctor] pushes. *)
Definition workload_item (doctor : Doctor) : Z * Z :=
  (d_patient_count doctor, d_doctor_id doctor).

(** The entries pushed by the [add_treatment] calls, each with the
    priority computed from the clock reading of its own call. *)
Fixpoint queued (calls : list QueueSpec.call) : list TreatmentPriorityQueue.entry :=
  match calls with
  | [] => []
  | QueueSpec.AddTreatment now1 _ treatment_id follow_up_date severity :: calls =>
      (TreatmentPriorityQueue._calculate_priority now1 follow_up_date severity,
       follow_up_date, treatment_id) :: queued calls
  | QueueSpec.NextUrgent _ :: calls => queued calls
  end.

End RankingSpec.

(** ** Specification vocabulary for the engine state *)

Module EngineSpec.
Import HealthMetricsAggregator AggregatorSpec.

(** The record [add_health_record] builds from its argument. *)
Definition record_of (data : record_data) : HealthRecord :=
  HealthRecord_new (rd_record_id data) (rd_user_id data) (rd_doctor_id data)
    (rd_diagnosis data) (rd_record_date data) (rd_file_path data).

(** The records of one user. *)
Definition records_of_user (user_id : Z) (records : list record_data) : list record_data :=
  filter (λ d, rd_user_id d = user_id) records.

(** Two timelines answer every query alike; they may differ in which
    empty severity buckets exist. *)
Definition same_contents (a b : PatientTimeline.t) : Prop :=
  PatientTimeline.records_by_year a = PatientTimeline.records_by_year b ∧
  (∀ tier, PatientTimeline.bucket (PatientTimeline.severity_index a) tier
           = PatientTimeline.bucket (PatientTimeline.severity_index b) tier) ∧
  PatientTimeline.doctor_visits a = PatientTimeline.doctor_visits b ∧
  PatientTimeline.condition_frequency a = PatientTimeline.condition_frequency b.

(** Every user with records has a timeline holding exactly those records,
    and no other user has a timeline. *)
Definition timelines_ok (records : list record_data) (self : t) : Prop :=
  ∀ user_id,
    match user_timelines self !! user_id with
    | None => records_of_user user_id records = []
    | Some timeline =>
        records_of_user user_id records ≠ [] ∧
        same_contents timeline
          (TimelineSpec.add_records PatientTimeline.init
             (record_of <$> records_of_user user_id records))
    end.

(** What the cache can hold: [None] under the timeline key and a summary
    under the summary key, of users that have records. *)
Definition cache_keys_ok (self : t) : Prop :=
  ∀ key value, HealthDataCache.cache (cache self) !! key = Some value →
    ∃ user_id, is_Some (user_timelines self !! user_id) ∧
      (key = timeline_key user_id ∧ value = PyNone ∨
       key = summary_key user_id ∧ ∃ s, value = PyObj s).

(** The users whose summary the calls request, oldest request first. *)
Fixpoint requested (calls : list call) : list Z :=
  match calls with
  | [] => []
  | AddHealthRecord _ :: calls => requested calls
  | GetUserHealthSummary _ user_id :: calls => user_id :: requested calls
  end.

(** [s] describes the records [records] of one user when the clock reads
    [now]. *)
Definition summarises (now : Datetime.t) (records : list record_data) (s : Summary) : Prop :=
  total_records s = Z.of_nat (length records) ∧
  critical_conditions s = tier_count CRITICAL records ∧
  CounterSpec.is_top_counts (rd_doctor_id <$> records) 3 (most_visited_doctors s) ∧
  CounterSpec.is_top_counts (rd_diagnosis <$> records) 5 (common_conditions s) ∧
  recent_activity s =
    Z.of_nat (length
      (filter (λ d, Datetime.sub_days now (rd_record_date d) ≤ 30) records)).

(** Every cached summary was requested, and described the records its
    user had when it was computed. *)
Definition summaries_ok (records : list record_data) (users : list Z) (self : t) : Prop :=
  ∀ user_id s,
    HealthDataCache.cache (cache self) !! summary_key user_id = Some (PyObj s) →
    user_id ∈ users ∧
    ∃ now earlier, earlier `prefix_of` records ∧
      records_of_user user_id earlier ≠ [] ∧
      summarises now (records_of_user user_id earlier) s.

(** The users a summary is served to: the requests made for a user who
    has a record by then, where [records] are the records added before
    the calls. *)
Fixpoint served (records : list record_data) (calls : list call) : list Z :=
  match calls with
  | [] => []
  | AddHealthRecord data :: calls => served (records ++ [data]) calls
  | GetUserHealthSummary _ user_id :: calls =>
      (if decide (records_of_user user_id records = []) then [] else [user_id])
        ++ served records calls
  end.

(** A severity bucket exists exactly if it holds a record, or is the
    CRITICAL bucket of a user a summary was served to. *)
Definition tiers_ok (records : list record_data) (users : list Z) (self : t) : Prop :=
  (∀ user_id, user_id ∈ users → records_of_user user_id records ≠ []) ∧
  ∀ user_id timeline tier, user_timelines self !! user_id = Some timeline →
    (is_Some (PatientTimeline.severity_index timeline !! tier) ↔
     PatientTimeline.bucket (PatientTimeline.severity_index timeline) tier ≠ [] ∨
     (tier = CRITICAL ∧ user_id ∈ users)).

(** What every engine reached from [init] satisfies, where [records] are
    the records added and [users] the users a summary was served to. *)
Definition engine_ok (records : list record_data) (users : list Z) (self : t) : Prop :=
  cache_ok self ∧ timelines_ok records self ∧ cache_keys_ok self ∧
  summaries_ok records users self ∧ tiers_ok records users self.

End EngineSpec.

(** ** app.py: retrying writes *)

Module App.

(** What one call of the write function does: it returns a value, raises
    [sqlite3.OperationalError] with a message, or raises something else. *)
Inductive outcome (A : Type) :=
  | Returns (a : A)
  | OperationalError (msg : string)
  | OtherError (e : string).
Arguments Returns {A} a.
Arguments OperationalError {A} msg.
Arguments OtherError {A} e.

(** What [execute_write] does: it returns what the write function
    returned, returns [None] by falling off the loop, or raises. *)
Inductive result (A : Type) :=
  | Returned (a : A)
  | ReturnedNone
  | RaisedOperationalError (msg : string)
  | RaisedOther (e : string).
Arguments Returned {A} a.
Arguments ReturnedNone {A}.
Arguments RaisedOperationalError {A} msg.
Arguments RaisedOther {A} e.

(** ['locked' in str(e).lower()] *)
Definition is_locked (msg : string) : bool := Str.contains "locked" (Str.lower msg).

(** [for attempt in range(retries)], from [attempt] on with [remaining]
    iterations left. [fn k] is the outcome of the call made in attempt
    [k]; every [time.sleep(base_delay * (attempt + 1))] is recorded by its
    multiple of [base_delay]. *)
Fixpoint execute_write_loop {A} (fn : nat → outcome A) (retries : Z)
    (attempt remaining : nat) (slept : list Z) : result A * list Z :=
  match remaining with
  | O => (ReturnedNone, slept)
  | S remaining =>
      match fn attempt with
      | Returns a => (Returned a, slept)
      | OperationalError msg =>
          if is_locked msg && bool_decide (Z.of_nat attempt < retries - 1)
          then execute_write_loop fn retries (S attempt) remaining
                 (slept ++ [Z.of_nat attempt + 1])
          else (RaisedOperationalError msg, slept)
      | OtherError e => (RaisedOther e, slept)
      end
  end.

Definition execute_write {A} (fn : nat → outcome A) (retries : Z) : result A * list Z :=
  execute_write_loop fn retries 0 (Z.to_nat retries) [].

End App.

(** ** Specification vocabulary for the retry loop *)

Module AppSpec.
Import App.

(** The attempt failed in the way that is tried again. *)
Definition retryable {A} (o : outcome A) : bool :=
  match o with
  | OperationalError msg => is_locked msg
  | _ => false
  end.

(** Passing an outcome on to the caller. *)
Definition result_of {A} (o : outcome A) : result A :=
  match o with
  | Returns a => Returned a
  | OperationalError msg => RaisedOperationalError msg
  | OtherError e => RaisedOther e
  end.

(** The multiples 1, 2, ..., k. *)
Definition backoff (k : nat) : list Z := Z.of_nat <$> seq 1 k.

(** The sum of a list of multiples. *)
Definition total (l : list Z) : Z := foldr Z.add 0 l.

End AppSpec.

(** * Properties *)

(** ** Strings *)

Module StrFacts.
Import Str.

Lemma append_nil (s : string) : "" +:+ s = s.
Proof. reflexivity. Qed.

Lemma append_cons (c : ascii) (s1 s2 : string) :
  String c s1 +:+ s2 = String c (s1 +:+ s2).
Proof. reflexivity. Qed.

Lemma startswith_spec (p s : string) :
  startswith p s = true ↔ ∃ post, s = p +:+ post.
Proof.
  revert s. induction p as [|c p IH]; intros s; simpl.
  - split; [intros _; by exists s | done].
  - setoid_rewrite append_cons. destruct s as [|c' s].
    + split; [done | intros [post Hpost]; discriminate].
    + destruct (decide (c = c')) as [->|Hne].
      * rewrite IH. split; intros [post Hpost]; exists post; congruence.
      * split; [done | intros [post Hpost]; congruence].
Qed.

Lemma contains_spec (needle hay : string) :
  contains needle hay = true ↔ substring_of needle hay.
Proof.
  unfold substring_of. induction hay as [|c hay IH]; simpl.
  - rewrite orb_false_r, startswith_spec. split.
    + intros [post Hpost]. by exists ""%string, post.
    + intros ([|c pre] & post & Hpost); [by exists post | discriminate].
  - rewrite orb_true_iff, IH, startswith_spec. split.
    + intros [[post Hpost] | (pre & post & Hpost)].
      * by exists ""%string, post.
      * exists (String c pre), post. by rewrite append_cons, Hpost.
    + intros ([|c' pre] & post & Hpost).
      * left. by exists post.
      * right. exists pre, post. rewrite append_cons in Hpost. congruence.
Qed.

Lemma lower_char_idemp (c : ascii) : lower_char (lower_char c) = lower_char c.
Proof. by destruct c as [[] [] [] [] [] [] [] []]. Qed.

Lemma lower_char_upper_char (c : ascii) : lower_char (upper_char c) = lower_char c.
Proof. by destruct c as [[] [] [] [] [] [] [] []]. Qed.

Lemma lower_idemp (s : string) : lower (lower s) = lower s.
Proof. induction s; simpl; by rewrite ?lower_char_idemp, ?IHs. Qed.

Lemma lower_upper (s : string) : lower (upper s) = lower s.
Proof. induction s; simpl; by rewrite ?lower_char_upper_char, ?IHs. Qed.

End StrFacts.

(** ** Severity classification *)

Lemma any_keyword_in_spec (keywords : list string) (text : string) :
  any_keyword_in keywords text = true ↔
  ∃ k, k ∈ keywords ∧ Str.substring_of k text.
Proof.
  unfold any_keyword_in. rewrite existsb_exists. split.
  - intros (k & Hin & Hk). exists k. split; [by apply list_elem_of_In|].
    by apply StrFacts.contains_spec.
  - intros (k & Hin & Hk). exists k. split; [by apply list_elem_of_In|].
    by apply StrFacts.contains_spec.
Qed.

Lemma calculate_severity_lower (d1 d2 : string) :
  Str.lower d1 = Str.lower d2 → _calculate_severity d1 = _calculate_severity d2.
Proof. unfold _calculate_severity. by intros ->. Qed.


(** ** The LRU cache *)

Module CacheFacts.
Import HealthDataCache CacheSpec.

Section deque.
Context {K : Type} `{EqDecision K}.

Lemma deque_remove_split (x : K) (d d' : list K) :
  deque_remove x d = Some d' →
  ∃ l1 l2, d = l1 ++ x :: l2 ∧ d' = l1 ++ l2 ∧ x ∉ l1.
Proof.
  revert d'. induction d as [|y d IH]; intros d' Hrm; simpl in Hrm; [done|].
  destruct (decide (x = y)) as [->|Hne].
  - inversion Hrm; subst. exists [], d'. split_and!; [done | done | apply not_elem_of_nil].
  - destruct (deque_remove x d) as [d0|] eqn:Hd; [|done].
    inversion Hrm; subst.
    destruct (IH d0 eq_refl) as (l1 & l2 & -> & -> & Hnin).
    exists (y :: l1), l2. split_and!; [done | done |].
    rewrite not_elem_of_cons. done.
Qed.

Lemma deque_remove_is_Some (x : K) (d : list K) :
  x ∈ d → is_Some (deque_remove x d).
Proof.
  induction d as [|y d IH]; intros Hin; [by apply elem_of_nil in Hin|].
  simpl. destruct (decide (x = y)) as [->|Hne]; [by eexists|].
  apply elem_of_cons in Hin as [?|Hin]; [done|].
  destruct (IH Hin) as [d' ->]. by eexists.
Qed.

Lemma behind_snoc (k j : K) (l : list K) :
  k ∈ l → behind k (l ++ [j]) = behind k l ++ [j].
Proof.
  induction l as [|x l IH]; intros Hin; [by apply elem_of_nil in Hin|].
  simpl. destruct (decide (x = k)); [done|].
  apply elem_of_cons in Hin as [?|Hin]; [congruence | by apply IH].
Qed.

Lemma behind_remove_mid (k j : K) (l1 l2 : list K) :
  j ≠ k → k ∈ l1 ++ j :: l2 →
  k ∈ l1 ++ l2 ∧ (length (behind k (l1 ++ l2)) ≤ length (behind k (l1 ++ j :: l2)))%nat.
Proof.
  intros Hne. induction l1 as [|x l1 IH]; simpl; intros Hin.
  - apply elem_of_cons in Hin as [?|Hin]; [congruence|].
    by rewrite decide_False.
  - destruct (decide (x = k)) as [->|Hxk].
    + split; [apply elem_of_cons; by left|]. rewrite !length_app. simpl. lia.
    + apply elem_of_cons in Hin as [?|Hin]; [congruence|].
      destruct (IH Hin) as [Hin' Hlen]. split; [apply elem_of_cons; by right | done].
Qed.

Lemma behind_last (k : K) (l : list K) : k ∉ l → behind k (l ++ [k]) = [].
Proof.
  induction l as [|x l IH]; simpl; intros Hnin.
  - by rewrite decide_True.
  - apply not_elem_of_cons in Hnin as [Hkx Hnin].
    rewrite decide_False by done. by apply IH.
Qed.

End deque.

Section cache.
Context {V : Type}.
Implicit Types (c : HealthDataCache.t V) (k : string) (v w : pyval V).
Implicit Types (s : HealthDataCache.t V * list string) (o : op V) (ops : list (op V)).

Lemma wf_init (N : Z) : wf (init N : HealthDataCache.t V).
Proof.
  split; [constructor|]. intros k. simpl. rewrite lookup_empty.
  split; [by intros ?%elem_of_nil | by intros [? ?]].
Qed.

Lemma wf_length c : wf c → length (access_order c) = size (cache c).
Proof.
  intros [Hnd Hdom].
  rewrite <- (size_dom (D := gset string)).
  assert (dom (cache c) = list_to_set (access_order c)) as ->.
  { apply set_eq. intros k. rewrite elem_of_dom, elem_of_list_to_set. by rewrite Hdom. }
  by rewrite size_list_to_set.
Qed.

Lemma get_miss c k : cache c !! k = None → get c k = Some (PyNone, c).
Proof. unfold get. by intros ->. Qed.

Lemma get_hit c k v :
  wf c → cache c !! k = Some v →
  ∃ l1 l2, access_order c = l1 ++ k :: l2 ∧
    get c k = Some (v, mk (cache c) ((l1 ++ l2) ++ [k]) (max_size c)).
Proof.
  intros [Hnd Hdom] Hk. unfold get. rewrite Hk.
  destruct (deque_remove_is_Some k (access_order c)) as [d Hd].
  { apply Hdom. by eexists. }
  rewrite Hd. simpl.
  apply deque_remove_split in Hd as (l1 & l2 & Ho & -> & _). by exists l1, l2.
Qed.

Lemma put_present c k v :
  wf c → is_Some (cache c !! k) →
  ∃ l1 l2, access_order c = l1 ++ k :: l2 ∧
    put c k v = Some (mk (<[k := v]> (cache c)) ((l1 ++ l2) ++ [k]) (max_size c)).
Proof.
  intros [Hnd Hdom] Hk. unfold put. rewrite decide_True by done.
  destruct (deque_remove_is_Some k (access_order c)) as [d Hd]; [by apply Hdom|].
  rewrite Hd. simpl.
  apply deque_remove_split in Hd as (l1 & l2 & Ho & -> & _). by exists l1, l2.
Qed.

Lemma put_new_room c k v :
  cache c !! k = None → Z.of_nat (size (cache c)) < max_size c →
  put c k v = Some (mk (<[k := v]> (cache c)) (access_order c ++ [k]) (max_size c)).
Proof.
  intros Hk Hroom. unfold put.
  rewrite decide_False by (rewrite Hk; by intros [? ?]).
  by rewrite decide_False by lia.
Qed.

Lemma put_new_full c k v :
  wf c → cache c !! k = None → max_size c ≤ Z.of_nat (size (cache c)) →
  1 ≤ max_size c →
  ∃ oldest rest, access_order c = oldest :: rest ∧
    put c k v = Some (mk (<[k := v]> (delete oldest (cache c))) (rest ++ [k]) (max_size c)).
Proof.
  intros Hwf Hk Hfull Hpos. unfold put.
  rewrite decide_False by (rewrite Hk; by intros [? ?]).
  rewrite decide_True by done.
  pose proof (wf_length c Hwf) as Hlen.
  destruct (access_order c) as [|oldest rest] eqn:Ho; [simpl in Hlen; lia|].
  exists oldest, rest. split; [done|]. simpl.
  destruct Hwf as [_ Hdom]. rewrite Ho in Hdom.
  destruct (proj1 (Hdom oldest)) as [w Hw]; [apply elem_of_cons; by left|].
  by rewrite Hw.
Qed.

(** An empty cache with a capacity below one cannot take a key:
    [popleft] on the empty deque raises. *)
Lemma put_no_capacity c k v :
  access_order c = [] → cache c !! k = None → max_size c ≤ Z.of_nat (size (cache c)) →
  put c k v = None.
Proof.
  intros Ho Hk Hfull. unfold put.
  rewrite decide_False by (rewrite Hk; by intros [? ?]).
  rewrite decide_True by done. by rewrite Ho.
Qed.


Lemma by_age_touch (hist : list string) (k : string) (rest : list string) :
  StronglySorted (by_age hist) rest → k ∉ rest →
  StronglySorted (by_age (k :: hist)) (rest ++ [k]).
Proof.
  intros Hs Hk. apply StronglySorted_app. split_and!.
  - intros a b Ha ->%list_elem_of_singleton. unfold by_age. simpl.
    rewrite decide_True by done.
    rewrite decide_False by (intros ->; done). lia.
  - induction Hs as [|a l Hs IH Hall]; [constructor|].
    apply not_elem_of_cons in Hk as [Hka Hk].
    constructor; [by apply IH|].
    rewrite Forall_forall in Hall |- *. intros b Hb.
    specialize (Hall b Hb). unfold by_age in *. simpl.
    destruct (decide (k = a)); [done|].
    destruct (decide (k = b)); lia.
  - repeat constructor.
Qed.

Lemma sorted_remove_mid {A} (R : A → A → Prop) (l1 l2 : list A) (x : A) :
  StronglySorted R (l1 ++ x :: l2) → StronglySorted R (l1 ++ l2).
Proof.
  rewrite !StronglySorted_app. intros (H12 & H1 & H2).
  split_and!; [|done|by inversion H2].
  intros a b Ha Hb. apply H12; [done|]. apply elem_of_cons; by right.
Qed.

Lemma wf_promote c k v l1 l2 :
  wf c → access_order c = l1 ++ k :: l2 →
  wf (mk (<[k := v]> (cache c)) ((l1 ++ l2) ++ [k]) (max_size c)) ∧
  size (<[k := v]> (cache c)) = size (cache c) ∧ k ∉ l1 ++ l2.
Proof.
  intros [Hnd Hdom] Ho. rewrite Ho in Hnd, Hdom.
  assert (Hperm : (l1 ++ l2) ++ [k] ≡ₚ l1 ++ k :: l2).
  { rewrite <- (assoc_L (++)). apply Permutation_app_head.
    symmetry. apply Permutation_cons_append. }
  assert (Hk : is_Some (cache c !! k)).
  { apply Hdom. rewrite elem_of_app, elem_of_cons. auto. }
  split_and!.
  - split; simpl; [by rewrite Hperm|].
    intros j. rewrite Hperm, Hdom, lookup_insert.
    destruct (decide (k = j)) as [->|]; [|done]. split; [by eexists | done].
  - destruct Hk as [w Hw]. by apply map_size_insert_Some.
  - rewrite <- Permutation_middle in Hnd. by apply NoDup_cons in Hnd as [? _].
Qed.

Lemma inv_step (N : Z) s o (s' : HealthDataCache.t V * list string) : inv N s → step s o = Some s' → inv N s'.
Proof.
  destruct s as [c hist]. intros (HN & Hwf & Hsz & Hsort) Hstep.
  simpl in HN, Hwf, Hsz, Hsort.
  destruct o as [k|k v]; simpl in Hstep.
  - (* get *)
    destruct (cache c !! k) as [w|] eqn:Hk.
    + destruct (get_hit c k w Hwf Hk) as (l1 & l2 & Ho & Hget).
      rewrite Hget in Hstep. simpl in Hstep.
      inversion Hstep; subst s'; clear Hstep.
      destruct (wf_promote c k w l1 l2 Hwf Ho) as (Hwf' & _ & Hnin).
      rewrite insert_id in Hwf' by done.
      split_and!; simpl; [done | done | done |].
      apply by_age_touch; [|done]. rewrite Ho in Hsort.
      by apply sorted_remove_mid in Hsort.
    + rewrite get_miss in Hstep by done. simpl in Hstep.
      by inversion Hstep; subst s'.
  - (* put *)
    destruct (put c k v) as [c'|] eqn:Hput; [|done]. simpl in Hstep.
    inversion Hstep; subst s'; clear Hstep. simpl.
    destruct (cache c !! k) as [w|] eqn:Hk.
    + destruct (put_present c k v Hwf) as (l1 & l2 & Ho & Hput'); [by eexists|].
      rewrite Hput' in Hput. inversion Hput; subst c'; clear Hput.
      destruct (wf_promote c k v l1 l2 Hwf Ho) as (Hwf' & Hsize & Hnin).
      split_and!; simpl; [done | done | by rewrite Hsize |].
      apply by_age_touch; [|done]. rewrite Ho in Hsort.
      by apply sorted_remove_mid in Hsort.
    + assert (Hkn : k ∉ access_order c).
      { destruct Hwf as [_ Hdom]. rewrite Hdom, Hk. by intros [? ?]. }
      destruct (decide (Z.of_nat (size (cache c)) < max_size c)) as [Hroom|Hfull].
      * rewrite put_new_room in Hput by done.
        inversion Hput; subst c'; clear Hput.
        split_and!; simpl; [done | | |].
        -- destruct Hwf as [Hnd Hdom]. split; simpl.
           ++ apply NoDup_app. split_and!; [done | | apply NoDup_singleton].
              intros j Hj ->%list_elem_of_singleton. done.
           ++ intros j. rewrite elem_of_app, list_elem_of_singleton, Hdom, lookup_insert.
              destruct (decide (k = j)) as [->|]; [|intuition congruence].
              split; [by eexists | auto].
        -- rewrite map_size_insert_None by done. lia.
        -- by apply by_age_touch.
      * destruct (decide (1 ≤ max_size c)) as [Hpos|Hnopos].
        -- destruct (put_new_full c k v Hwf Hk) as (oldest & rest & Ho & Hput');
             [lia | done |].
           rewrite Hput' in Hput. inversion Hput; subst c'; clear Hput.
           pose proof (wf_length c Hwf) as Hlen.
           destruct Hwf as [Hnd Hdom]. rewrite Ho in Hnd, Hdom, Hkn, Hsort.
           apply NoDup_cons in Hnd as [Hold Hnd].
           apply not_elem_of_cons in Hkn as [Hko Hkn].
           assert (is_Some (cache c !! oldest)) as [w Hw].
           { apply Hdom. apply elem_of_cons; by left. }
           split_and!; simpl; [done | | |].
           ++ split; simpl.
              ** apply NoDup_app. split_and!; [done | | apply NoDup_singleton].
                 intros j Hj ->%list_elem_of_singleton. done.
              ** intros j. rewrite elem_of_app, list_elem_of_singleton, lookup_insert.
                 destruct (decide (k = j)) as [->|Hkj]; [split; [by eexists | auto]|].
                 rewrite lookup_delete.
                 destruct (decide (oldest = j)) as [->|Hoj].
                 --- split; [intros [?|?]; done | by intros [? ?]].
                 --- rewrite <- Hdom, elem_of_cons. intuition congruence.
           ++ rewrite map_size_insert_None by (rewrite lookup_delete_ne; done).
              rewrite map_size_delete_Some by done.
              assert (size (cache c) ≠ 0%nat) by (rewrite <- Hlen, Ho; done). lia.
           ++ apply by_age_touch; [|done]. by inversion Hsort.
        -- rewrite put_no_capacity in Hput; [done | | done | lia].
           pose proof (wf_length c Hwf) as Hlen.
           destruct (access_order c); [done|]. simpl in Hlen. lia.
Qed.

Lemma inv_init (N : Z) : inv N (init N : HealthDataCache.t V, []).
Proof.
  split_and!; simpl; [done | apply wf_init | rewrite map_size_empty; lia | constructor].
Qed.

Lemma inv_run (N : Z) s ops (s' : HealthDataCache.t V * list string) : inv N s → run s ops = Some s' → inv N s'.
Proof.
  revert s. induction ops as [|o ops IH]; intros s Hinv Hrun; simpl in Hrun.
  - by inversion Hrun; subst.
  - destruct (step s o) as [s1|] eqn:Hstep; [|done].
    eapply IH; [|done]. by eapply inv_step.
Qed.


Lemma step_total (N : Z) s o : inv N s → 1 ≤ N → is_Some (step s o).
Proof.
  destruct s as [c hist]. intros (HN & Hwf & Hsz & Hsort) Hpos.
  simpl in HN, Hwf, Hsz, Hsort.
  destruct o as [k|k v]; simpl.
  - destruct (cache c !! k) as [w|] eqn:Hk.
    + destruct (get_hit c k w Hwf Hk) as (l1 & l2 & _ & ->). by eexists.
    + rewrite get_miss by done. by eexists.
  - destruct (cache c !! k) as [w|] eqn:Hk.
    + destruct (put_present c k v Hwf) as (l1 & l2 & _ & ->); by eexists.
    + destruct (decide (Z.of_nat (size (cache c)) < max_size c)).
      * rewrite put_new_room by done. by eexists.
      * destruct (put_new_full c k v Hwf Hk) as (o & r & _ & ->); [lia..|by eexists].
Qed.

Lemma run_total (N : Z) s ops : inv N s → 1 ≤ N → is_Some (run s ops).
Proof.
  intros Hinv Hpos. revert s Hinv.
  induction ops as [|o ops IH]; intros s Hinv; simpl; [by eexists|].
  destruct (step_total N s o Hinv Hpos) as [s1 Hs1]. rewrite Hs1. simpl.
  apply IH. by eapply inv_step.
Qed.

(** The head of the deque is the cached key whose last touch is oldest. *)
Lemma head_is_lru (N : Z) c hist oldest rest :
  inv N (c, hist) → access_order c = oldest :: rest →
  is_Some (cache c !! oldest) ∧
  ∀ j, is_Some (cache c !! j) → j ≠ oldest → (age j hist < age oldest hist)%nat.
Proof.
  intros (_ & [_ Hdom] & _ & Hsort) Ho. simpl in Hdom, Hsort.
  rewrite Ho in Hdom, Hsort. split.
  - apply Hdom, elem_of_cons. by left.
  - intros j Hj Hne. apply Hdom, elem_of_cons in Hj as [?|Hj]; [done|].
    apply StronglySorted_cons in Hsort as [Hall _].
    rewrite Forall_forall in Hall. by apply Hall.
Qed.

Lemma surv_step (N : Z) k w i s o :
  inv N s → 1 ≤ N → surv k w i s.1 → Z.of_nat i ≤ N - 2 → op_key o ≠ k →
  ∃ s', step s o = Some s' ∧ surv k w (S i) s'.1.
Proof.
  destruct s as [c hist]. intros Hinv Hpos (Hin & Hlen & Hk) Hi Hne.
  destruct Hinv as (HN & Hwf & Hsz & Hsort). simpl in *.
  assert (Hpromote : ∀ l1 l2 j, j ≠ k → access_order c = l1 ++ j :: l2 →
    k ∈ (l1 ++ l2) ++ [j] ∧ (length (behind k ((l1 ++ l2) ++ [j])) ≤ S i)%nat).
  { intros l1 l2 j Hj Ho. rewrite Ho in Hin, Hlen.
    destruct (behind_remove_mid k j l1 l2 Hj Hin) as [Hin' Hlen'].
    split; [apply elem_of_app; by left|].
    rewrite behind_snoc, length_app by done. simpl. lia. }
  destruct o as [j|j v]; simpl in Hne |- *.
  - destruct (cache c !! j) as [u|] eqn:Hj.
    + destruct (get_hit c j u Hwf Hj) as (l1 & l2 & Ho & ->). simpl.
      eexists; split; [done|]. unfold surv; simpl.
      destruct (Hpromote l1 l2 j Hne Ho). by split_and!.
    + rewrite get_miss by done. simpl. eexists; split; [done|]. unfold surv; simpl.
      split_and!; [done | lia | done].
  - destruct (cache c !! j) as [u|] eqn:Hj.
    + destruct (put_present c j v Hwf) as (l1 & l2 & Ho & ->); [by eexists|]. simpl.
      eexists; split; [done|]. unfold surv; simpl.
      destruct (Hpromote l1 l2 j Hne Ho).
      split_and!; [done | done | by rewrite lookup_insert_ne].
    + destruct (decide (Z.of_nat (size (cache c)) < max_size c)) as [Hroom|Hfull].
      * rewrite put_new_room by done. simpl. eexists; split; [done|]. unfold surv; simpl.
        split_and!; [apply elem_of_app; by left | | by rewrite lookup_insert_ne].
        rewrite behind_snoc, length_app by done. simpl. lia.
      * destruct (put_new_full c j v Hwf Hj) as (oldest & rest & Ho & ->); [lia..|].
        simpl. eexists; split; [done|]. unfold surv; simpl.
        pose proof (wf_length c Hwf) as Hlen'. rewrite Ho in Hin, Hlen, Hlen'.
        simpl in Hlen, Hlen'.
        destruct (decide (oldest = k)) as [->|Hok]; [lia|].
        apply elem_of_cons in Hin as [?|Hin]; [congruence|].
        split_and!; [apply elem_of_app; by left | |].
        -- rewrite behind_snoc, length_app by done. simpl. lia.
        -- rewrite lookup_insert_ne, lookup_delete_ne by done. done.
Qed.

Lemma surv_run (N : Z) k w ops : ∀ i s,
  inv N s → 1 ≤ N → surv k w i s.1 →
  Z.of_nat i + Z.of_nat (length ops) ≤ N - 1 →
  Forall (λ o, op_key o ≠ k) ops →
  ∃ s', run s ops = Some s' ∧ cache s'.1 !! k = Some w.
Proof.
  induction ops as [|o ops IH]; intros i s Hinv Hpos Hsurv Hlen Hall; simpl.
  - exists s. split; [done|]. by destruct Hsurv as (_ & _ & ?).
  - apply Forall_cons in Hall as [Hne Hall]. simpl in Hlen.
    destruct (surv_step N k w i s o) as (s1 & Hs1 & Hsurv1); [done | done | done | lia | done |].
    rewrite Hs1. simpl. apply (IH (S i)); [by eapply inv_step | done | done | lia | done].
Qed.



End cache.


End CacheFacts.

(** ** Ordering laws *)

Section order.
Context {A : Type} `{PyTotalOrd A}.

Lemma py_le_refl (a : A) : py_le a a.
Proof. apply py_lt_irrefl. Qed.

Lemma py_lt_asym (a b : A) : py_lt a b = true → py_lt b a = false.
Proof.
  intros Hab. destruct (py_lt b a) eqn:Hba; [|done].
  pose proof (py_lt_trans a b a Hab Hba) as Haa.
  by rewrite py_lt_irrefl in Haa.
Qed.

Lemma py_lt_le (a b : A) : py_lt a b = true → py_le a b.
Proof. apply py_lt_asym. Qed.

Lemma py_le_trans (a b c : A) : py_le a b → py_le b c → py_le a c.
Proof.
  unfold py_le. intros Hba Hcb. destruct (py_lt c a) eqn:Hca; [|done].
  destruct (py_lt a b) eqn:Hab.
  - by rewrite (py_lt_trans c a b Hca Hab) in Hcb.
  - rewrite (py_lt_connex a b Hab Hba) in Hca. congruence.
Qed.

Lemma py_le_antisym (a b : A) : py_le a b → py_le b a → a = b.
Proof. unfold py_le. intros Hba Hab. by apply py_lt_connex. Qed.

Lemma py_le_total (a b : A) : py_le a b ∨ py_le b a.
Proof.
  unfold py_le. destruct (py_lt b a) eqn:Hba; [right; by apply py_lt_asym | by left].
Qed.

#[global] Instance py_le_preorder : PreOrder (py_le (A := A)).
Proof. split; [intros a; apply py_le_refl | intros a b c; apply py_le_trans]. Qed.

#[global] Instance py_le_antisymm : AntiSymm (=) (py_le (A := A)).
Proof. intros a b. apply py_le_antisym. Qed.

End order.

#[global] Instance Z_PyTotalOrd : PyTotalOrd Z.
Proof.
  split; unfold py_lt, Z_PyOrd.
  - intros a. apply Z.ltb_irrefl.
  - intros a b c ?%Z.ltb_lt ?%Z.ltb_lt. apply Z.ltb_lt. lia.
  - intros a b ?%Z.ltb_ge ?%Z.ltb_ge. lia.
Qed.

#[global] Instance prod_PyTotalOrd `{EqDecision A, PyTotalOrd A, PyTotalOrd B} :
  PyTotalOrd (A * B).
Proof.
  split; unfold py_lt, prod_PyOrd.
  - intros [a b]. simpl. case_decide; [apply py_lt_irrefl | done].
  - intros [a1 b1] [a2 b2] [a3 b3]. simpl.
    repeat case_decide; simplify_eq; try done.
    + apply py_lt_trans.
    + intros Ha Hb. pose proof (py_lt_trans _ _ _ Ha Hb) as Hc.
      by rewrite py_lt_irrefl in Hc.
    + apply py_lt_trans.
  - intros [a1 b1] [a2 b2]. simpl.
    repeat case_decide; simplify_eq.
    + intros Hb1 Hb2. f_equal. by apply py_lt_connex.
    + intros Ha1 Ha2. exfalso. eauto using py_lt_connex.
Qed.

#[global] Instance Datetime_PyTotalOrd : PyTotalOrd Datetime.t.
Proof.
  assert (Hinj : ∀ a b, Datetime.fields a = Datetime.fields b → a = b).
  { intros [] []. unfold Datetime.fields. simpl. congruence. }
  split; unfold py_lt, Datetime.lt.
  - intros a. apply py_lt_irrefl.
  - intros a b c. apply py_lt_trans.
  - intros a b Hab Hba. apply Hinj. by apply py_lt_connex.
Qed.

(** ** heapq *)

Module HeapFacts.
Import heapq.

(** Linear arithmetic with the quotients [(i - 1) / 2] of parent positions. *)
Ltac div_lia := zify; Z.to_euclidean_division_equations; lia.

Section list_update.
Context {A : Type}.
Implicit Types (l : list A) (x y : A) (i j : nat).

Lemma insert_Permutation l i x :
  (i < length l)%nat → <[i := x]> l ≡ₚ x :: delete i l.
Proof.
  intros Hi. rewrite insert_take_drop, delete_take_drop by done.
  by rewrite <- Permutation_middle.
Qed.

(** Moving the hole: writing [y = l[j]] at [i] and then [x] at [j] stores
    the same items as writing [x] at [i]. *)
Lemma insert_move_Permutation l i j x y :
  i ≠ j → (i < length l)%nat → l !! j = Some y →
  <[j := x]> (<[i := y]> l) ≡ₚ <[i := x]> l.
Proof.
  intros Hij Hi Hj.
  assert (Hjlen : (j < length l)%nat) by (by eapply lookup_lt_Some).
  rewrite (insert_Permutation (<[i := y]> l) j x) by by rewrite length_insert.
  rewrite (insert_Permutation l i x) by done.
  apply Permutation_skip.
  apply (Permutation_cons_inv (a := y)).
  rewrite <- (insert_Permutation l i y) by done.
  apply symmetry, delete_Permutation.
  rewrite list_lookup_insert_ne by done. done.
Qed.

End list_update.

#[local] Arguments Nat.div : simpl never.
#[local] Arguments Nat.mul : simpl never.

Section heap.
Context {A : Type} `{PyTotalOrd A}.
Implicit Types (heap h : list A) (x y v : A) (i pos : nat).

(** The loops stop on their own test before the iteration bound runs out:
    any bound that covers the remaining path gives the same result. *)
Lemma siftdown_loop_fuel fuel1 : ∀ fuel2 heap startpos pos newitem,
  (pos ≤ fuel1)%nat → (pos ≤ fuel2)%nat →
  _siftdown_loop fuel1 heap startpos pos newitem =
  _siftdown_loop fuel2 heap startpos pos newitem.
Proof.
  induction fuel1 as [|fuel1 IH]; intros fuel2 heap startpos pos newitem H1 H2.
  - assert (pos = 0%nat) as -> by lia. by destruct fuel2.
  - destruct fuel2 as [|fuel2].
    + by assert (pos = 0%nat) as -> by lia.
    + simpl. destruct (decide (startpos < pos)%nat); [|done].
      destruct (heap !! ((pos - 1) / 2)%nat) as [parent|]; [|done]. simpl.
      destruct (py_lt newitem parent); [|done].
      apply IH; div_lia.
Qed.

Lemma siftup_loop_fuel fuel1 : ∀ fuel2 heap endpos pos,
  (endpos - pos ≤ fuel1)%nat → (endpos - pos ≤ fuel2)%nat →
  _siftup_loop fuel1 heap endpos pos = _siftup_loop fuel2 heap endpos pos.
Proof.
  induction fuel1 as [|fuel1 IH]; intros fuel2 heap endpos pos H1 H2.
  - destruct fuel2; [done|]. simpl. by rewrite decide_False by lia.
  - destruct fuel2 as [|fuel2].
    + simpl. by rewrite decide_False by lia.
    + simpl. destruct (decide (2 * pos + 1 < endpos)%nat); [|done].
      destruct (heap !! (2 * pos + 1)%nat) as [left|]; [|done]. simpl.
      destruct (decide (2 * pos + 1 + 1 < endpos)%nat).
      * destruct (heap !! (2 * pos + 1 + 1)%nat) as [right|]; [|done]. simpl.
        destruct (negb (py_lt left right)); simpl.
        -- destruct (heap !! (2 * pos + 1 + 1)%nat) as [child|]; [|done]. simpl.
           apply IH; lia.
        -- destruct (heap !! (2 * pos + 1)%nat) as [child|]; [|done]. simpl.
           apply IH; lia.
      * simpl. destruct (heap !! (2 * pos + 1)%nat) as [child|]; [|done]. simpl.
        apply IH; lia.
Qed.

Lemma heap_ok_nil : heap_ok (@nil A).
Proof. intros i x p _ Hx. by rewrite lookup_nil in Hx. Qed.

(** The root is a least item. *)
Lemma heap_ok_root_min heap m :
  heap_ok heap → heap !! 0%nat = Some m → ∀ i x, heap !! i = Some x → py_le m x.
Proof.
  intros Hok Hm i. induction (lt_wf i) as [i _ IH]. intros x Hx.
  destruct (decide (i = 0%nat)) as [->|Hi].
  - rewrite Hm in Hx. inversion Hx. apply py_le_refl.
  - assert (Hlt : ((i - 1) / 2 < i)%nat) by div_lia.
    destruct (lookup_lt_is_Some_2 heap ((i - 1) / 2)) as [p Hp].
    { apply lookup_lt_Some in Hx. lia. }
    eapply py_le_trans; [by apply (IH _ Hlt p)|].
    apply (Hok i x p); [lia | done | done].
Qed.

(** Dropping the last item keeps the invariant. *)
Lemma heap_ok_removelast heap x : heap_ok (heap ++ [x]) → heap_ok heap.
Proof.
  intros Hok i y p Hi Hy Hp.
  apply (Hok i y p Hi); by apply lookup_app_l_Some.
Qed.

(** Appending an item no smaller than its parent keeps the invariant. *)
Lemma heap_ok_snoc heap v :
  heap_ok heap →
  (∀ p, heap !! ((length heap - 1) / 2)%nat = Some p → py_le p v) →
  heap_ok (heap ++ [v]).
Proof.
  intros Hok Hpar i y p Hi Hy Hp.
  assert (Hi' : (i < length heap ∨ i = length heap)%nat).
  { apply lookup_lt_Some in Hy. rewrite length_app in Hy. simpl in Hy. lia. }
  assert (Hplt : ((i - 1) / 2 < i)%nat) by div_lia.
  rewrite lookup_app_l in Hp by lia.
  destruct Hi' as [Hlt | ->].
  - rewrite lookup_app_l in Hy by done. by apply (Hok i y p).
  - rewrite lookup_app_r, Nat.sub_diag in Hy by done. inversion Hy; subst y.
    by apply Hpar.
Qed.

(** Lowering the item at [pos], but not below its parent, keeps the
    invariant. *)
Lemma heap_ok_lower heap pos v x :
  heap_ok heap → heap !! pos = Some v → py_le x v →
  (0 < pos → ∀ p, heap !! ((pos - 1) / 2)%nat = Some p → py_le p x)%nat →
  heap_ok (<[pos := x]> heap).
Proof.
  intros Hok Hv Hxv Hpar i y p Hi Hy Hp.
  assert (Hplt : ((i - 1) / 2 < i)%nat) by div_lia.
  destruct (decide (i = pos)) as [->|Hipos].
  - rewrite list_lookup_insert_eq in Hy by (by eapply lookup_lt_Some).
    inversion Hy; subst y.
    rewrite list_lookup_insert_ne in Hp by lia. by apply Hpar.
  - rewrite list_lookup_insert_ne in Hy by done.
    destruct (decide ((i - 1) / 2 = pos)%nat) as [Hpp|Hpp].
    + rewrite Hpp, list_lookup_insert_eq in Hp by (by eapply lookup_lt_Some).
      inversion Hp; subst p.
      eapply py_le_trans; [done|]. apply (Hok i y v); [done | done | by rewrite Hpp].
    + rewrite list_lookup_insert_ne in Hp by done. by apply (Hok i y p).
Qed.

(** Raising the item at a leaf keeps the invariant. *)
Lemma heap_ok_raise_leaf heap pos v x :
  heap_ok heap → (length heap ≤ 2 * pos + 1)%nat → heap !! pos = Some v →
  py_le v x → heap_ok (<[pos := x]> heap).
Proof.
  intros Hok Hleaf Hv Hvx i y p Hi Hy Hp.
  assert (Hilen : (i < length heap)%nat).
  { apply lookup_lt_Some in Hy. by rewrite length_insert in Hy. }
  destruct (decide (i = pos)) as [->|Hipos].
  - rewrite list_lookup_insert_eq in Hy by done. inversion Hy; subst y.
    rewrite list_lookup_insert_ne in Hp by div_lia.
    eapply py_le_trans; [|done]. by apply (Hok pos v p).
  - rewrite list_lookup_insert_ne in Hy by done.
    rewrite list_lookup_insert_ne in Hp by div_lia. by apply (Hok i y p).
Qed.

(** Replacing the item at [pos] by its smaller child keeps the invariant. *)
Lemma heap_ok_child_up heap pos v c child :
  heap_ok heap → heap !! pos = Some v → heap !! c = Some child →
  (0 < c)%nat → ((c - 1) / 2 = pos)%nat →
  (∀ i y, (0 < i)%nat → ((i - 1) / 2 = pos)%nat → heap !! i = Some y → py_le child y) →
  heap_ok (<[pos := child]> heap).
Proof.
  intros Hok Hv Hc Hc0 Hcp Hmin i y p Hi Hy Hp.
  assert (Hplt : ((i - 1) / 2 < i)%nat) by div_lia.
  assert (Hvc : py_le v child) by (apply (Hok c child v); [done | done | by rewrite Hcp]).
  destruct (decide (i = pos)) as [->|Hipos].
  - rewrite list_lookup_insert_eq in Hy by (by eapply lookup_lt_Some).
    inversion Hy; subst y.
    rewrite list_lookup_insert_ne in Hp by lia.
    eapply py_le_trans; [|done]. by apply (Hok pos v p).
  - rewrite list_lookup_insert_ne in Hy by done.
    destruct (decide ((i - 1) / 2 = pos)%nat) as [Hpp|Hpp].
    + rewrite Hpp, list_lookup_insert_eq in Hp by (by eapply lookup_lt_Some).
      inversion Hp; subst p. by apply (Hmin i y).
    + rewrite list_lookup_insert_ne in Hp by done. by apply (Hok i y p).
Qed.


(** Filling the hole at [pos] with [newitem] once its parent is no larger. *)
Lemma heap_ok_place heap pos v newitem :
  (pos < length heap)%nat → heap_ok (<[pos := v]> heap) → py_le newitem v →
  (0 < pos → ∀ p, heap !! ((pos - 1) / 2)%nat = Some p → py_le p newitem)%nat →
  heap_ok (<[pos := newitem]> heap).
Proof.
  intros Hpos Hok Hle Hpar.
  rewrite <- (list_insert_insert_eq heap pos newitem v).
  apply (heap_ok_lower _ pos v); [done | by apply list_lookup_insert_eq | done |].
  intros Hp p Hlk. rewrite list_lookup_insert_ne in Hlk by div_lia. by apply Hpar.
Qed.

Lemma siftdown_loop_ok fuel : ∀ heap pos newitem v,
  (pos ≤ fuel)%nat → (pos < length heap)%nat →
  heap_ok (<[pos := v]> heap) → py_le newitem v →
  ∃ heap', _siftdown_loop fuel heap 0 pos newitem = Some heap' ∧
    heap_ok heap' ∧ heap' ≡ₚ <[pos := newitem]> heap.
Proof.
  induction fuel as [|fuel IH]; intros heap pos newitem v Hfuel Hpos Hok Hle; simpl.
  - eexists; split; [done|]. split; [|done].
    apply (heap_ok_place heap pos v); [done | done | done | lia].
  - destruct (decide (0 < pos)%nat) as [Hp|Hp]; cycle 1.
    { eexists; split; [done|]. split; [|done].
      apply (heap_ok_place heap pos v); [done | done | done | lia]. }
    assert (Hplt : ((pos - 1) / 2 < pos)%nat) by div_lia.
    destruct (lookup_lt_is_Some_2 heap ((pos - 1) / 2)) as [parent Hpar]; [lia|].
    rewrite Hpar. simpl.
    assert (Hpv : py_le parent v).
    { apply (Hok pos v parent); [done | by apply list_lookup_insert_eq |].
      by rewrite list_lookup_insert_ne by lia. }
    destruct (py_lt newitem parent) eqn:Hlt.
    + destruct (IH (<[pos := parent]> heap) ((pos - 1) / 2)%nat newitem parent)
        as (heap' & Hrun & Hok' & Hperm).
      * lia.
      * rewrite length_insert. lia.
      * rewrite list_insert_id by (by rewrite list_lookup_insert_ne by lia).
        apply (heap_ok_place heap pos v); [done | done | done |].
        intros _ p Hlk. rewrite Hpar in Hlk. inversion Hlk. apply py_le_refl.
      * by apply py_lt_le.
      * exists heap'. split; [done|]. split; [done|].
        rewrite Hperm. apply insert_move_Permutation; [lia | done | done].
    + eexists; split; [done|]. split; [|done].
      apply (heap_ok_place heap pos v); [done | done | done |].
      intros _ p Hlk. rewrite Hpar in Hlk. by inversion Hlk; subst p.
Qed.

Lemma siftup_loop_ok fuel : ∀ heap endpos pos v,
  endpos = length heap → (pos < endpos)%nat → (endpos - pos ≤ fuel)%nat →
  heap_ok (<[pos := v]> heap) →
  ∃ heap' pos' v', _siftup_loop fuel heap endpos pos = Some (heap', pos') ∧
    length heap' = endpos ∧ (pos' < endpos)%nat ∧ (endpos ≤ 2 * pos' + 1)%nat ∧
    heap_ok (<[pos' := v']> heap') ∧
    ∀ x, <[pos' := x]> heap' ≡ₚ <[pos := x]> heap.
Proof.
  induction fuel as [|fuel IH]; intros heap endpos pos v Hend Hpos Hfuel Hok; [lia|].
  simpl.
  destruct (decide (2 * pos + 1 < endpos)%nat) as [Hchild|Hleaf]; cycle 1.
  { exists heap, pos, v. split_and!; [done | done | done | lia | done | done]. }
  destruct (lookup_lt_is_Some_2 heap (2 * pos + 1)) as [left Hleft]; [lia|].
  rewrite Hleft. simpl.
  (* the chosen child [c] is a smallest child of [pos] *)
  assert (∃ c child,
    (if decide (2 * pos + 1 + 1 < endpos)%nat
     then right ← heap !! (2 * pos + 1 + 1)%nat;
          Some (if negb (py_lt left right) then (2 * pos + 1 + 1)%nat
                else (2 * pos + 1)%nat)
     else Some (2 * pos + 1)%nat) = Some c ∧
    (c = 2 * pos + 1 ∨ c = 2 * pos + 2)%nat ∧ heap !! c = Some child ∧
    ∀ i y, (0 < i)%nat → ((i - 1) / 2 = pos)%nat → heap !! i = Some y → py_le child y)
    as (c & child & -> & Hc & Hcl & Hmin).
  { destruct (decide (2 * pos + 1 + 1 < endpos)%nat) as [Hr|Hr].
    - destruct (lookup_lt_is_Some_2 heap (2 * pos + 1 + 1)) as [right Hright]; [lia|].
      rewrite Hright. simpl. destruct (py_lt left right) eqn:Hlr; simpl.
      + exists (2 * pos + 1)%nat, left. split_and!; [done | lia | done |].
        intros i y Hi Hip Hy.
        assert (i = 2 * pos + 1 ∨ i = 2 * pos + 1 + 1)%nat as [-> | ->] by div_lia.
        * rewrite Hleft in Hy. inversion Hy. apply py_le_refl.
        * rewrite Hright in Hy. inversion Hy; subst y. by apply py_lt_le.
      + exists (2 * pos + 1 + 1)%nat, right. split_and!; [done | lia | done |].
        intros i y Hi Hip Hy.
        assert (i = 2 * pos + 1 ∨ i = 2 * pos + 1 + 1)%nat as [-> | ->] by div_lia.
        * rewrite Hleft in Hy. by inversion Hy; subst y.
        * rewrite Hright in Hy. inversion Hy. apply py_le_refl.
    - exists (2 * pos + 1)%nat, left. split_and!; [done | lia | done |].
      intros i y Hi Hip Hy.
      assert (i < length heap)%nat by (by eapply lookup_lt_Some).
      assert (i = 2 * pos + 1)%nat as -> by div_lia.
      rewrite Hleft in Hy. inversion Hy. apply py_le_refl. }
  simpl. rewrite Hcl. simpl.
  assert (Hcpos : c ≠ pos) by lia.
  destruct (IH (<[pos := child]> heap) endpos c child)
    as (heap' & pos' & v' & Hrun & Hlen & Hpos' & Hleaf' & Hok' & Hperm).
  - by rewrite length_insert.
  - apply lookup_lt_Some in Hcl. lia.
  - lia.
  - rewrite list_insert_id by (by rewrite list_lookup_insert_ne by lia).
    rewrite <- (list_insert_insert_eq heap pos child v).
    apply (heap_ok_child_up _ pos v c child); [done | | | lia | div_lia |].
    + apply list_lookup_insert_eq. lia.
    + by rewrite list_lookup_insert_ne by lia.
    + intros i y Hi Hip Hy. rewrite list_lookup_insert_ne in Hy by div_lia.
      by apply (Hmin i y).
  - exists heap', pos', v'. split_and!; [done | done | done | done | done |].
    intros x. rewrite Hperm. apply insert_move_Permutation; [lia | lia | done].
Qed.


Lemma heappush_ok heap x :
  heap_ok heap →
  ∃ heap', heappush heap x = Some heap' ∧ heap_ok heap' ∧ heap' ≡ₚ x :: heap.
Proof.
  intros Hok. unfold heappush, _siftdown.
  rewrite length_app. simpl.
  replace (length heap + 1 - 1)%nat with (length heap) by lia.
  rewrite lookup_app_r, Nat.sub_diag by done. simpl.
  set (v := match heap !! ((length heap - 1) / 2)%nat with
            | Some p => if py_lt x p then p else x
            | None => x
            end).
  assert (Hins : ∀ y, <[length heap := y]> (heap ++ [x]) = heap ++ [y]).
  { intros y. by rewrite <- (Nat.add_0_r (length heap)), insert_app_r. }
  destruct (siftdown_loop_ok (length heap) (heap ++ [x]) (length heap) x v)
    as (heap' & Hrun & Hok' & Hperm).
  - done.
  - rewrite length_app. simpl. lia.
  - rewrite Hins. apply heap_ok_snoc; [done|].
    intros p Hp. unfold v. rewrite Hp.
    destruct (py_lt x p) eqn:Hxp; [apply py_le_refl | done].
  - unfold v. destruct (heap !! _) as [p|]; [|apply py_le_refl].
    destruct (py_lt x p) eqn:Hxp; [by apply py_lt_le | apply py_le_refl].
  - exists heap'. split; [done|]. split; [done|].
    rewrite Hperm, Hins. symmetry. apply Permutation_cons_append.
Qed.

Lemma heappop_nil : heappop (@nil A) = None.
Proof. reflexivity. Qed.

(** [_siftup] at the root repairs a heap whose root was overwritten. *)
Lemma siftup_root_ok heap r :
  (0 < length heap)%nat → heap_ok (<[0%nat := r]> heap) →
  ∃ heap', _siftup heap 0 = Some heap' ∧ heap_ok heap' ∧ heap' ≡ₚ heap.
Proof.
  intros Hlen Hok. unfold _siftup.
  destruct (lookup_lt_is_Some_2 heap 0 Hlen) as [newitem Hnew]. rewrite Hnew. simpl.
  destruct (siftup_loop_ok (length heap) heap (length heap) 0%nat r)
    as (heap1 & pos & v & Hrun & Hlen1 & Hpos & Hleaf & Hok1 & Hperm1);
    [done | lia | lia | done |].
  rewrite Hrun. simpl. unfold _siftdown.
  rewrite list_lookup_insert_eq by lia. simpl.
  set (v' := if py_lt v newitem then newitem else v).
  destruct (siftdown_loop_ok pos (<[pos := newitem]> heap1) pos newitem v')
    as (heap2 & Hrun2 & Hok2 & Hperm2).
  - done.
  - rewrite length_insert. lia.
  - rewrite list_insert_insert_eq. unfold v'.
    destruct (py_lt v newitem) eqn:Hvl; [|done].
    rewrite <- (list_insert_insert_eq heap1 pos newitem v).
    apply (heap_ok_raise_leaf _ pos v);
      [done | rewrite length_insert; lia | apply list_lookup_insert_eq; lia |].
    by apply py_lt_le.
  - unfold v'. destruct (py_lt v newitem) eqn:Hvl; [apply py_le_refl | done].
  - exists heap2. split; [done|]. split; [done|].
    by rewrite Hperm2, list_insert_insert_eq, Hperm1, list_insert_id.
Qed.

Lemma heappop_ok heap :
  heap_ok heap → heap ≠ [] →
  ∃ m heap', heappop heap = Some (m, heap') ∧ heap !! 0%nat = Some m ∧
    heap_ok heap' ∧ heap ≡ₚ m :: heap'.
Proof.
  intros Hok Hne.
  destruct (proj2 (last_is_Some heap) Hne) as [lastelt Hlast].
  apply last_Some in Hlast as [front ->].
  unfold heappop, list_pop. rewrite last_snoc, removelast_last. simpl.
  destruct front as [|returnitem rest].
  { exists lastelt, []. split_and!; [done | done | apply heap_ok_nil | done]. }
  destruct (siftup_root_ok (<[0%nat := lastelt]> (returnitem :: rest)) returnitem)
    as (heap' & Hrun & Hok' & Hperm).
  - simpl. lia.
  - simpl. by apply heap_ok_removelast in Hok.
  - rewrite Hrun. simpl. exists returnitem, heap'.
    split_and!; [done | done | done |].
    rewrite Hperm. simpl. apply Permutation_skip.
    symmetry. apply Permutation_cons_append.
Qed.


Lemma insert_asc_Permutation x (l : list A) : insert_asc x l ≡ₚ x :: l.
Proof.
  induction l as [|y l IH]; simpl; [done|].
  destruct (py_lt y x); [|done]. rewrite IH. apply perm_swap.
Qed.

Lemma sort_asc_Permutation (l : list A) : sort_asc l ≡ₚ l.
Proof.
  induction l as [|x l IH]; simpl; [done|].
  by rewrite insert_asc_Permutation, IH.
Qed.

Lemma insert_asc_sorted x (l : list A) :
  StronglySorted py_le l → StronglySorted py_le (insert_asc x l).
Proof.
  induction 1 as [|y l Hs IH Hall]; simpl; [repeat constructor|].
  destruct (py_lt y x) eqn:Hyx.
  - constructor; [done|]. rewrite insert_asc_Permutation.
    constructor; [by apply py_lt_le | done].
  - constructor; [by constructor|]. constructor; [done|].
    eapply Forall_impl; [done|]. intros z Hz. by eapply py_le_trans.
Qed.

Lemma sort_asc_sorted (l : list A) : StronglySorted py_le (sort_asc l).
Proof.
  induction l as [|x l IH]; simpl; [constructor | by apply insert_asc_sorted].
Qed.

(** The sorted order is a function of the items, not of their layout. *)
Lemma sort_asc_proper (l1 l2 : list A) : l1 ≡ₚ l2 → sort_asc l1 = sort_asc l2.
Proof.
  intros Hperm. apply (StronglySorted_unique py_le); [apply sort_asc_sorted..|].
  by rewrite !sort_asc_Permutation.
Qed.

Lemma sort_asc_min m (l : list A) :
  Forall (py_le m) l → sort_asc (m :: l) = m :: sort_asc l.
Proof.
  intros Hall. simpl.
  assert (Hall' : Forall (py_le m) (sort_asc l)) by by rewrite sort_asc_Permutation.
  destruct (sort_asc l) as [|y l']; [done|]. simpl.
  apply Forall_cons in Hall' as [Hy _]. unfold py_le in Hy. by rewrite Hy.
Qed.

Lemma heappop_n_ok n : ∀ heap,
  heap_ok heap → (n ≤ length heap)%nat →
  ∃ heap', heappop_n n heap = Some (take n (sort_asc heap), heap') ∧
    heap_ok heap' ∧ heap ≡ₚ take n (sort_asc heap) ++ heap'.
Proof.
  induction n as [|n IH]; intros heap Hok Hlen; simpl.
  { exists heap. by rewrite take_0. }
  destruct (heappop_ok heap Hok) as (m & heap1 & Hpop & Hroot & Hok1 & Hperm).
  { intros ->. simpl in Hlen. lia. }
  rewrite Hpop. simpl.
  assert (Hmin : Forall (py_le m) heap1).
  { apply Forall_forall. intros x Hx.
    assert (Hin : x ∈ heap) by (rewrite Hperm; apply elem_of_cons; by right).
    apply list_elem_of_lookup in Hin as [i Hi].
    by apply (heap_ok_root_min heap m Hok Hroot i). }
  destruct (IH heap1 Hok1) as (heap' & Hrun & Hok' & Hperm').
  { apply Permutation_length in Hperm. simpl in Hperm. lia. }
  rewrite Hrun. simpl.
  rewrite (sort_asc_proper heap (m :: heap1) Hperm), sort_asc_min by done.
  simpl. exists heap'. split_and!; [done | done |].
  by rewrite Hperm, Hperm' at 1.
Qed.

End heap.
End HeapFacts.

(** ** datetime arithmetic *)

Module DatetimeFacts.
Import Datetime.

Ltac zdiv_lia := Z.to_euclidean_division_equations; lia.

Lemma prod_lt_iff {A B} `{EqDecision A, PyTotalOrd A, PyOrd B} (a1 a2 : A) (b1 b2 : B) :
  py_lt (a1, b1) (a2, b2) = true ↔
  py_lt a1 a2 = true ∨ (a1 = a2 ∧ py_lt b1 b2 = true).
Proof.
  unfold py_lt at 1, prod_PyOrd. simpl. case_decide as Heq.
  - subst. rewrite py_lt_irrefl. intuition discriminate.
  - intuition congruence.
Qed.

Lemma lt_cases (a b : t) :
  py_lt a b = true →
  year a < year b ∨ year a = year b ∧
  (month a < month b ∨ month a = month b ∧
  (day a < day b ∨ day a = day b ∧
  (hour a < hour b ∨ hour a = hour b ∧
  (minute a < minute b ∨ minute a = minute b ∧
  (second a < second b ∨ second a = second b ∧
   microsecond a < microsecond b))))).
Proof.
  unfold py_lt, lt, fields. rewrite !prod_lt_iff.
  unfold py_lt, Z_PyOrd. rewrite !Z.ltb_lt.
  intros Hlt. repeat (destruct Hlt as [Hlt | [Heq Hlt]]; simplify_eq); lia.
Qed.

Lemma days_before_year_succ (y : Z) :
  _days_before_year (y + 1) =
  _days_before_year y + 365 + (if _is_leap y then 1 else 0).
Proof.
  unfold _days_before_year, _is_leap.
  replace (y + 1 - 1) with y by lia.
  destruct (Z.eqb_spec (y mod 4) 0), (Z.eqb_spec (y mod 100) 0),
    (Z.eqb_spec (y mod 400) 0); simpl; zdiv_lia.
Qed.

Lemma days_before_year_mono (y1 y2 : Z) :
  y1 ≤ y2 → _days_before_year y1 ≤ _days_before_year y2.
Proof. unfold _days_before_year. intros. zdiv_lia. Qed.


Ltac month_cases m :=
  let H := fresh in
  assert (m = 1 ∨ m = 2 ∨ m = 3 ∨ m = 4 ∨ m = 5 ∨ m = 6 ∨
          m = 7 ∨ m = 8 ∨ m = 9 ∨ m = 10 ∨ m = 11 ∨ m = 12) as H by lia;
  repeat (destruct H as [-> | H]); [..|subst m].

Lemma day_of_year_bounds (y m d : Z) :
  1 ≤ m ≤ 12 → 1 ≤ d ≤ _days_in_month y m →
  1 ≤ _days_before_month y m + d ≤ 365 + (if _is_leap y then 1 else 0).
Proof.
  intros Hm. unfold _days_in_month, _days_before_month.
  month_cases m; destruct (_is_leap y); simpl; lia.
Qed.

Lemma day_of_year_mono (y m1 m2 d1 d2 : Z) :
  1 ≤ m1 → m1 < m2 → m2 ≤ 12 → d1 ≤ _days_in_month y m1 → 1 ≤ d2 →
  _days_before_month y m1 + d1 < _days_before_month y m2 + d2.
Proof.
  intros H1 H12 H2. unfold _days_in_month, _days_before_month.
  month_cases m1; month_cases m2; try lia; destruct (_is_leap y); simpl; lia.
Qed.

(** The ordinal of a valid date grows with (year, month, day). *)
Lemma toordinal_lt (a b : t) :
  valid a → valid b →
  year a < year b ∨ year a = year b ∧
    (month a < month b ∨ month a = month b ∧ day a < day b) →
  toordinal a < toordinal b.
Proof.
  intros (_ & Hma & Hda & _) (_ & Hmb & Hdb & _) Hlt.
  unfold toordinal, _ymd2ord.
  pose proof (day_of_year_bounds (year a) (month a) (day a) Hma Hda) as Ha.
  pose proof (day_of_year_bounds (year b) (month b) (day b) Hmb Hdb) as Hb.
  destruct Hlt as [Hy | [Hy [Hm | [Hm Hd]]]].
  - pose proof (days_before_year_succ (year a)) as Hs.
    pose proof (days_before_year_mono (year a + 1) (year b)). lia.
  - rewrite Hy in *.
    pose proof (day_of_year_mono (year b) (month a) (month b) (day a) (day b)). lia.
  - rewrite Hy, Hm. lia.
Qed.

(** A follow-up date before [now] is a negative number of days away. *)
Lemma sub_days_negative (a b : t) :
  valid a → valid b → py_lt a b = true → sub_days a b < 0.
Proof.
  intros Ha Hb Hlt%lt_cases. unfold sub_days.
  assert (Hord : (year a < year b ∨ year a = year b ∧
            (month a < month b ∨ month a = month b ∧ day a < day b)) ∨
          toordinal a = toordinal b ∧ year a = year b ∧ month a = month b ∧ day a = day b).
  { unfold toordinal. destruct Hlt as [?|[Hy [?|[Hm [?|[Hd _]]]]]];
      [left; lia | left; lia | left; lia | right; by rewrite Hy, Hm, Hd]. }
  destruct Hord as [Hdate | (Hord & Hy & Hm & Hd)].
  - pose proof (toordinal_lt a b Ha Hb Hdate).
    destruct Ha as (_ & _ & _ & ? & ? & ? & ?), Hb as (_ & _ & _ & ? & ? & ? & ?).
    zdiv_lia.
  - rewrite Hord.
    destruct Ha as (_ & _ & _ & ? & ? & ? & ?), Hb as (_ & _ & _ & ? & ? & ? & ?).
    zdiv_lia.
Qed.

(** A follow-up date not before [now] is a non-negative number of days
    away. *)
Lemma sub_days_nonneg (a b : t) :
  valid a → valid b → py_lt a b = false → 0 ≤ sub_days a b.
Proof.
  intros Ha Hb Hnlt.
  destruct (py_lt b a) eqn:Hba.
  - apply lt_cases in Hba. unfold sub_days.
    assert (Hord : (year b < year a ∨ year b = year a ∧
              (month b < month a ∨ month b = month a ∧ day b < day a)) ∨
            toordinal a = toordinal b ∧ year a = year b ∧ month a = month b ∧ day a = day b).
    { unfold toordinal. destruct Hba as [?|[Hy [?|[Hm [?|[Hd _]]]]]];
        [left; lia | left; lia | left; lia | right; by rewrite Hy, Hm, Hd]. }
    destruct Hord as [Hdate | (Hord & Hy & Hm & Hd)].
    + pose proof (toordinal_lt b a Hb Ha Hdate).
      destruct Ha as (_ & _ & _ & ? & ? & ? & ?), Hb as (_ & _ & _ & ? & ? & ? & ?).
      zdiv_lia.
    + rewrite Hord.
      destruct Ha as (_ & _ & _ & ? & ? & ? & ?), Hb as (_ & _ & _ & ? & ? & ? & ?).
      zdiv_lia.
  - rewrite (py_lt_connex a b Hnlt Hba). unfold sub_days. zdiv_lia.
Qed.

End DatetimeFacts.

(** ** The treatment queue *)

Module QueueFacts.
Import heapq HeapFacts TreatmentPriorityQueue QueueSpec.

Implicit Types (q : TreatmentPriorityQueue.t) (heap items : list entry).

Lemma add_treatment_ok now1 now2 q treatment_id follow_up_date severity :
  queue_ok q →
  ∃ q', add_treatment now1 now2 q treatment_id follow_up_date severity = Some q' ∧
    queue_ok q' ∧
    urgent_treatments q' ≡ₚ
      (_calculate_priority now1 follow_up_date severity, follow_up_date, treatment_id)
        :: urgent_treatments q ∧
    overdue_treatments q' =
      if py_lt follow_up_date now2
      then {[treatment_id]} ∪ overdue_treatments q else overdue_treatments q.
Proof.
  intros Hok. unfold add_treatment.
  destruct (heappush_ok (urgent_treatments q)
              (_calculate_priority now1 follow_up_date severity, follow_up_date, treatment_id)
              Hok) as (heap' & -> & Hok' & Hperm).
  simpl. eexists. split; [done|]. by split_and!.
Qed.

Lemma pop_loop_heappop_n n : ∀ heap items heap' urgent temp_heap,
  heappop_n n heap = Some (items, heap') →
  pop_loop n heap urgent temp_heap =
    Some (heap', urgent ++ (snd <$> items), temp_heap ++ items).
Proof.
  induction n as [|n IH]; intros heap items heap' urgent temp_heap Hpop; simpl in *.
  - inversion Hpop; subst. by rewrite !app_nil_r.
  - destruct heap as [|e heap0]; [done|].
    destruct (heappop (e :: heap0)) as [[item heap1]|]; [|done]. simpl in *.
    destruct (heappop_n n heap1) as [[items1 heap2]|] eqn:Hn; [|done]. simpl in Hpop.
    inversion Hpop; subst. destruct item as [[priority date] treatment_id].
    rewrite (IH heap1 items1 heap' _ _ Hn). simpl.
    by rewrite <- !(assoc_L (++)).
Qed.

Lemma restore_loop_ok items : ∀ heap,
  heap_ok heap →
  ∃ heap', restore_loop items heap = Some heap' ∧ heap_ok heap' ∧
    heap' ≡ₚ items ++ heap.
Proof.
  induction items as [|item items IH]; intros heap Hok; simpl.
  - by exists heap.
  - destruct (heappush_ok heap item Hok) as (heap1 & -> & Hok1 & Hperm1). simpl.
    destruct (IH heap1 Hok1) as (heap' & -> & Hok' & Hperm').
    exists heap'. split_and!; [done | done |].
    rewrite Hperm', Hperm1. by rewrite Permutation_middle.
Qed.

Lemma take_min_length {A} (count : Z) (l : list A) :
  take (Z.to_nat (count `min` Z.of_nat (length l))) l = take (Z.to_nat count) l.
Proof.
  destruct (decide (count ≤ Z.of_nat (length l))).
  - by rewrite Z.min_l.
  - rewrite Z.min_r, Nat2Z.id by lia. by rewrite !take_ge by lia.
Qed.

(** [get_next_urgent_treatments] returns the ids of the first [count]
    entries of the sorted queue and puts every entry back. *)
Lemma get_next_urgent_treatments_ok q count :
  queue_ok q →
  ∃ q', get_next_urgent_treatments q count =
          Some (snd <$> take (Z.to_nat count) (sort_asc (urgent_treatments q)), q') ∧
    queue_ok q' ∧
    urgent_treatments q' ≡ₚ urgent_treatments q ∧
    overdue_treatments q' = overdue_treatments q.
Proof.
  intros Hok. unfold get_next_urgent_treatments.
  set (n := Z.to_nat (count `min` Z.of_nat (length (urgent_treatments q)))).
  destruct (heappop_n_ok n (urgent_treatments q) Hok) as (heap1 & Hpop & Hok1 & Hperm1);
    [unfold n; lia|].
  rewrite (pop_loop_heappop_n n _ _ _ [] [] Hpop). simpl.
  destruct (restore_loop_ok (take n (sort_asc (urgent_treatments q))) heap1 Hok1)
    as (heap2 & -> & Hok2 & Hperm2).
  simpl. exists (mk heap2 (overdue_treatments q)).
  split_and!; [|done | simpl; by rewrite Hperm2, <- Hperm1 | done].
  do 3 f_equal. unfold n.
  rewrite <- (take_min_length count (sort_asc (urgent_treatments q))).
  by rewrite (Permutation_length (sort_asc_Permutation (urgent_treatments q))).
Qed.

Lemma queue_ok_init : queue_ok init.
Proof. apply heap_ok_nil. Qed.

Lemma step_ok q c : queue_ok q → ∃ q', step q c = Some q' ∧ queue_ok q'.
Proof.
  intros Hok. destruct c as [now1 now2 tid date sev | count]; simpl.
  - destruct (add_treatment_ok now1 now2 q tid date sev Hok) as (q' & -> & Hok' & _).
    by exists q'.
  - destruct (get_next_urgent_treatments_ok q count Hok) as (q' & -> & Hok' & _).
    by exists q'.
Qed.

Lemma run_ok calls : ∀ q, queue_ok q → ∃ q', run q calls = Some q' ∧ queue_ok q'.
Proof.
  induction calls as [|c calls IH]; intros q Hok; simpl; [by exists q|].
  destruct (step_ok q c Hok) as (q1 & -> & Hok1). simpl. by apply IH.
Qed.

(** C3. In every queue state reached from the empty queue by
    [add_treatment] and [get_next_urgent_treatments] calls, and for every
    [count], [get_next_urgent_treatments] returns, leaves in the heap a
    rearrangement of exactly the entries it held before, leaves the
    overdue set alone, and gives the same ids again when repeated at
    once. *)
Theorem get_next_urgent_treatments_nondestructive (calls : list call) :
  ∃ q, run init calls = Some q ∧
    ∀ count, ∃ ids q1 q2,
      get_next_urgent_treatments q count = Some (ids, q1) ∧
      urgent_treatments q1 ≡ₚ urgent_treatments q ∧
      overdue_treatments q1 = overdue_treatments q ∧
      get_next_urgent_treatments q1 count = Some (ids, q2).
Proof.
  destruct (run_ok calls init queue_ok_init) as (q & Hrun & Hok).
  exists q. split; [done|]. intros count.
  destruct (get_next_urgent_treatments_ok q count Hok) as (q1 & Hget1 & Hok1 & Hperm1 & Hov1).
  destruct (get_next_urgent_treatments_ok q1 count Hok1) as (q2 & Hget2 & _).
  eexists _, q1, q2. split_and!; [done | done | done |].
  by rewrite Hget2, (sort_asc_proper _ _ Hperm1).
Qed.


Lemma step_overdue q c q' :
  step q c = Some q' →
  overdue_treatments q' =
    match c with
    | AddTreatment _ now2 treatment_id follow_up_date _ =>
        if py_lt follow_up_date now2
        then {[treatment_id]} ∪ overdue_treatments q else overdue_treatments q
    | NextUrgent _ => overdue_treatments q
    end.
Proof.
  destruct c as [now1 now2 tid date sev | count]; simpl.
  - unfold add_treatment. destruct (heappush _ _); [|done]. simpl.
    by intros [= <-].
  - unfold get_next_urgent_treatments.
    destruct (pop_loop _ _ _ _) as [[[heap urgent] temp]|]; [|done]. simpl.
    destruct (restore_loop _ _); [|done]. simpl. by intros [= <-].
Qed.

Lemma run_overdue calls : ∀ q q',
  run q calls = Some q' →
  ∀ treatment_id, treatment_id ∈ overdue_treatments q' ↔
    treatment_id ∈ overdue_treatments q ∨
    ∃ now1 now2 follow_up_date severity,
      AddTreatment now1 now2 treatment_id follow_up_date severity ∈ calls ∧
      py_lt follow_up_date now2 = true.
Proof.
  induction calls as [|c calls IH]; intros q q' Hrun tid; simpl in Hrun.
  - inversion Hrun; subst. split; [by left|].
    intros [?|(? & ? & ? & ? & Hin & _)]; [done | by apply elem_of_nil in Hin].
  - destruct (step q c) as [q1|] eqn:Hstep; [|done]. simpl in Hrun.
    rewrite (IH q1 q' Hrun tid), (step_overdue q c q1 Hstep).
    split.
    + intros [Hin | (n1 & n2 & d & s & Hin & Hlt)].
      * destruct c as [now1 now2 tid' date sev | count]; [|by left].
        destruct (py_lt date now2) eqn:Hlt; [|by left].
        apply elem_of_union in Hin as [->%elem_of_singleton | Hin]; [|by left].
        right. exists now1, now2, date, sev. split; [apply elem_of_cons; by left | done].
      * right. exists n1, n2, d, s. split; [apply elem_of_cons; by right | done].
    + intros [Hin | (n1 & n2 & d & s & Hin & Hlt)].
      * left. destruct c as [now1 now2 tid' date sev | count]; [|done].
        destruct (py_lt date now2); [|done]. apply elem_of_union. by right.
      * apply elem_of_cons in Hin as [<- | Hin].
        -- left. rewrite Hlt. apply elem_of_union. left. by apply elem_of_singleton.
        -- right. by exists n1, n2, d, s.
Qed.

(** C5. After any sequence of calls on an initially empty queue, the
    overdue set holds exactly the ids passed to an [add_treatment] call
    whose follow-up date was before the clock reading of that call's
    check. Nothing else adds to the set: a treatment only ever added with
    dates not yet passed is absent, whatever the clock reads in later
    calls. *)
Theorem overdue_decided_at_insert (calls : list call) :
  ∃ q, run init calls = Some q ∧
    (∀ treatment_id, treatment_id ∈ get_overdue_treatments q ↔
       ∃ now1 now2 follow_up_date severity,
         AddTreatment now1 now2 treatment_id follow_up_date severity ∈ calls ∧
         py_lt follow_up_date now2 = true) ∧
    (∀ treatment_id,
       (∀ now1 now2 follow_up_date severity,
          AddTreatment now1 now2 treatment_id follow_up_date severity ∈ calls →
          py_lt follow_up_date now2 = false) →
       treatment_id ∉ get_overdue_treatments q).
Proof.
  destruct (run_ok calls init queue_ok_init) as (q & Hrun & _).
  exists q. split; [done|].
  assert (Hiff : ∀ treatment_id, treatment_id ∈ get_overdue_treatments q ↔
       ∃ now1 now2 follow_up_date severity,
         AddTreatment now1 now2 treatment_id follow_up_date severity ∈ calls ∧
         py_lt follow_up_date now2 = true).
  { intros tid. unfold get_overdue_treatments.
    rewrite (run_overdue calls init q Hrun tid). simpl.
    split; [intros [Hin|?]; [by apply not_elem_of_empty in Hin | done] | by right]. }
  split; [done|].
  intros tid Hfuture (n1 & n2 & d & s & Hin & Hlt)%Hiff.
  by rewrite (Hfuture n1 n2 d s Hin) in Hlt.
Qed.

Lemma run_add_all now adds : ∀ q,
  queue_ok q →
  ∃ q', run q (add_all now adds) = Some q' ∧ queue_ok q' ∧
    urgent_treatments q' ≡ₚ (entry_of now <$> adds) ++ urgent_treatments q.
Proof.
  induction adds as [|a adds IH]; intros q Hok; simpl.
  - by exists q.
  - destruct (add_treatment_ok now now q a.1.1 a.1.2 a.2 Hok)
      as (q1 & -> & Hok1 & Hperm1 & _). simpl.
    destruct (IH q1 Hok1) as (q' & Hrun & Hok' & Hperm').
    exists q'. split_and!; [done | done |].
    rewrite Hperm', Hperm1. unfold entry_of at 3. by rewrite Permutation_middle.
Qed.

Lemma entry_lt_iff (e1 e2 : entry) :
  py_lt e1 e2 = true ↔
  e1.1.1 < e2.1.1 ∨ e1.1.1 = e2.1.1 ∧
    (py_lt e1.1.2 e2.1.2 = true ∨ e1.1.2 = e2.1.2 ∧ e1.2 < e2.2).
Proof.
  destruct e1 as [[p1 d1] t1], e2 as [[p2 d2] t2]. cbn [fst snd].
  rewrite (DatetimeFacts.prod_lt_iff (p1, d1) (p2, d2) t1 t2).
  rewrite (DatetimeFacts.prod_lt_iff p1 p2 d1 d2). unfold py_lt at 1 3, Z_PyOrd.
  rewrite !Z.ltb_lt. split.
  - intros [[?|[-> ?]]|[[= -> ->] ?]]; auto.
  - intros [?|[-> [?|[-> ?]]]]; auto.
Qed.


(** The pair of the specification: CRITICAL due in 5 days, MILD due in 1. *)
Lemma next_urgent_example :
  let now0 := Datetime.date 2024 7 1 in
  let critical := (1, Datetime.date 2024 7 6, CRITICAL) in
  let mild := (2, Datetime.date 2024 7 2, MILD) in
  (entry_of now0 critical).1.1 = 5 ∧ (entry_of now0 mild).1.1 = 21 ∧
  ∃ q q', run init (add_all now0 [mild; critical]) = Some q ∧
    get_next_urgent_treatments q 1 = Some ([1], q').
Proof.
  split_and!; [reflexivity | reflexivity |].
  eexists _, _. split; vm_compute; reflexivity.
Qed.

(** C4. With the clock held at [now], the queue built from any list of
    treatments holds one entry per treatment, with priority
    [(follow_up_date - now).days] plus 0 for CRITICAL, 10 for MODERATE
    and 20 for MILD (a negative day count when the date is already past);
    [get_next_urgent_treatments count] returns the ids of the first
    [count] entries in increasing lexicographic order of
    (priority, follow_up_date, treatment_id). On the pair of the
    specification, a CRITICAL treatment due in 5 days (priority 5) comes
    out before a MILD one due in 1 day (priority 21). *)
Theorem next_urgent_order (now : Datetime.t) (adds : list (Z * Datetime.t * Severity)) :
  let entries := entry_of now <$> adds in
  (∃ q, run init (add_all now adds) = Some q ∧
     urgent_treatments q ≡ₚ entries ∧
     ∀ count, ∃ q',
       get_next_urgent_treatments q count =
         Some (snd <$> take (Z.to_nat count) (sort_asc entries), q')) ∧
  (∀ treatment_id follow_up_date severity,
     entry_of now (treatment_id, follow_up_date, severity) =
       (Datetime.sub_days follow_up_date now
          + match severity with CRITICAL => 0 | MODERATE => 10 | MILD => 20 end,
        follow_up_date, treatment_id)) ∧
  (∀ follow_up_date,
     Datetime.valid follow_up_date → Datetime.valid now →
     py_lt follow_up_date now = true → Datetime.sub_days follow_up_date now < 0) ∧
  sort_asc entries ≡ₚ entries ∧
  StronglySorted py_le (sort_asc entries) ∧
  (∀ e1 e2 : entry, py_le e1 e2 ↔ e1 = e2 ∨
     e1.1.1 < e2.1.1 ∨ e1.1.1 = e2.1.1 ∧
       (py_lt e1.1.2 e2.1.2 = true ∨ e1.1.2 = e2.1.2 ∧ e1.2 < e2.2)) ∧
  (let now0 := Datetime.date 2024 7 1 in
   let critical := (1, Datetime.date 2024 7 6, CRITICAL) in
   let mild := (2, Datetime.date 2024 7 2, MILD) in
   (entry_of now0 critical).1.1 = 5 ∧ (entry_of now0 mild).1.1 = 21 ∧
   ∃ q q', run init (add_all now0 [mild; critical]) = Some q ∧
     get_next_urgent_treatments q 1 = Some ([1], q')).
Proof.
  intros entries. split_and!.
  - destruct (run_add_all now adds init queue_ok_init) as (q & Hrun & Hok & Hperm).
    simpl in Hperm. rewrite app_nil_r in Hperm. fold entries in Hperm.
    exists q. split_and!; [done | done |]. intros count.
    destruct (get_next_urgent_treatments_ok q count Hok) as (q' & Hget & _).
    exists q'. by rewrite Hget, (sort_asc_proper _ _ Hperm).
  - intros tid date sev. unfold entry_of, _calculate_priority. simpl. by destruct sev.
  - intros date. apply DatetimeFacts.sub_days_negative.
  - apply sort_asc_Permutation.
  - apply sort_asc_sorted.
  - intros e1 e2. rewrite <- entry_lt_iff. unfold py_le. split.
    + intros H21. destruct (py_lt e1 e2) eqn:H12; [by right|].
      left. by apply py_lt_connex.
    + intros [->|H12]; [apply py_lt_irrefl | by apply py_lt_asym].
  - apply next_urgent_example.
Qed.

End QueueFacts.

(** ** The doctor workload heap *)

Module DoctorFacts.
Import heapq HeapFacts DoctorAnalytics DoctorSpec.

Implicit Types (self : DoctorAnalytics.t) (heap : list (Z * Z)).

Lemma pop_ids_heappop_n n : ∀ heap items heap',
  heappop_n n heap = Some (items, heap') →
  pop_ids n heap = Some (snd <$> items, heap').
Proof.
  induction n as [|n IH]; intros heap items heap' Hpop; simpl in *.
  - by inversion Hpop; subst.
  - destruct (heappop heap) as [[item heap1]|]; [|done]. simpl in *.
    destruct (heappop_n n heap1) as [[items1 heap2]|] eqn:Hn; [|done]. simpl in Hpop.
    inversion Hpop; subst. by rewrite (IH heap1 items1 heap' Hn).
Qed.

Lemma add_doctor_ok self doctor :
  heap_ok (workload_heap self) →
  ∃ self', add_doctor self doctor = Some self' ∧ heap_ok (workload_heap self') ∧
    workload_heap self' ≡ₚ
      (d_patient_count doctor, d_doctor_id doctor) :: workload_heap self.
Proof.
  intros Hok. unfold add_doctor.
  destruct (heappush_ok (workload_heap self)
              (d_patient_count doctor, d_doctor_id doctor) Hok) as (heap' & -> & Hok' & Hperm).
  simpl. eexists. split; [done|]. by split.
Qed.

Lemma register_all_ok doctors : ∀ self,
  heap_ok (workload_heap self) →
  ∃ self', register_all self doctors = Some self' ∧ heap_ok (workload_heap self') ∧
    length (workload_heap self') = (length doctors + length (workload_heap self))%nat.
Proof.
  induction doctors as [|doctor doctors IH]; intros self Hok; simpl.
  - by exists self.
  - destruct (add_doctor_ok self doctor Hok) as (self1 & -> & Hok1 & Hperm1). simpl.
    destruct (IH self1 Hok1) as (self' & -> & Hok' & Hlen).
    exists self'. split_and!; [done | done |].
    rewrite Hlen, (Permutation_length Hperm1). simpl. lia.
Qed.

(** The least-busy query hands out the first [count] doctors of the
    workload order and drops them from the heap. *)
Lemma get_least_busy_doctors_drains self count :
  heap_ok (workload_heap self) →
  let n := Z.to_nat (count `min` Z.of_nat (length (workload_heap self))) in
  ∃ self', get_least_busy_doctors self count =
             Some (snd <$> take n (sort_asc (workload_heap self)), self') ∧
    heap_ok (workload_heap self') ∧
    workload_heap self ≡ₚ take n (sort_asc (workload_heap self)) ++ workload_heap self' ∧
    length (workload_heap self') = (length (workload_heap self) - n)%nat.
Proof.
  intros Hok n. unfold get_least_busy_doctors. fold n.
  destruct (heappop_n_ok n (workload_heap self) Hok) as (heap' & Hpop & Hok' & Hperm);
    [unfold n; lia|].
  rewrite (pop_ids_heappop_n n _ _ _ Hpop). simpl.
  exists (mk (specialization_map self) heap'). split_and!; [done | done | done |].
  simpl. apply Permutation_length in Hperm.
  rewrite length_app, length_take in Hperm.
  rewrite (Permutation_length (sort_asc_Permutation (workload_heap self))) in Hperm.
  unfold n in *. lia.
Qed.

(** C2 fails on the code. With doctors 1 to 4 registered, each with the
    default patient count, the first [get_least_busy_doctors(2)] returns
    doctors 1 and 2 and removes them from the workload heap; the second
    returns doctors 3 and 4; a third returns nothing. *)
Theorem least_busy_twice_differs :
  let doctors := [new_doctor 1 "Ada" "cardiology"; new_doctor 2 "Bo" "cardiology";
                  new_doctor 3 "Cy" "oncology"; new_doctor 4 "Di" "oncology"] in
  ∃ self self1 self2 self3,
    register_all init doctors = Some self ∧
    get_least_busy_doctors self 2 = Some ([1; 2], self1) ∧
    get_least_busy_doctors self1 2 = Some ([3; 4], self2) ∧
    get_least_busy_doctors self2 2 = Some ([], self3) ∧
    workload_heap self2 = [].
Proof.
  eexists _, _, _, _. split_and!; vm_compute; reflexivity.
Qed.

End DoctorFacts.

(** ** Sorting in descending key order *)

Section sort_desc.
Context {A B : Type} `{PyTotalOrd B} (key : A → B).

Lemma insert_desc_Permutation x (l : list A) : insert_desc key x l ≡ₚ x :: l.
Proof.
  induction l as [|y l IH]; simpl; [done|].
  destruct (py_lt (key x) (key y)); [|done]. rewrite IH. apply perm_swap.
Qed.

Lemma sort_desc_Permutation (l : list A) : sort_desc key l ≡ₚ l.
Proof.
  induction l as [|x l IH]; simpl; [done|].
  by rewrite insert_desc_Permutation, IH.
Qed.

Lemma insert_desc_sorted x (l : list A) :
  StronglySorted (λ a b, py_le (key b) (key a)) l →
  StronglySorted (λ a b, py_le (key b) (key a)) (insert_desc key x l).
Proof.
  induction 1 as [|y l Hs IH Hall]; simpl; [repeat constructor|].
  destruct (py_lt (key x) (key y)) eqn:Hxy.
  - constructor; [done|]. rewrite insert_desc_Permutation.
    constructor; [by apply py_lt_le | done].
  - constructor; [by constructor|]. constructor; [done|].
    eapply Forall_impl; [done|]. intros z Hz. simpl in Hz.
    by eapply py_le_trans.
Qed.

Lemma sort_desc_sorted (l : list A) :
  StronglySorted (λ a b, py_le (key b) (key a)) (sort_desc key l).
Proof.
  induction l as [|x l IH]; simpl; [constructor | by apply insert_desc_sorted].
Qed.

End sort_desc.

(** ** The patient timeline *)

Module TimelineFacts.
Import PatientTimeline TimelineSpec.

Implicit Types (self : PatientTimeline.t) (record : HealthRecord) (year : Z).

Lemma add_record_bucket self record year :
  bucket (records_by_year (add_record self record)) year =
    if decide (year = Datetime.year (record_date record))
    then sort_desc record_date (bucket (records_by_year self) year ++ [record])
    else bucket (records_by_year self) year.
Proof.
  unfold add_record, bucket. simpl.
  destruct (decide (year = Datetime.year (record_date record))) as [->|Hne].
  - by rewrite !lookup_insert_eq.
  - by rewrite !lookup_insert_ne.
Qed.

Lemma add_records_bucket records : ∀ self year,
  buckets_sorted self →
  bucket (records_by_year (add_records self records)) year ≡ₚ
    bucket (records_by_year self) year
      ++ filter (λ r, Datetime.year (record_date r) = year) records ∧
  buckets_sorted (add_records self records).
Proof.
  induction records as [|record records IH]; intros self year Hsorted; simpl.
  - by rewrite app_nil_r.
  - assert (Hsorted' : buckets_sorted (add_record self record)).
    { intros y. rewrite add_record_bucket. case_decide; [|done].
      apply (sort_desc_sorted record_date). }
    destruct (IH (add_record self record) year Hsorted') as [Hperm Hs].
    split; [|done]. rewrite Hperm, add_record_bucket, filter_cons.
    destruct (decide (year = Datetime.year (record_date record))) as [->|Hne].
    + rewrite decide_True by done.
      rewrite sort_desc_Permutation. by rewrite <- (assoc_L (++)).
    + by rewrite decide_False.
Qed.

Lemma buckets_sorted_init : buckets_sorted init.
Proof. intros year. unfold bucket. simpl. rewrite lookup_empty. constructor. Qed.

(** The three records of the specification's example, added in the order
    2023-01-01, 2024-06-01, 2023-12-01. *)
Lemma records_by_year_example :
  let r1 := HealthRecord_new 1 7 3 "flu" (Datetime.date 2023 1 1) None in
  let r2 := HealthRecord_new 2 7 3 "asthma" (Datetime.date 2024 6 1) None in
  let r3 := HealthRecord_new 3 7 4 "flu" (Datetime.date 2023 12 1) None in
  (get_records_by_year (add_records init [r1; r2; r3]) 2023).1 = [r3; r1].
Proof. vm_compute. reflexivity. Qed.


End TimelineFacts.

(** ** Sums over dictionaries *)

Section sum_values.
Context {K V : Type} `{Countable K} (f : V → Z).
Implicit Types (m : gmap K V).

Lemma sum_values_empty : sum_values f (∅ : gmap K V) = 0.
Proof. apply map_fold_empty. Qed.

Lemma sum_values_insert_None m k v :
  m !! k = None → sum_values f (<[k := v]> m) = f v + sum_values f m.
Proof.
  intros Hk. unfold sum_values.
  rewrite (map_fold_insert_L (λ _ v acc, f v + acc) 0 k v m); [done | | done].
  intros. lia.
Qed.

Lemma sum_values_delete m k v :
  m !! k = Some v → sum_values f m = f v + sum_values f (delete k m).
Proof.
  intros Hk. unfold sum_values.
  rewrite (map_fold_delete_L (λ _ v acc, f v + acc) 0 k v m); [done | | done].
  intros. lia.
Qed.

Lemma sum_values_insert m k v :
  sum_values f (<[k := v]> m) = sum_values f m + f v - from_option f 0 (m !! k).
Proof.
  destruct (m !! k) as [v0|] eqn:Hk; simpl.
  - rewrite <- (insert_delete_eq m k v).
    rewrite sum_values_insert_None by apply lookup_delete_eq.
    rewrite (sum_values_delete m k v0 Hk). lia.
  - rewrite sum_values_insert_None by done. lia.
Qed.

End sum_values.

(** ** Counting the records of a timeline *)

Module TimelineCounts.
Import PatientTimeline.

Implicit Types (timeline : PatientTimeline.t).

Lemma bucket_touch {K} `{Countable K} (d : gmap K (list HealthRecord)) (k k' : K) :
  bucket (touch d k) k' = bucket d k'.
Proof.
  unfold touch, bucket. destruct (decide (k = k')) as [->|Hne].
  - by rewrite lookup_insert_eq.
  - by rewrite lookup_insert_ne.
Qed.

Lemma count_records_init : count_records init = 0.
Proof. apply sum_values_empty. Qed.

Lemma count_records_add_record timeline record :
  count_records (add_record timeline record) = count_records timeline + 1.
Proof.
  unfold count_records, add_record. simpl.
  rewrite insert_insert_eq, sum_values_insert.
  unfold bucket at 1. rewrite lookup_insert_eq. simpl.
  rewrite (Permutation_length (sort_desc_Permutation record_date _)).
  rewrite length_app. simpl. unfold bucket.
  destruct (records_by_year timeline !! _); simpl; lia.
Qed.

Lemma tier_length_add_record timeline record tier :
  length (bucket (severity_index (add_record timeline record)) tier) =
  (length (bucket (severity_index timeline) tier)
     + if decide (severity record = tier) then 1 else 0)%nat.
Proof.
  unfold add_record. simpl. unfold bucket at 1.
  destruct (decide (severity record = tier)) as [<-|Hne].
  - rewrite lookup_insert_eq. simpl. by rewrite length_app.
  - rewrite lookup_insert_ne by done. fold (bucket (severity_index timeline) tier). lia.
Qed.

End TimelineCounts.

(** ** The aggregator *)

Module AggregatorFacts.
Import HealthMetricsAggregator AggregatorSpec.

Implicit Types (self : HealthMetricsAggregator.t) (timeline : PatientTimeline.t).

(** The key written on invalidation is never the key read by the
    summary path. *)
Lemma keys_distinct (u u' : Z) : timeline_key u ≠ summary_key u'.
Proof.
  unfold timeline_key, summary_key. rewrite !StrFacts.append_cons. congruence.
Qed.

Lemma cache_ok_init : cache_ok init.
Proof. exists []. apply CacheFacts.inv_init. Qed.

Lemma cache_put_ok (c : HealthDataCache.t Summary) key value :
  (∃ hist, CacheSpec.inv 100 (c, hist)) →
  ∃ c', HealthDataCache.put c key value = Some c' ∧
    ∃ hist, CacheSpec.inv 100 (c', hist).
Proof.
  intros [hist Hinv].
  destruct (CacheFacts.step_total 100 (c, hist) (CacheSpec.Put key value) Hinv)
    as [s' Hs']; [lia|].
  pose proof (CacheFacts.inv_step 100 _ _ _ Hinv Hs') as Hinv'.
  simpl in Hs'. destruct (HealthDataCache.put c key value) as [c'|]; [|done].
  simpl in Hs'. inversion Hs'; subst s'. exists c'. split; [done|]. by eexists.
Qed.

Lemma cache_get_ok (c : HealthDataCache.t Summary) key :
  (∃ hist, CacheSpec.inv 100 (c, hist)) →
  ∃ value c', HealthDataCache.get c key = Some (value, c') ∧
    (∃ hist, CacheSpec.inv 100 (c', hist)) ∧
    value = default PyNone (HealthDataCache.cache c !! key).
Proof.
  intros [hist Hinv].
  destruct (CacheFacts.step_total 100 (c, hist) (CacheSpec.Get key) Hinv)
    as [s' Hs']; [lia|].
  pose proof (CacheFacts.inv_step 100 _ _ _ Hinv Hs') as Hinv'.
  simpl in Hs'. destruct (HealthDataCache.get c key) as [[value c']|] eqn:Hget; [|done].
  simpl in Hs'. inversion Hs'; subst s'. exists value, c'.
  split_and!; [done | by eexists |].
  unfold HealthDataCache.get in Hget.
  destruct (HealthDataCache.cache c !! key) as [w|]; simpl.
  - destruct (deque_remove _ _); [|done]. simpl in Hget. by inversion Hget.
  - by inversion Hget.
Qed.

Lemma add_health_record_ok self data :
  cache_ok self →
  let record := HealthRecord_new (rd_record_id data) (rd_user_id data)
                  (rd_doctor_id data) (rd_diagnosis data) (rd_record_date data)
                  (rd_file_path data) in
  ∃ self', add_health_record self data = Some self' ∧ cache_ok self' ∧
    user_timelines self' =
      <[rd_user_id data :=
          PatientTimeline.add_record
            (default PatientTimeline.init (user_timelines self !! rd_user_id data))
            record]> (user_timelines self).
Proof.
  intros Hcache record. unfold add_health_record. fold record. simpl.
  destruct (cache_put_ok (cache self) (timeline_key (rd_user_id data)) PyNone Hcache)
    as (c' & Hput & Hcache').
  destruct (user_timelines self !! rd_user_id data) as [timeline|] eqn:Hu.
  - rewrite decide_True by by eexists. rewrite Hu. simpl. rewrite Hput. simpl.
    eexists. split; [done|]. split; done.
  - rewrite decide_False by by intros [? ?]. rewrite lookup_insert_eq. simpl.
    rewrite Hput. simpl. eexists. split; [done|]. split; [done|]. simpl.
    by rewrite insert_insert_eq.
Qed.

Lemma get_user_health_summary_ok now self user_id :
  cache_ok self →
  ∃ result self', get_user_health_summary now self user_id = Some (result, self') ∧
    cache_ok self' ∧
    (user_timelines self' = user_timelines self ∨
     ∃ timeline, user_timelines self !! user_id = Some timeline ∧
       user_timelines self' =
         <[user_id := (PatientTimeline.get_critical_records timeline).2]>
           (user_timelines self)) ∧
    (default PyNone (HealthDataCache.cache (cache self) !! summary_key user_id) = PyNone →
     result = miss_result now self user_id).
Proof.
  intros Hcache. unfold get_user_health_summary.
  destruct (cache_get_ok (cache self) (summary_key user_id) Hcache)
    as (cached & c1 & -> & Hcache1 & Hcached). simpl.
  destruct cached as [|s].
  - unfold miss_result.
    destruct (user_timelines self !! user_id) as [timeline|] eqn:Hu.
    + destruct (cache_put_ok c1 (summary_key user_id)
                  (PyObj (fresh_summary now timeline)) Hcache1) as (c2 & Hput & Hcache2).
      unfold fresh_summary in Hput. unfold PatientTimeline.get_most_visited_doctors,
        PatientTimeline.get_common_conditions, count_recent. simpl.
      unfold count_recent in Hput. rewrite Hput. simpl.
      eexists _, _. split; [done|]. split_and!; [done | | done].
      right. exists timeline. done.
    + eexists _, _. split; [done|]. split_and!; [done | by left | done].
  - eexists _, _. split; [done|]. split_and!; [done | by left |].
    intros Hnone. congruence.
Qed.


Lemma severity_value_inj (s1 s2 : Severity) :
  severity_value s1 = severity_value s2 → s1 = s2.
Proof. by destruct s1, s2. Qed.

Lemma tier_count_snoc tier records data :
  tier_count tier (records ++ [data]) =
  tier_count tier records
    + (if decide (_calculate_severity (rd_diagnosis data) = tier) then 1 else 0).
Proof.
  unfold tier_count. rewrite filter_app, length_app, filter_cons, filter_nil.
  case_decide; simpl; lia.
Qed.

Lemma indices_ok_init : indices_ok [] init.
Proof.
  split_and!; simpl.
  - by rewrite dom_empty_L.
  - apply sum_values_empty.
  - intros tier. apply sum_values_empty.
Qed.

Lemma indices_ok_add records self data timelines :
  indices_ok records self →
  timelines =
    <[rd_user_id data :=
        PatientTimeline.add_record
          (default PatientTimeline.init (user_timelines self !! rd_user_id data))
          (HealthRecord_new (rd_record_id data) (rd_user_id data)
             (rd_doctor_id data) (rd_diagnosis data) (rd_record_date data)
             (rd_file_path data))]> (user_timelines self) →
  dom timelines = list_to_set (rd_user_id <$> records ++ [data]) ∧
  sum_values PatientTimeline.count_records timelines
    = Z.of_nat (length (records ++ [data])) ∧
  ∀ tier, tier_total tier timelines = tier_count tier (records ++ [data]).
Proof.
  intros (Hdom & Hsum & Htier) ->. split_and!.
  - rewrite dom_insert_L, Hdom, fmap_app, list_to_set_app_L. simpl.
    apply set_eq. intros x.
    rewrite !elem_of_union, elem_of_singleton, elem_of_empty. tauto.
  - rewrite sum_values_insert, TimelineCounts.count_records_add_record, Hsum.
    rewrite length_app. simpl.
    destruct (user_timelines self !! rd_user_id data); simpl;
      rewrite ?TimelineCounts.count_records_init; lia.
  - intros tier. unfold tier_total. rewrite sum_values_insert.
    rewrite TimelineCounts.tier_length_add_record. fold (tier_total tier (user_timelines self)).
    rewrite Htier, tier_count_snoc. simpl.
    destruct (user_timelines self !! rd_user_id data); simpl;
      case_decide; rewrite ?Nat.add_0_r; unfold PatientTimeline.bucket; simpl;
      rewrite ?lookup_empty; simpl; lia.
Qed.

Lemma indices_ok_touch records self user_id timeline timelines :
  indices_ok records self →
  user_timelines self !! user_id = Some timeline →
  timelines = <[user_id := (PatientTimeline.get_critical_records timeline).2]>
                (user_timelines self) →
  dom timelines = list_to_set (rd_user_id <$> records) ∧
  sum_values PatientTimeline.count_records timelines = Z.of_nat (length records) ∧
  ∀ tier, tier_total tier timelines = tier_count tier records.
Proof.
  intros (Hdom & Hsum & Htier) Hu ->. split_and!.
  - rewrite dom_insert_L, <- Hdom.
    assert (user_id ∈ dom (user_timelines self)) by (apply elem_of_dom; by eexists).
    apply set_eq. intros x. rewrite elem_of_union, elem_of_singleton.
    split; [by intros [->|?] | by right].
  - rewrite sum_values_insert, Hu. simpl.
    unfold PatientTimeline.count_records at 2 3. simpl. lia.
  - intros tier. unfold tier_total. rewrite sum_values_insert, Hu. simpl.
    rewrite TimelineCounts.bucket_touch.
    fold (tier_total tier (user_timelines self)). rewrite Htier. lia.
Qed.

Lemma run_indices calls : ∀ self records,
  cache_ok self → indices_ok records self →
  ∃ self', run self calls = Some self' ∧ cache_ok self' ∧
    indices_ok (records ++ added calls) self'.
Proof.
  induction calls as [|c calls IH]; intros self records Hcache Hidx; simpl.
  - exists self. by rewrite app_nil_r.
  - destruct c as [data | now user_id]; simpl.
    + destruct (add_health_record_ok self data Hcache) as (self1 & -> & Hcache1 & Htl).
      simpl. destruct (IH self1 (records ++ [data]) Hcache1) as (self' & Hrun & Hc & Hi).
      { by apply (indices_ok_add records self data). }
      exists self'. split_and!; [done | done |].
      by rewrite <- (assoc_L (++)) in Hi.
    + destruct (get_user_health_summary_ok now self user_id Hcache)
        as (result & self1 & -> & Hcache1 & Htl & _). simpl.
      apply IH; [done|].
      destruct Htl as [Heq | (timeline & Hu & Heq)].
      * unfold indices_ok. by rewrite Heq.
      * by apply (indices_ok_touch records self user_id timeline).
Qed.


Lemma dist_add_fold (index : gmap Severity (list HealthRecord)) (dist : gmap string Z) :
  let dist' := map_fold dist_add dist index in
  (∀ tier, default 0 (dist' !! severity_value tier) =
     default 0 (dist !! severity_value tier)
       + Z.of_nat (length (PatientTimeline.bucket index tier))) ∧
  (∀ key, is_Some (dist' !! key) →
     is_Some (dist !! key) ∨ ∃ tier, key = severity_value tier).
Proof.
  apply (map_fold_weak_ind
    (λ (r : gmap string Z) (m : gmap Severity (list HealthRecord)),
       (∀ tier, default 0 (r !! severity_value tier) =
          default 0 (dist !! severity_value tier)
            + Z.of_nat (length (PatientTimeline.bucket m tier))) ∧
       (∀ key, is_Some (r !! key) →
          is_Some (dist !! key) ∨ ∃ tier, key = severity_value tier))
    dist_add dist).
  - split; [|by left]. intros tier. unfold PatientTimeline.bucket.
    rewrite lookup_empty. simpl. lia.
  - intros tier0 records m r Hnone [IH1 IH2]. unfold dist_add. split.
    + intros tier. unfold PatientTimeline.bucket.
      destruct (decide (tier0 = tier)) as [->|Hne].
      * rewrite !lookup_insert_eq. simpl. rewrite IH1.
        unfold PatientTimeline.bucket. rewrite Hnone. simpl. lia.
      * rewrite !lookup_insert_ne by (try intros ?%severity_value_inj; done).
        apply IH1.
    + intros key. destruct (decide (severity_value tier0 = key)) as [<-|Hne].
      * intros _. right. by exists tier0.
      * rewrite lookup_insert_ne by done. apply IH2.
Qed.

Lemma severity_dist_fold (timelines : gmap Z PatientTimeline.t) :
  let dist := map_fold (λ _ timeline dist,
                 map_fold dist_add dist (PatientTimeline.severity_index timeline))
               ∅ timelines in
  (∀ tier, default 0 (dist !! severity_value tier) = tier_total tier timelines) ∧
  (∀ key, is_Some (dist !! key) → ∃ tier, key = severity_value tier).
Proof.
  apply (map_fold_weak_ind
    (λ (r : gmap string Z) (m : gmap Z PatientTimeline.t),
       (∀ tier, default 0 (r !! severity_value tier) = tier_total tier m) ∧
       (∀ key, is_Some (r !! key) → ∃ tier, key = severity_value tier))
    (λ _ timeline dist,
       map_fold dist_add dist (PatientTimeline.severity_index timeline)) ∅).
  - split.
    + intros tier. rewrite lookup_empty. unfold tier_total.
      by rewrite sum_values_empty.
    + intros key [? Hkey]. by rewrite lookup_empty in Hkey.
  - intros user_id timeline m r Hnone [IH1 IH2].
    destruct (dist_add_fold (PatientTimeline.severity_index timeline) r) as [H1 H2].
    split.
    + intros tier. rewrite H1, IH1. unfold tier_total.
      rewrite sum_values_insert_None by done. lia.
    + intros key Hkey. destruct (H2 key Hkey) as [Hr | Htier]; [by apply IH2 | done].
Qed.

Lemma user_count_zero (records : list record_data) :
  user_count records = 0 ↔ records = [].
Proof.
  unfold user_count. split; [|by intros ->].
  intros Hz. destruct records as [|data records]; [done|]. exfalso.
  assert (Hsz : size (list_to_set (rd_user_id <$> data :: records) : gset Z) = 0%nat) by lia.
  apply size_empty_inv in Hsz. simpl in Hsz.
  assert (Hin : rd_user_id data ∈ ({[rd_user_id data]} ∪ list_to_set (rd_user_id <$> records) : gset Z)).
  { apply elem_of_union. left. by apply elem_of_singleton. }
  rewrite Hsz in Hin. by apply not_elem_of_empty in Hin.
Qed.



Lemma put_shape {V} (c c1 : HealthDataCache.t V) key value :
  HealthDataCache.put c key value = Some c1 →
  ∃ m order, c1 = HealthDataCache.mk (<[key := value]> m) (order ++ [key])
                    (HealthDataCache.max_size c).
Proof.
  unfold HealthDataCache.put. intros Hput.
  destruct (decide (is_Some (HealthDataCache.cache c !! key))).
  - destruct (deque_remove key (HealthDataCache.access_order c)) as [order|]; [|done].
    simpl in Hput. inversion Hput. by eexists _, _.
  - destruct (decide (HealthDataCache.max_size c
                        ≤ Z.of_nat (size (HealthDataCache.cache c)))).
    + destruct (deque_popleft (HealthDataCache.access_order c)) as [[oldest order]|];
        [|done]. simpl in Hput.
      destruct (HealthDataCache.cache c !! oldest); [|done]. simpl in Hput.
      inversion Hput. by eexists _, _.
    + simpl in Hput. inversion Hput. by eexists _, _.
Qed.

(** C10. A key stored with [None] reads back as [None], which is also
    what reading a key that is not in the cache gives; [None] is the one
    cached value that tests false. In the summary path, an engine whose
    summary entry for the user is present but [None] answers exactly as
    one with no such entry: with the summary recomputed from the
    timeline, or the no-records error. *)
Theorem none_entry_reads_as_miss (c : HealthDataCache.t Summary) (key : string)
    (now : Datetime.t) (self : HealthMetricsAggregator.t) (user_id : Z) :
  (∀ c1, HealthDataCache.put c key PyNone = Some c1 →
     ∃ c2, HealthDataCache.get c1 key = Some (PyNone, c2)) ∧
  (HealthDataCache.cache c !! key = None →
     HealthDataCache.get c key = Some (PyNone, c)) ∧
  (∀ v, truthy v = false ↔ v = PyNone) ∧
  (cache_ok self →
   HealthDataCache.cache (cache self) !! summary_key user_id = Some PyNone ∨
   HealthDataCache.cache (cache self) !! summary_key user_id = None →
   ∃ self', get_user_health_summary now self user_id
              = Some (miss_result now self user_id, self')).
Proof.
  split_and!.
  - intros c1 (m & order & ->)%put_shape. unfold HealthDataCache.get. simpl.
    rewrite lookup_insert_eq.
    destruct (CacheFacts.deque_remove_is_Some key (order ++ [key])) as [order' ->].
    { apply elem_of_app. right. by apply list_elem_of_singleton. }
    simpl. by eexists.
  - apply CacheFacts.get_miss.
  - intros [|s]; simpl; split; (done || congruence).
  - intros Hcache Hentry.
    destruct (get_user_health_summary_ok now self user_id Hcache)
      as (result & self' & Hget & _ & _ & Hmiss).
    exists self'. rewrite Hget, Hmiss; [done|].
    by destruct Hentry as [-> | ->].
Qed.

(** C1 fails on the code. A summary computed after the first record of
    user 7 is cached under the summary key; adding a second record writes
    [None] under the timeline key only, so the next summary request is a
    cache hit and still reports one record while the timeline holds two. *)
Theorem summary_stale_after_add :
  let now := Datetime.date 2024 7 1 in
  let d1 := mkRecordData 1 7 3 "flu" (Datetime.date 2024 6 20) None in
  let d2 := mkRecordData 2 7 3 "diabetes" (Datetime.date 2024 6 21) None in
  let first := mkSummary 1 0 [(3, 1)] [("flu"%string, 1)] 1 in
  let current := mkSummary 2 1 [(3, 2)] [("flu"%string, 1); ("diabetes"%string, 1)] 2 in
  (a1 ← add_health_record init d1;
   '(r1, a2) ← get_user_health_summary now a1 7;
   a3 ← add_health_record a2 d2;
   '(r2, a4) ← get_user_health_summary now a3 7;
   Some (r1, r2,
         PatientTimeline.count_records <$> user_timelines a3 !! 7,
         HealthDataCache.cache (cache a3) !! timeline_key 7,
         HealthDataCache.cache (cache a3) !! summary_key 7,
         miss_result now a3 7))
  = Some (SummaryOk first, SummaryOk first, Some 2,
          Some PyNone, Some (PyObj first), SummaryOk current).
Proof. vm_compute. reflexivity. Qed.

End AggregatorFacts.

(** ** Using the cache *)

Module CacheUse.
Import HealthDataCache CacheSpec CacheFacts CacheDict.

Section use.
Context {V : Type}.
Implicit Types (c : HealthDataCache.t V) (k : string) (v w : pyval V).
Implicit Types (s : HealthDataCache.t V * list string) (o : op V) (ops : list (op V)).

Lemma put_result c c1 k v :
  put c k v = Some c1 →
  ∃ m order, c1 = mk (<[k := v]> m) (order ++ [k]) (max_size c).
Proof.
  unfold put. intros Hput.
  destruct (decide (is_Some (cache c !! k))).
  - destruct (deque_remove k (access_order c)) as [order|]; [|done].
    simpl in Hput. inversion Hput. by eexists _, _.
  - destruct (decide (max_size c ≤ Z.of_nat (size (cache c)))).
    + destruct (deque_popleft (access_order c)) as [[oldest order]|]; [|done].
      simpl in Hput. destruct (cache c !! oldest); [|done]. simpl in Hput.
      inversion Hput. by eexists _, _.
    + simpl in Hput. inversion Hput. by eexists _, _.
Qed.

(** X1. Whatever the cache held, a value stored with [put] is what the
    next [get] of that key returns, and that [get] changes no stored
    value. *)
Theorem put_get_roundtrip c c1 k v :
  put c k v = Some c1 →
  ∃ c2, get c1 k = Some (v, c2) ∧ cache c2 = cache c1 ∧
    last (access_order c2) = Some k.
Proof.
  intros (m & order & ->)%put_result. unfold get. simpl.
  rewrite lookup_insert_eq.
  destruct (deque_remove_is_Some k (order ++ [k])) as [order' ->].
  { apply elem_of_app. right. by apply list_elem_of_singleton. }
  simpl. eexists. split_and!; [done | done | apply last_snoc].
Qed.

Lemma dict_of_bounded ops : ∀ s (N : Z),
  inv N s →
  Z.of_nat (size (dom (cache s.1) ∪ put_keys ops)) ≤ N →
  ∃ s', run s ops = Some s' ∧ cache s'.1 = dict_of (cache s.1) ops.
Proof.
  induction ops as [|o ops IH]; intros [c hist] N Hinv Hsize; simpl in *.
  - by eexists.
  - destruct Hinv as (HN & Hwf & Hsz & Hsort). simpl in HN, Hwf, Hsz, Hsort.
    assert (Hinv : inv N (c, hist)) by by split_and!.
    destruct o as [k|k v]; simpl.
    + destruct (cache c !! k) as [w|] eqn:Hk.
      * destruct (get_hit c k w Hwf Hk) as (l1 & l2 & Ho & Hget). rewrite Hget. simpl.
        apply (IH (mk (cache c) ((l1 ++ l2) ++ [k]) (max_size c), k :: hist) N); [|done].
        apply (inv_step N (c, hist) (Get k)); [done|]. simpl.
        rewrite Hget. simpl. by rewrite decide_True by by eexists.
      * rewrite get_miss by done. simpl. by apply (IH (c, hist) N).
    + assert (Hstep : ∃ c', put c k v = Some c' ∧ cache c' = <[k := v]> (cache c)).
      { destruct (cache c !! k) as [w|] eqn:Hk.
        - destruct (put_present c k v Hwf) as (l1 & l2 & _ & ->); [by eexists|].
          by eexists.
        - rewrite put_new_room; [by eexists | done |].
          assert (Hsub : {[k]} ∪ dom (cache c) ⊆ dom (cache c) ∪ ({[k]} ∪ put_keys ops)).
          { intros x. rewrite !elem_of_union. tauto. }
          apply subseteq_size in Hsub.
          rewrite size_union, size_singleton, size_dom in Hsub; [lia|].
          intros x ->%elem_of_singleton Hx%elem_of_dom. rewrite Hk in Hx.
          by destruct Hx. }
      destruct Hstep as (c' & Hput & Hcache). rewrite Hput. simpl.
      destruct (IH (c', k :: hist) N) as (s' & Hrun & Hdict).
      * apply (inv_step N (c, hist) (Put k v)); [done|]. simpl. by rewrite Hput.
      * simpl. rewrite Hcache, dom_insert_L.
        replace ({[k]} ∪ dom (cache c) ∪ put_keys ops)
          with (dom (cache c) ∪ ({[k]} ∪ put_keys ops)); [done|].
        apply set_eq. intros x. rewrite !elem_of_union. tauto.
      * exists s'. split; [done|]. simpl in Hdict. by rewrite Hdict, Hcache.
Qed.

(** X2. While the calls store under no more distinct keys than the
    capacity, nothing is evicted: no call raises and the cache holds
    exactly what a plain dictionary would hold after the same calls. *)
Theorem no_eviction_within_capacity (N : Z) ops :
  Z.of_nat (size (put_keys ops)) ≤ N →
  ∃ c hist, run (init N, []) ops = Some (c, hist) ∧ cache c = dict_of ∅ ops.
Proof.
  intros Hsize.
  destruct (dict_of_bounded ops (init N, []) N (inv_init N)) as ([c hist] & Hrun & Hdict).
  - simpl. by rewrite dom_empty_L, (left_id_L ∅ (∪)).
  - by exists c, hist.
Qed.

Lemma run_no_capacity ops : ∀ (N : Z) hist s',
  N ≤ 0 → run (init N, hist) ops = Some s' → s' = (init N, hist).
Proof.
  induction ops as [|o ops IH]; intros N hist s' HN Hrun; simpl in Hrun.
  - by inversion Hrun.
  - destruct o as [k|k v]; simpl in Hrun.
    + rewrite lookup_empty in Hrun. simpl in Hrun. by apply IH.
    + rewrite put_no_capacity in Hrun; [done | done | apply lookup_empty |].
      simpl. rewrite map_size_empty. lia.
Qed.

(** X3. A cache built with a capacity below one never stores anything:
    every [put] raises ([popleft] on the empty deque), so whatever calls
    were made without raising left the cache empty, and every [get]
    answers [None]. *)
Theorem no_capacity_cache_stays_empty (N : Z) ops c (hist : list string) :
  N ≤ 0 → run (init N, []) ops = Some (c, hist) →
  c = init N ∧ (∀ k v, put c k v = None) ∧ (∀ k, get c k = Some (PyNone, c)).
Proof.
  intros HN Hrun. apply run_no_capacity in Hrun; [|done].
  inversion Hrun; subst. split_and!; [done | |].
  - intros k v. apply put_no_capacity; [done | apply lookup_empty |].
    simpl. rewrite map_size_empty. lia.
  - intros k. apply get_miss, lookup_empty.
Qed.

End use.

Lemma put_get_roundtrip_witness :
  ∃ c1 c2 : HealthDataCache.t Z,
    put (init 2) "a" (PyObj 5) = Some c1 ∧ get c1 "a" = Some (PyObj 5, c2).
Proof.
  eexists _. destruct (put_get_roundtrip (init 2) _ "a" (PyObj 5) eq_refl)
    as (c2 & Hget & _). by exists c2.
Defined.

Lemma no_eviction_within_capacity_witness :
  let ops := [Put "a" (PyObj 1); Get "a"; Put "b" PyNone; Put "a" (PyObj 3)]%string in
  ∃ c hist, run (init 2, []) ops = Some (c, hist) ∧
    cache c = dict_of (∅ : gmap string (pyval Z)) ops.
Proof.
  intros ops. apply (no_eviction_within_capacity 2 ops). vm_compute. by intros [=].
Defined.

Lemma no_capacity_cache_stays_empty_witness :
  put (init 0 : HealthDataCache.t Z) "a" (PyObj 1) = None ∧
  get (init 0 : HealthDataCache.t Z) "a" = Some (PyNone, init 0).
Proof.
  destruct (no_capacity_cache_stays_empty 0 [Get "a"%string] (init 0 : HealthDataCache.t Z) [])
    as (_ & Hput & Hget); [lia | done |].
  split; [apply Hput | apply Hget].
Defined.

End CacheUse.

(** ** Counters *)

Module CounterFacts.
Import CounterSpec.

Section counter.
Context {K : Type} `{EqDecision K}.
Implicit Types (c : @Counter.t K) (k : K) (l seen : list K).

Lemma incr_cons c k k' (n : Z) :
  Counter.incr ((k', n) :: c) k =
  if decide (k = k') then (k', n + 1) :: c else (k', n) :: Counter.incr c k.
Proof. reflexivity. Qed.

Lemma incr_keys c k :
  (Counter.incr c k).*1 = if decide (k ∈ c.*1) then c.*1 else c.*1 ++ [k].
Proof.
  induction c as [|[k' n] c IH]; [done|].
  rewrite incr_cons, !fmap_cons. cbn [fst].
  destruct (decide (k = k')) as [->|Hne].
  - rewrite fmap_cons, decide_True; [done|]. apply elem_of_cons. by left.
  - rewrite fmap_cons, IH. cbn [fst]. destruct (decide (k ∈ c.*1)) as [Hin|Hnin].
    + rewrite decide_True; [done|]. apply elem_of_cons. by right.
    + rewrite decide_False; [done|]. intros [?|?]%elem_of_cons; done.
Qed.

Lemma incr_get c k k' :
  Counter.get (Counter.incr c k) k' =
  Counter.get c k' + (if decide (k' = k) then 1 else 0).
Proof.
  induction c as [|[k0 n] c IH]; simpl.
  - destruct (decide (k' = k)); lia.
  - destruct (decide (k = k0)) as [->|Hne]; simpl.
    + destruct (decide (k' = k0)); lia.
    + destruct (decide (k' = k0)) as [->|Hne']; [|apply IH].
      rewrite decide_False by done. lia.
Qed.

(** With each key listed once, a counter is its keys paired with the
    counts [get] reads. *)
Lemma counter_eta c :
  NoDup c.*1 → c = (λ k, (k, Counter.get c k)) <$> c.*1.
Proof.
  induction c as [|[k n] c IH]; simpl; [done|].
  intros [Hk Hnd]%NoDup_cons. rewrite decide_True by done. f_equal.
  rewrite (IH Hnd) at 1. apply Forall_fmap_ext_1, Forall_forall.
  intros k' Hk'. rewrite decide_False; [done|]. by intros ->.
Qed.

Lemma foldl_incr_keys l : ∀ c,
  (foldl Counter.incr c l).*1 =
  foldl (λ seen k, if decide (k ∈ seen) then seen else seen ++ [k]) c.*1 l.
Proof.
  induction l as [|k l IH]; intros c; simpl; [done|].
  by rewrite IH, incr_keys.
Qed.

Lemma foldl_incr_get l : ∀ c k,
  Counter.get (foldl Counter.incr c l) k = Counter.get c k + occurrences k l.
Proof.
  unfold occurrences.
  induction l as [|k0 l IH]; intros c k; simpl; [lia|].
  rewrite IH, incr_get, filter_cons. repeat case_decide; simplify_eq; simpl; lia.
Qed.

Lemma foldl_seen_NoDup l : ∀ seen,
  NoDup seen →
  NoDup (foldl (λ seen k, if decide (k ∈ seen) then seen else seen ++ [k]) seen l).
Proof.
  induction l as [|k l IH]; intros seen Hnd; simpl; [done|].
  apply IH. case_decide; [done|].
  apply NoDup_app. split_and!; [done | | apply NoDup_singleton].
  intros x Hx ->%list_elem_of_singleton. done.
Qed.

Lemma foldl_seen_elem_of l : ∀ seen k,
  k ∈ foldl (λ seen k, if decide (k ∈ seen) then seen else seen ++ [k]) seen l ↔
  k ∈ seen ∨ k ∈ l.
Proof.
  induction l as [|k0 l IH]; intros seen k; simpl.
  - rewrite elem_of_nil. tauto.
  - rewrite IH, elem_of_cons. case_decide.
    + split; [tauto|]. intros [?|[->|?]]; auto.
    + rewrite elem_of_app, list_elem_of_singleton. tauto.
Qed.

Lemma first_seen_NoDup l : NoDup (first_seen l).
Proof. apply foldl_seen_NoDup, NoDup_nil_2. Qed.

Lemma first_seen_elem_of l k : k ∈ first_seen l ↔ k ∈ l.
Proof.
  unfold first_seen. rewrite foldl_seen_elem_of, elem_of_nil. tauto.
Qed.

(** Counting item by item gives the tally. *)
Lemma count_all_tally l : count_all l = tally l.
Proof.
  unfold count_all, tally.
  assert (Hkeys : (foldl Counter.incr [] l).*1 = first_seen l).
  { by rewrite foldl_incr_keys. }
  rewrite (counter_eta (foldl Counter.incr [] l)) by (rewrite Hkeys; apply first_seen_NoDup).
  rewrite Hkeys. apply Forall_fmap_ext_1, Forall_forall. intros k _.
  by rewrite foldl_incr_get.
Qed.

Lemma occurrences_pos k l : k ∈ l → 0 < occurrences k l.
Proof.
  unfold occurrences. intros Hin.
  assert (Hf : k ∈ filter (λ x, x = k) l) by (by apply list_elem_of_filter).
  destruct (filter (λ x, x = k) l); [by apply elem_of_nil in Hf | simpl; lia].
Qed.

End counter.

(** *** Stable descending sort *)

Section stable.
Context {A : Type} (key : A → Z).

(** Items with equal keys keep their relative order. *)
Lemma sort_desc_stable (l : list A) (v : Z) :
  filter (λ a, key a = v) (sort_desc key l) = filter (λ a, key a = v) l.
Proof.
  induction l as [|x l IH]; simpl; [done|].
  rewrite filter_cons, <- IH. clear IH.
  induction (sort_desc key l) as [|y l' IH']; simpl.
  - by rewrite filter_cons.
  - destruct (py_lt (key x) (key y)) eqn:Hlt.
    + rewrite !filter_cons, IH'. unfold py_lt, Z_PyOrd in Hlt.
      apply Z.ltb_lt in Hlt. repeat case_decide; simplify_eq; try done; lia.
    + by rewrite !filter_cons.
Qed.

(** The first [n] of a descending list are no smaller than the rest. *)
Lemma take_sorted_top (l : list A) (n : nat) (a b : A) :
  StronglySorted (λ a b, key b ≤ key a) l →
  a ∈ take n l → b ∈ drop n l → key b ≤ key a.
Proof.
  intros Hs Ha Hb. rewrite <- (take_drop n l) in Hs.
  by apply (StronglySorted_app_1_elem_of _ _ _ a b) in Hs.
Qed.

Lemma sort_desc_sorted_Z (l : list A) :
  StronglySorted (λ a b, key b ≤ key a) (sort_desc key l).
Proof.
  induction (sort_desc_sorted key l) as [|a l' Hs IH Hall]; constructor; [done|].
  eapply Forall_impl; [done|]. intros b. simpl.
  unfold py_le, py_lt, Z_PyOrd. intros ?%Z.ltb_ge. lia.
Qed.

End stable.

Section top.
Context {K : Type} `{EqDecision K}.

Lemma tally_keys (l : list K) : (tally l).*1 = first_seen l.
Proof.
  unfold tally. rewrite <- list_fmap_compose.
  rewrite <- (list_fmap_id (first_seen l)) at 2.
  by apply Forall_fmap_ext_1, Forall_forall.
Qed.

Lemma tally_elem_of (l : list K) k n :
  (k, n) ∈ tally l ↔ k ∈ l ∧ n = occurrences k l.
Proof.
  unfold tally. rewrite list_elem_of_fmap. split.
  - intros (k' & [= -> ->] & Hin). split; [by apply first_seen_elem_of | done].
  - intros [Hin ->]. exists k. by rewrite first_seen_elem_of.
Qed.

(** [Counter.most_common] on a counter filled item by item. *)
Lemma most_common_top (l : list K) (limit : nat) :
  is_top_counts l limit (Counter.most_common (count_all l) limit).
Proof.
  unfold Counter.most_common. rewrite count_all_tally.
  set (sorted := sort_desc snd (tally l)).
  assert (Hperm : sorted ≡ₚ tally l) by apply (sort_desc_Permutation snd).
  assert (Hsorted : StronglySorted (λ a b : K * Z, b.2 ≤ a.2) sorted)
    by apply sort_desc_sorted_Z.
  assert (Hnd : NoDup sorted.*1).
  { rewrite Hperm, tally_keys. apply first_seen_NoDup. }
  split_and!.
  - done.
  - intros k n Hin.
    assert (Hin' : (k, n) ∈ tally l).
    { rewrite <- Hperm, <- (take_drop limit sorted). apply elem_of_app. by left. }
    apply tally_elem_of in Hin' as [Hk ->]. split; [done | by apply occurrences_pos].
  - rewrite fmap_take. eapply sublist_NoDup; [done | apply sublist_take].
  - rewrite <- (take_drop limit sorted) in Hsorted.
    by apply StronglySorted_app_1_l in Hsorted.
  - rewrite length_take, (Permutation_length Hperm).
    by rewrite <- tally_keys, length_fmap.
  - intros k p Hk Hnin Hp.
    assert (Hin : (k, occurrences k l) ∈ take limit sorted ++ drop limit sorted).
    { rewrite take_drop, Hperm. by apply tally_elem_of. }
    apply elem_of_app in Hin as [Hin | Hin].
    + destruct Hnin. apply list_elem_of_fmap. by exists (k, occurrences k l).
    + apply (take_sorted_top snd sorted limit p (k, occurrences k l) Hsorted Hp Hin).
  - intros n. rewrite <- (sort_desc_stable snd (tally l) n). fold sorted.
    rewrite <- (take_drop limit sorted) at 2. rewrite filter_app.
    by apply prefix_app_r.
Qed.

End top.
End CounterFacts.

(** ** More on the patient timeline *)

Module TimelineIndex.
Import PatientTimeline TimelineSpec CounterSpec.

Implicit Types (self : PatientTimeline.t) (record : HealthRecord) (records : list HealthRecord).

Lemma add_records_severity records : ∀ self tier,
  bucket (severity_index (add_records self records)) tier =
  bucket (severity_index self) tier ++ filter (λ r, severity r = tier) records.
Proof.
  induction records as [|record records IH]; intros self tier; simpl.
  - by rewrite app_nil_r.
  - rewrite IH, filter_cons. unfold add_record, bucket at 1. simpl.
    destruct (decide (severity record = tier)) as [<-|Hne].
    + rewrite lookup_insert_eq. simpl. by rewrite <- (assoc_L (++)).
    + by rewrite lookup_insert_ne.
Qed.

Lemma add_records_doctor_visits records : ∀ self,
  doctor_visits (add_records self records) =
  foldl Counter.incr (doctor_visits self) (doctor_id <$> records).
Proof. induction records as [|record records IH]; intros self; simpl; [done | by rewrite IH]. Qed.

Lemma add_records_condition_frequency records : ∀ self,
  condition_frequency (add_records self records) =
  foldl Counter.incr (condition_frequency self) (diagnosis <$> records).
Proof. induction records as [|record records IH]; intros self; simpl; [done | by rewrite IH]. Qed.

Lemma add_record_count (P : HealthRecord → Prop) `{∀ r, Decision (P r)} self record :
  sum_values (λ b, Z.of_nat (length (filter P b))) (records_by_year (add_record self record)) =
  sum_values (λ b, Z.of_nat (length (filter P b))) (records_by_year self)
    + (if decide (P record) then 1 else 0).
Proof.
  unfold add_record. simpl.
  rewrite insert_insert_eq, sum_values_insert.
  unfold bucket at 1. rewrite lookup_insert_eq. simpl.
  rewrite (sort_desc_Permutation record_date _).
  rewrite filter_app, length_app, filter_cons, filter_nil. unfold bucket.
  destruct (records_by_year self !! _); case_decide; simpl; lia.
Qed.

Lemma add_records_count (P : HealthRecord → Prop) `{∀ r, Decision (P r)} records : ∀ self,
  sum_values (λ b, Z.of_nat (length (filter P b))) (records_by_year (add_records self records)) =
  sum_values (λ b, Z.of_nat (length (filter P b))) (records_by_year self)
    + Z.of_nat (length (filter P records)).
Proof.
  induction records as [|record records IH]; intros self; simpl; [lia|].
  rewrite IH, add_record_count, filter_cons. case_decide; simpl; lia.
Qed.

Lemma add_records_count_records records : ∀ self,
  count_records (add_records self records) =
  count_records self + Z.of_nat (length records).
Proof.
  induction records as [|record records IH]; intros self; simpl; [lia|].
  rewrite IH, TimelineCounts.count_records_add_record. lia.
Qed.

(** X4. The severity index files every added record under its tier, in
    the order of addition: [get_critical_records] returns exactly the
    added records whose severity is CRITICAL, oldest addition first. *)
Theorem severity_index_spec records (tier : Severity) :
  bucket (severity_index (add_records init records)) tier
    = filter (λ r, severity r = tier) records ∧
  (get_critical_records (add_records init records)).1
    = filter (λ r, severity r = CRITICAL) records.
Proof.
  split; [|unfold get_critical_records; simpl];
    rewrite add_records_severity; unfold bucket at 1; simpl; by rewrite lookup_empty.
Qed.


(** X6. [get_most_visited_doctors] and [get_common_conditions] list the
    [limit] most frequent doctors and diagnoses of the added records,
    each once with its exact number of records, highest count first;
    nothing left out has a higher count than something listed, and among
    equal counts the item first added comes first. *)
Theorem most_common_spec records (limit : nat) :
  is_top_counts (doctor_id <$> records) limit
    (get_most_visited_doctors (add_records init records) limit) ∧
  is_top_counts (diagnosis <$> records) limit
    (get_common_conditions (add_records init records) limit).
Proof.
  unfold get_most_visited_doctors, get_common_conditions.
  rewrite add_records_doctor_visits, add_records_condition_frequency. simpl.
  split; apply CounterFacts.most_common_top.
Qed.

Lemma sum_values_touch {K} `{Countable K} (f : list HealthRecord → Z)
    (d : gmap K (list HealthRecord)) (k : K) :
  f [] = 0 → sum_values f (touch d k) = sum_values f d.
Proof.
  intros Hnil. unfold touch, bucket. rewrite sum_values_insert.
  destruct (d !! k); simpl; lia.
Qed.

(** X7. Reading a year or the critical records creates the bucket when
    it is missing, and that is all it does: every year listing, tier
    listing, total and counter reads the same afterwards. *)
Theorem timeline_reads_keep_answers self (year : Z) :
  let self1 := (get_records_by_year self year).2 in
  let self2 := (get_critical_records self).2 in
  (records_by_year self1 !! year = Some (bucket (records_by_year self) year) ∧
   (∀ y, bucket (records_by_year self1) y = bucket (records_by_year self) y) ∧
   count_records self1 = count_records self ∧
   (∀ now, HealthMetricsAggregator.count_recent now self1
             = HealthMetricsAggregator.count_recent now self) ∧
   severity_index self1 = severity_index self ∧
   doctor_visits self1 = doctor_visits self ∧
   condition_frequency self1 = condition_frequency self) ∧
  (severity_index self2 !! CRITICAL = Some (bucket (severity_index self) CRITICAL) ∧
   (∀ tier, bucket (severity_index self2) tier = bucket (severity_index self) tier) ∧
   records_by_year self2 = records_by_year self ∧
   doctor_visits self2 = doctor_visits self ∧
   condition_frequency self2 = condition_frequency self).
Proof.
  simpl. split_and!; try done.
  - apply lookup_insert_eq.
  - intros y. apply TimelineCounts.bucket_touch.
  - by apply sum_values_touch.
  - intros now. by apply sum_values_touch.
  - apply lookup_insert_eq.
  - intros tier. apply TimelineCounts.bucket_touch.
Qed.

End TimelineIndex.

(** ** More on the doctor analytics *)

Module DoctorIndex.
Import heapq HeapFacts DoctorAnalytics DoctorSpec RankingSpec.

Implicit Types (self : DoctorAnalytics.t) (doctors : list Doctor).

Lemma register_all_state doctors : ∀ self,
  heap_ok (workload_heap self) →
  ∃ self', register_all self doctors = Some self' ∧ heap_ok (workload_heap self') ∧
    workload_heap self' ≡ₚ (workload_item <$> doctors) ++ workload_heap self ∧
    ∀ specialization,
      default [] (specialization_map self' !! specialization) =
      default [] (specialization_map self !! specialization)
        ++ filter (λ d, d_specialization d = specialization) doctors.
Proof.
  induction doctors as [|doctor doctors IH]; intros self Hok; simpl.
  - exists self. split_and!; [done | done | done |]. intros. by rewrite app_nil_r.
  - destruct (DoctorFacts.add_doctor_ok self doctor Hok) as (self1 & Hadd & Hok1 & Hperm1).
    rewrite Hadd. simpl.
    destruct (IH self1 Hok1) as (self' & -> & Hok' & Hperm' & Hspec').
    exists self'. split_and!; [done | done | |].
    + rewrite Hperm', Hperm1. unfold workload_item at 2. by rewrite Permutation_middle.
    + intros specialization. rewrite Hspec', filter_cons.
      unfold add_doctor in Hadd.
      destruct (heappush _ _) as [heap|]; [|done]. simpl in Hadd.
      inversion Hadd; subst self1. simpl.
      destruct (decide (d_specialization doctor = specialization)) as [<-|Hne].
      * rewrite lookup_insert_eq. simpl. by rewrite <- (assoc_L (++)).
      * by rewrite lookup_insert_ne.
Qed.

(** X8. [get_doctors_by_specialization] returns the registered doctors of
    that specialization, in the order they were registered (none for a
    specialization never registered), and leaves the workload heap
    alone. *)
Theorem get_doctors_by_specialization_spec doctors :
  ∃ self, register_all init doctors = Some self ∧
    ∀ specialization,
      (get_doctors_by_specialization self specialization).1 =
        filter (λ d, d_specialization d = specialization) doctors ∧
      workload_heap (get_doctors_by_specialization self specialization).2 =
        workload_heap self.
Proof.
  destruct (register_all_state doctors init heap_ok_nil) as (self & Hreg & _ & _ & Hspec).
  exists self. split; [done|]. intros specialization.
  unfold get_doctors_by_specialization. simpl. split; [|done].
  rewrite Hspec. simpl. by rewrite lookup_empty.
Qed.

Lemma sort_asc_drop (heap heap' : list (Z * Z)) (n : nat) :
  heap ≡ₚ take n (sort_asc heap) ++ heap' →
  sort_asc heap' = drop n (sort_asc heap).
Proof.
  intros Hperm. apply (StronglySorted_unique py_le).
  - apply sort_asc_sorted.
  - pose proof (sort_asc_sorted heap) as Hs.
    rewrite <- (take_drop n (sort_asc heap)) in Hs.
    by apply StronglySorted_app_1_r in Hs.
  - rewrite sort_asc_Permutation.
    apply (Permutation_app_inv_l (take n (sort_asc heap))).
    by rewrite <- Hperm, take_drop, sort_asc_Permutation.
Qed.

Lemma drop_min_length {A} (count : Z) (l : list A) :
  drop (Z.to_nat (count `min` Z.of_nat (length l))) l = drop (Z.to_nat count) l.
Proof.
  destruct (decide (count ≤ Z.of_nat (length l))).
  - by rewrite Z.min_l.
  - rewrite Z.min_r, Nat2Z.id by lia. by rewrite !drop_ge by lia.
Qed.

(** The least-busy query in terms of the workload ranking. *)
Lemma get_least_busy_doctors_ranked self count :
  heap_ok (workload_heap self) →
  ∃ self', get_least_busy_doctors self count =
             Some (snd <$> take (Z.to_nat count) (sort_asc (workload_heap self)), self') ∧
    heap_ok (workload_heap self') ∧
    sort_asc (workload_heap self') = drop (Z.to_nat count) (sort_asc (workload_heap self)) ∧
    specialization_map self' = specialization_map self.
Proof.
  intros Hok.
  destruct (DoctorFacts.get_least_busy_doctors_drains self count Hok)
    as (self' & Hget & Hok' & Hperm & _).
  exists self'.
  rewrite <- (QueueFacts.take_min_length count (sort_asc (workload_heap self))).
  rewrite <- (drop_min_length count (sort_asc (workload_heap self))).
  rewrite !(Permutation_length (sort_asc_Permutation (workload_heap self))).
  split_and!; [done | done | by apply sort_asc_drop |].
  unfold get_least_busy_doctors in Hget.
  destruct (pop_ids _ _) as [[ids heap]|]; [|done]. simpl in Hget.
  by inversion Hget.
Qed.

(** X9. With the registered doctors ranked by (patient_count, doctor_id),
    [get_least_busy_doctors count] returns the ids of the first [count]
    doctors of the ranking and removes them, so the next call continues
    where this one stopped; the specialization index is not touched. *)
Theorem get_least_busy_doctors_consumes_ranking doctors (count1 count2 : Z) :
  let ranking := sort_asc (workload_item <$> doctors) in
  ∃ self self1 self2,
    register_all init doctors = Some self ∧
    get_least_busy_doctors self count1 =
      Some (snd <$> take (Z.to_nat count1) ranking, self1) ∧
    get_least_busy_doctors self1 count2 =
      Some (snd <$> take (Z.to_nat count2) (drop (Z.to_nat count1) ranking), self2) ∧
    sort_asc (workload_heap self2)
      = drop (Z.to_nat count2) (drop (Z.to_nat count1) ranking) ∧
    specialization_map self2 = specialization_map self.
Proof.
  intros ranking.
  destruct (register_all_state doctors init heap_ok_nil) as (self & Hreg & Hok & Hperm & _).
  simpl in Hperm. rewrite app_nil_r in Hperm.
  destruct (get_least_busy_doctors_ranked self count1 Hok) as (self1 & Hget1 & Hok1 & Hs1 & Hm1).
  destruct (get_least_busy_doctors_ranked self1 count2 Hok1) as (self2 & Hget2 & _ & Hs2 & Hm2).
  rewrite (sort_asc_proper _ _ Hperm) in Hget1, Hs1. fold ranking in Hget1, Hs1.
  rewrite Hs1 in Hget2, Hs2.
  exists self, self1, self2. split_and!; [done | done | done | done | congruence].
Qed.

End DoctorIndex.

(** ** More on the treatment queue *)

Module QueueIndex.
Import heapq HeapFacts TreatmentPriorityQueue QueueSpec QueueFacts RankingSpec.

Implicit Types (q : TreatmentPriorityQueue.t).

Lemma run_queued calls : ∀ q,
  queue_ok q →
  ∃ q', run q calls = Some q' ∧ queue_ok q' ∧
    urgent_treatments q' ≡ₚ queued calls ++ urgent_treatments q.
Proof.
  induction calls as [|c calls IH]; intros q Hok; simpl.
  - by exists q.
  - destruct c as [now1 now2 tid date sev | count]; simpl.
    + destruct (add_treatment_ok now1 now2 q tid date sev Hok) as (q1 & -> & Hok1 & Hperm1 & _).
      simpl. destruct (IH q1 Hok1) as (q' & Hrun & Hok' & Hperm').
      exists q'. split_and!; [done | done |].
      rewrite Hperm', Hperm1. by rewrite Permutation_middle.
    + destruct (get_next_urgent_treatments_ok q count Hok) as (q1 & -> & Hok1 & Hperm1 & _).
      simpl. destruct (IH q1 Hok1) as (q' & Hrun & Hok' & Hperm').
      exists q'. split_and!; [done | done |]. by rewrite Hperm', Hperm1.
Qed.

Lemma queued_elem_of calls now1 now2 treatment_id follow_up_date severity :
  AddTreatment now1 now2 treatment_id follow_up_date severity ∈ calls →
  (_calculate_priority now1 follow_up_date severity, follow_up_date, treatment_id)
    ∈ queued calls.
Proof.
  induction calls as [|c calls IH]; [by intros ?%elem_of_nil|].
  intros [<- | Hin]%elem_of_cons; simpl.
  - apply elem_of_cons. by left.
  - destruct c; [apply elem_of_cons; right|]; by apply IH.
Qed.


Lemma get_next_urgent_treatments_nonpositive q count :
  count ≤ 0 → get_next_urgent_treatments q count = Some ([], q).
Proof.
  intros Hcount. unfold get_next_urgent_treatments.
  replace (Z.to_nat (count `min` Z.of_nat (length (urgent_treatments q)))) with 0%nat by lia.
  simpl. by destruct q.
Qed.

(** X11. [get_next_urgent_treatments count] returns as many ids as asked
    for, or all of them when the queue holds fewer; asked for none or a
    negative number it returns nothing and leaves the queue as it is. *)
Theorem get_next_urgent_treatments_count (calls : list call) (count : Z) :
  ∃ q ids q', run init calls = Some q ∧
    get_next_urgent_treatments q count = Some (ids, q') ∧
    Z.of_nat (length ids) = 0 `max` (count `min` Z.of_nat (length (queued calls))) ∧
    (count ≤ 0 → q' = q).
Proof.
  destruct (run_queued calls init queue_ok_init) as (q & Hrun & Hok & Hperm).
  simpl in Hperm. rewrite app_nil_r in Hperm.
  destruct (get_next_urgent_treatments_ok q count Hok) as (q' & Hget & _).
  eexists q, _, q'. split_and!; [done | done | |].
  - rewrite length_fmap, length_take.
    rewrite (Permutation_length (sort_asc_Permutation (urgent_treatments q))).
    rewrite (Permutation_length Hperm). lia.
  - intros Hcount. rewrite get_next_urgent_treatments_nonpositive in Hget by done.
    by inversion Hget.
Qed.

(** X12. When both clock readings of an [add_treatment] call agree, the
    overdue check and the priority agree too: the treatment is recorded
    as overdue exactly when its priority lies below its severity offset,
    that is, when the number of days until due is negative. *)
Theorem overdue_iff_below_offset now q treatment_id follow_up_date severity q' :
  Datetime.valid now → Datetime.valid follow_up_date →
  add_treatment now now q treatment_id follow_up_date severity = Some q' →
  (treatment_id ∈ overdue_treatments q' ↔
     treatment_id ∈ overdue_treatments q ∨
     _calculate_priority now follow_up_date severity < severity_modifier severity).
Proof.
  intros Hnow Hdate Hadd. unfold add_treatment in Hadd.
  destruct (heappush _ _); [|done]. simpl in Hadd. inversion Hadd; subst q'. simpl.
  unfold _calculate_priority.
  destruct (py_lt follow_up_date now) eqn:Hlt.
  - pose proof (DatetimeFacts.sub_days_negative _ _ Hdate Hnow Hlt).
    rewrite elem_of_union, elem_of_singleton. split; [intros _; right; lia | by left].
  - pose proof (DatetimeFacts.sub_days_nonneg _ _ Hdate Hnow Hlt).
    split; [by left | intros [?|?]; [done | lia]].
Qed.

Lemma overdue_iff_below_offset_witness :
  ∃ q', add_treatment (Datetime.date 2024 7 1) (Datetime.date 2024 7 1) init 4
          (Datetime.date 2024 6 28) MILD = Some q' ∧
    (4 ∈ overdue_treatments q' ↔
       4 ∈ overdue_treatments init ∨
       _calculate_priority (Datetime.date 2024 7 1) (Datetime.date 2024 6 28) MILD
         < severity_modifier MILD).
Proof.
  eexists. split; [reflexivity|].
  apply (overdue_iff_below_offset (Datetime.date 2024 7 1) init 4
           (Datetime.date 2024 6 28) MILD); [| | reflexivity];
    unfold Datetime.valid; repeat split; vm_compute; (reflexivity || by intros [=]).
Defined.

End QueueIndex.

(** ** The engine state *)

Module EngineFacts.
Import HealthMetricsAggregator AggregatorSpec AggregatorFacts EngineSpec.

Implicit Types (self : HealthMetricsAggregator.t) (timeline : PatientTimeline.t).
Implicit Types (data : record_data) (records : list record_data).

Lemma summary_key_inj (u u' : Z) : summary_key u = summary_key u' → u = u'.
Proof.
  unfold summary_key. rewrite !StrFacts.append_cons, !StrFacts.append_nil.
  intros Heq. simplify_eq. by apply (inj pretty).
Qed.

Lemma cache_put_lookup {V} (c c' : HealthDataCache.t V) key value :
  HealthDataCache.put c key value = Some c' →
  HealthDataCache.cache c' !! key = Some value ∧
  ∀ j w, j ≠ key → HealthDataCache.cache c' !! j = Some w →
    HealthDataCache.cache c !! j = Some w.
Proof.
  unfold HealthDataCache.put. intros Hput.
  destruct (decide (is_Some (HealthDataCache.cache c !! key))).
  - destruct (deque_remove key (HealthDataCache.access_order c)) as [order|]; [|done].
    simpl in Hput. inversion Hput; subst c'. simpl.
    split; [apply lookup_insert_eq|]. intros j w Hj. by rewrite lookup_insert_ne.
  - destruct (decide (HealthDataCache.max_size c
                        ≤ Z.of_nat (size (HealthDataCache.cache c)))).
    + destruct (deque_popleft (HealthDataCache.access_order c)) as [[oldest order]|];
        [|done]. simpl in Hput.
      destruct (HealthDataCache.cache c !! oldest); [|done]. simpl in Hput.
      inversion Hput; subst c'. simpl.
      split; [apply lookup_insert_eq|]. intros j w Hj.
      rewrite lookup_insert_ne by done. by intros [_ ?]%lookup_delete_Some.
    + simpl in Hput. inversion Hput; subst c'. simpl.
      split; [apply lookup_insert_eq|]. intros j w Hj. by rewrite lookup_insert_ne.
Qed.

Lemma cache_get_cache {V} (c c' : HealthDataCache.t V) key value :
  HealthDataCache.get c key = Some (value, c') →
  HealthDataCache.cache c' = HealthDataCache.cache c ∧
  value = default PyNone (HealthDataCache.cache c !! key).
Proof.
  unfold HealthDataCache.get. intros Hget.
  destruct (HealthDataCache.cache c !! key) as [w|]; simpl.
  - destruct (deque_remove _ _); [|done]. simpl in Hget. by inversion Hget.
  - by inversion Hget.
Qed.

Lemma add_health_record_inv self data self' :
  add_health_record self data = Some self' →
  ∃ c', HealthDataCache.put (cache self) (timeline_key (rd_user_id data)) PyNone = Some c' ∧
    self' = mk
      (<[rd_user_id data :=
           PatientTimeline.add_record
             (default PatientTimeline.init (user_timelines self !! rd_user_id data))
             (record_of data)]> (user_timelines self))
      (doctor_analytics self) (treatment_queue self) c'.
Proof.
  unfold add_health_record. fold (record_of data). simpl. intros Hadd.
  destruct (user_timelines self !! rd_user_id data) as [timeline|] eqn:Hu.
  - rewrite decide_True in Hadd by by eexists. rewrite Hu in Hadd. simpl in Hadd.
    destruct (HealthDataCache.put _ _ _) as [c'|]; [|done]. simpl in Hadd.
    inversion Hadd. by exists c'.
  - rewrite decide_False in Hadd by by intros [? ?].
    rewrite lookup_insert_eq in Hadd. simpl in Hadd.
    destruct (HealthDataCache.put _ _ _) as [c'|]; [|done]. simpl in Hadd.
    inversion Hadd. exists c'. split; [done|]. by rewrite insert_insert_eq.
Qed.

Lemma get_user_health_summary_inv now self user_id result self' :
  get_user_health_summary now self user_id = Some (result, self') →
  ∃ cached c1,
    HealthDataCache.get (cache self) (summary_key user_id) = Some (cached, c1) ∧
    ((∃ s, cached = PyObj s ∧ result = SummaryOk s ∧
        self' = mk (user_timelines self) (doctor_analytics self) (treatment_queue self) c1) ∨
     (cached = PyNone ∧ user_timelines self !! user_id = None ∧
        result = SummaryError "No health records found" ∧
        self' = mk (user_timelines self) (doctor_analytics self) (treatment_queue self) c1) ∨
     (cached = PyNone ∧ ∃ timeline c2,
        user_timelines self !! user_id = Some timeline ∧
        HealthDataCache.put c1 (summary_key user_id) (PyObj (fresh_summary now timeline))
          = Some c2 ∧
        result = SummaryOk (fresh_summary now timeline) ∧
        self' = mk (<[user_id := (PatientTimeline.get_critical_records timeline).2]>
                      (user_timelines self))
                   (doctor_analytics self) (treatment_queue self) c2)).
Proof.
  unfold get_user_health_summary. intros Hget.
  destruct (HealthDataCache.get _ _) as [[cached c1]|]; [|done]. simpl in Hget.
  exists cached, c1. split; [done|].
  destruct cached as [|s].
  - destruct (user_timelines self !! user_id) as [timeline|] eqn:Hu.
    + right. right. split; [done|].
      unfold PatientTimeline.get_most_visited_doctors,
        PatientTimeline.get_common_conditions in Hget. simpl in Hget.
      fold (fresh_summary now timeline) in Hget.
      destruct (HealthDataCache.put _ _ _) as [c2|] eqn:Hput; [|done]. simpl in Hget.
      inversion Hget. by exists timeline, c2.
    + right. left. by inversion Hget.
  - left. inversion Hget. by exists s.
Qed.


Lemma same_contents_refl timeline : same_contents timeline timeline.
Proof. by split_and!. Qed.

Lemma same_contents_add_record a b record :
  same_contents a b →
  same_contents (PatientTimeline.add_record a record) (PatientTimeline.add_record b record).
Proof.
  intros (Hyear & Htier & Hdoc & Hcond). unfold PatientTimeline.add_record.
  split_and!; simpl.
  - by rewrite Hyear.
  - intros tier. unfold PatientTimeline.bucket at 1 3.
    destruct (decide (severity record = tier)) as [<-|Hne].
    + rewrite !lookup_insert_eq. simpl. by rewrite Htier.
    + rewrite !lookup_insert_ne by done. apply Htier.
  - by rewrite Hdoc.
  - by rewrite Hcond.
Qed.

Lemma same_contents_touch timeline b :
  same_contents timeline b →
  same_contents (PatientTimeline.get_critical_records timeline).2 b.
Proof.
  intros (Hyear & Htier & Hdoc & Hcond). split_and!; simpl; [done | | done | done].
  intros tier. by rewrite TimelineCounts.bucket_touch.
Qed.

Lemma records_of_user_snoc user_id records data :
  records_of_user user_id (records ++ [data]) =
  records_of_user user_id records
    ++ (if decide (rd_user_id data = user_id) then [data] else []).
Proof.
  unfold records_of_user. rewrite filter_app, filter_cons, filter_nil.
  by case_decide.
Qed.

Lemma timelines_ok_init : timelines_ok [] init.
Proof. intros user_id. simpl. by rewrite lookup_empty. Qed.

Lemma timelines_ok_add records self data c' :
  timelines_ok records self →
  timelines_ok (records ++ [data])
    (mk (<[rd_user_id data :=
             PatientTimeline.add_record
               (default PatientTimeline.init (user_timelines self !! rd_user_id data))
               (record_of data)]> (user_timelines self))
        (doctor_analytics self) (treatment_queue self) c').
Proof.
  intros Hok user_id. simpl. specialize (Hok user_id).
  rewrite records_of_user_snoc.
  destruct (decide (rd_user_id data = user_id)) as [<-|Hne].
  - rewrite lookup_insert_eq. split; [by destruct (records_of_user _ records)|].
    rewrite fmap_app. unfold TimelineSpec.add_records. rewrite foldl_app. simpl.
    apply same_contents_add_record.
    destruct (user_timelines self !! rd_user_id data) as [timeline|]; simpl.
    + by destruct Hok.
    + rewrite Hok. simpl. apply same_contents_refl.
  - rewrite lookup_insert_ne by done. by rewrite app_nil_r.
Qed.

Lemma timelines_ok_touch records self user_id timeline c' :
  timelines_ok records self →
  user_timelines self !! user_id = Some timeline →
  timelines_ok records
    (mk (<[user_id := (PatientTimeline.get_critical_records timeline).2]>
           (user_timelines self))
        (doctor_analytics self) (treatment_queue self) c').
Proof.
  intros Hok Hu u. simpl. specialize (Hok u).
  destruct (decide (user_id = u)) as [<-|Hne].
  - rewrite lookup_insert_eq. rewrite Hu in Hok. destruct Hok as [Hne Hsame].
    split; [done|]. by apply same_contents_touch.
  - by rewrite lookup_insert_ne.
Qed.

Lemma cache_keys_ok_init : cache_keys_ok init.
Proof. intros key value Hkey. simpl in Hkey. by rewrite lookup_empty in Hkey. Qed.

Lemma cache_keys_ok_add self data self' :
  cache_keys_ok self → add_health_record self data = Some self' → cache_keys_ok self'.
Proof.
  intros Hok (c' & Hput & ->)%add_health_record_inv key value Hkey. simpl in *.
  destruct (cache_put_lookup _ _ _ _ Hput) as [Hnew Hold].
  assert (Hgrow : ∀ u, is_Some (user_timelines self !! u) →
    is_Some (<[rd_user_id data :=
        PatientTimeline.add_record
          (default PatientTimeline.init (user_timelines self !! rd_user_id data))
          (record_of data)]> (user_timelines self) !! u)).
  { intros u Hu. rewrite lookup_insert. by case_decide. }
  destruct (decide (key = timeline_key (rd_user_id data))) as [->|Hne].
  - rewrite Hnew in Hkey. inversion Hkey; subst value.
    exists (rd_user_id data). split; [|by left].
    rewrite lookup_insert_eq. by eexists.
  - destruct (Hok key value (Hold key value Hne Hkey)) as (u & Hu & Hcase).
    exists u. split; [by apply Hgrow | done].
Qed.

Lemma cache_keys_ok_summary now self user_id result self' :
  cache_keys_ok self →
  get_user_health_summary now self user_id = Some (result, self') →
  cache_keys_ok self'.
Proof.
  intros Hok (cached & c1 & Hget & Hcase)%get_user_health_summary_inv.
  destruct (cache_get_cache _ _ _ _ Hget) as [Hc1 _].
  destruct Hcase as [(s & _ & _ & ->) | [(_ & _ & _ & ->) |
    (_ & timeline & c2 & Hu & Hput & _ & ->)]]; intros key value Hkey; simpl in *.
  - rewrite Hc1 in Hkey. by apply Hok.
  - rewrite Hc1 in Hkey. by apply Hok.
  - destruct (cache_put_lookup _ _ _ _ Hput) as [Hnew Hold].
    assert (Hgrow : ∀ u, is_Some (user_timelines self !! u) →
      is_Some (<[user_id := (PatientTimeline.get_critical_records timeline).2]>
                 (user_timelines self) !! u)).
    { intros u Hu'. rewrite lookup_insert. by case_decide. }
    destruct (decide (key = summary_key user_id)) as [->|Hne].
    + rewrite Hnew in Hkey. inversion Hkey; subst value.
      exists user_id. split; [|right; split; [done | by eexists]].
      rewrite lookup_insert_eq. by eexists.
    + apply Hold in Hkey; [|done]. rewrite Hc1 in Hkey.
      destruct (Hok key value Hkey) as (u & Hu' & Hcase).
      exists u. split; [by apply Hgrow | done].
Qed.

Lemma filter_fmap_length {A B} (f : A → B) (P : B → Prop) `{∀ b, Decision (P b)}
    (l : list A) :
  length (filter P (f <$> l)) = length (filter (λ a, P (f a)) l).
Proof.
  induction l as [|a l IH]; [done|].
  rewrite fmap_cons, !filter_cons. destruct (decide (P (f a))); simpl; by rewrite IH.
Qed.

Lemma fresh_summary_summarises now timeline records :
  same_contents timeline
    (TimelineSpec.add_records PatientTimeline.init (record_of <$> records)) →
  summarises now records (fresh_summary now timeline).
Proof.
  intros (Hyear & Htier & Hdoc & Hcond).
  unfold summarises, fresh_summary. simpl. split_and!.
  - unfold PatientTimeline.count_records. rewrite Hyear.
    fold (PatientTimeline.count_records
      (TimelineSpec.add_records PatientTimeline.init (record_of <$> records))).
    rewrite TimelineIndex.add_records_count_records, TimelineCounts.count_records_init.
    rewrite length_fmap. lia.
  - rewrite Htier, TimelineIndex.add_records_severity.
    unfold PatientTimeline.bucket at 1. simpl. rewrite lookup_empty. simpl.
    unfold tier_count. by rewrite filter_fmap_length.
  - rewrite Hdoc, TimelineIndex.add_records_doctor_visits. simpl.
    rewrite <- list_fmap_compose.
    apply (CounterFacts.most_common_top (rd_doctor_id <$> records) 3).
  - rewrite Hcond, TimelineIndex.add_records_condition_frequency. simpl.
    rewrite <- list_fmap_compose.
    apply (CounterFacts.most_common_top (rd_diagnosis <$> records) 5).
  - unfold count_recent. rewrite Hyear.
    rewrite (TimelineIndex.add_records_count
      (λ r, Datetime.sub_days now (record_date r) ≤ 30)).
    simpl. rewrite sum_values_empty, filter_fmap_length. simpl. lia.
Qed.

Lemma summaries_ok_init : summaries_ok [] [] init.
Proof. intros u s Hkey. simpl in Hkey. by rewrite lookup_empty in Hkey. Qed.

Lemma tiers_ok_init : tiers_ok [] [] init.
Proof.
  split.
  - intros u Hin. by apply elem_of_nil in Hin.
  - intros u timeline tier Hu. simpl in Hu. by rewrite lookup_empty in Hu.
Qed.

Lemma engine_ok_init : engine_ok [] [] init.
Proof.
  split_and!; [apply cache_ok_init | apply timelines_ok_init |
    apply cache_keys_ok_init | apply summaries_ok_init | apply tiers_ok_init].
Qed.

Lemma records_of_user_grow user_id records more :
  records_of_user user_id records ≠ [] →
  records_of_user user_id (records ++ more) ≠ [].
Proof.
  unfold records_of_user. rewrite filter_app.
  by destruct (filter _ records).
Qed.

Lemma tiers_ok_add records users self data c' :
  timelines_ok records self → tiers_ok records users self →
  tiers_ok (records ++ [data]) users
    (mk (<[rd_user_id data :=
             PatientTimeline.add_record
               (default PatientTimeline.init (user_timelines self !! rd_user_id data))
               (record_of data)]> (user_timelines self))
        (doctor_analytics self) (treatment_queue self) c').
Proof.
  intros Htl [Husers Htiers]. split.
  - intros u Hin. by apply records_of_user_grow, Husers.
  - intros u timeline tier. simpl.
    destruct (decide (rd_user_id data = u)) as [<-|Hne].
    + rewrite lookup_insert_eq. intros [= <-].
      unfold PatientTimeline.add_record, PatientTimeline.bucket. simpl.
      destruct (decide (_calculate_severity (rd_diagnosis data) = tier)) as [<-|Hne].
      * rewrite lookup_insert_eq. simpl. split; [|by eexists].
        intros _. left. by destruct (default [] _).
      * rewrite lookup_insert_ne by done.
        specialize (Htl (rd_user_id data)).
        destruct (user_timelines self !! rd_user_id data) as [old|] eqn:Hu; simpl.
        -- apply (Htiers _ _ tier Hu).
        -- rewrite lookup_empty. simpl. split; [by intros [? ?]|].
           intros [? | [_ Hin]]; [done|]. by apply Husers in Hin.
    + rewrite lookup_insert_ne by done. apply Htiers.
Qed.

Lemma tiers_ok_again records users self user_id c' :
  tiers_ok records users self → user_id ∈ users →
  tiers_ok records (users ++ [user_id])
    (mk (user_timelines self) (doctor_analytics self) (treatment_queue self) c').
Proof.
  intros [Husers Htiers] Hin. split.
  - intros u [? | ->%list_elem_of_singleton]%elem_of_app; by apply Husers.
  - intros u timeline tier Hu. simpl in Hu. rewrite (Htiers u timeline tier Hu).
    rewrite elem_of_app, list_elem_of_singleton.
    split; [tauto|]. intros [? | [-> [? | ->]]]; tauto.
Qed.

Lemma tiers_ok_touch records users self user_id timeline c' :
  timelines_ok records self → tiers_ok records users self →
  user_timelines self !! user_id = Some timeline →
  tiers_ok records (users ++ [user_id])
    (mk (<[user_id := (PatientTimeline.get_critical_records timeline).2]>
           (user_timelines self))
        (doctor_analytics self) (treatment_queue self) c').
Proof.
  intros Htl [Husers Htiers] Hu. split.
  - intros u [? | ->%list_elem_of_singleton]%elem_of_app; [by apply Husers|].
    specialize (Htl user_id). rewrite Hu in Htl. by destruct Htl.
  - intros u timeline' tier. simpl.
    rewrite elem_of_app, list_elem_of_singleton.
    destruct (decide (user_id = u)) as [<-|Hne].
    + rewrite lookup_insert_eq. intros [= <-]. simpl.
      rewrite TimelineCounts.bucket_touch. unfold PatientTimeline.touch.
      destruct (decide (CRITICAL = tier)) as [<-|Hne].
      * rewrite lookup_insert_eq. split; [|by eexists]. intros _. right. tauto.
      * rewrite lookup_insert_ne by done. rewrite (Htiers _ _ tier Hu).
        split; [tauto|]. intros [? | [-> _]]; [tauto | done].
    + rewrite lookup_insert_ne by done. intros Hu'.
      rewrite (Htiers _ _ tier Hu'). split; [tauto|].
      intros [? | [-> [? | ->]]]; [tauto | tauto | done].
Qed.

Lemma engine_ok_add records users self data :
  engine_ok records users self →
  ∃ self', add_health_record self data = Some self' ∧
    engine_ok (records ++ [data]) users self'.
Proof.
  intros (Hcache & Htl & Hkeys & Hsum & Htiers).
  destruct (add_health_record_ok self data Hcache) as (self' & Hadd & Hcache' & _).
  exists self'. split; [done|].
  split_and!; [done | | by eapply cache_keys_ok_add | |].
  - destruct (add_health_record_inv _ _ _ Hadd) as (c' & _ & ->).
    by apply timelines_ok_add.
  - destruct (add_health_record_inv _ _ _ Hadd) as (c' & Hput & ->).
    destruct (cache_put_lookup _ _ _ _ Hput) as [_ Hold].
    intros u s Hkey. simpl in Hkey.
    apply Hold in Hkey; [|intros Heq; by apply (keys_distinct (rd_user_id data) u)].
    destruct (Hsum u s Hkey) as (Hin & now & earlier & Hpre & Hne & Hs).
    split; [done|]. exists now, earlier. split_and!; [|done|done].
    by apply prefix_app_r.
  - destruct (add_health_record_inv _ _ _ Hadd) as (c' & _ & ->).
    by apply tiers_ok_add.
Qed.

Lemma engine_ok_summary records users now self user_id :
  engine_ok records users self →
  ∃ result self', get_user_health_summary now self user_id = Some (result, self') ∧
    engine_ok records
      (users ++ if decide (records_of_user user_id records = []) then [] else [user_id])
      self'.
Proof.
  intros (Hcache & Htl & Hkeys & Hsum & Htiers).
  destruct (get_user_health_summary_ok now self user_id Hcache)
    as (result & self' & Hget & Hcache' & _).
  exists result, self'. split; [done|].
  pose proof (cache_keys_ok_summary _ _ _ _ _ Hkeys Hget) as Hkeys'.
  destruct (get_user_health_summary_inv _ _ _ _ _ Hget)
    as (cached & c1 & Hget1 & Hcase).
  destruct (cache_get_cache _ _ _ _ Hget1) as [Hc1 Hcached].
  assert (Hold : ∀ more u s,
    HealthDataCache.cache (cache self) !! summary_key u = Some (PyObj s) →
    u ∈ users ++ more ∧
    ∃ now' earlier, earlier `prefix_of` records ∧
      records_of_user u earlier ≠ [] ∧ summarises now' (records_of_user u earlier) s).
  { intros more u s Hkey. destruct (Hsum u s Hkey) as [Hin Hrest].
    split; [apply elem_of_app; by left | done]. }
  destruct Hcase as [(s & -> & _ & ->) | [(_ & Hu & _ & ->) |
    (_ & timeline & c2 & Hu & Hput & _ & ->)]].
  - (* served from the cache *)
    destruct (HealthDataCache.cache (cache self) !! summary_key user_id) as [w|] eqn:Hkey;
      simpl in Hcached; [subst w | done].
    destruct (Hsum user_id s Hkey) as [Hin _].
    rewrite decide_False by by apply Htiers.
    split_and!; [done | intros u; apply Htl | done | | by apply tiers_ok_again].
    intros u s' Hkey'. simpl in Hkey'. rewrite Hc1 in Hkey'. by apply Hold.
  - (* no records *)
    specialize (Htl user_id) as Hnone. rewrite Hu in Hnone.
    rewrite decide_True by done. rewrite app_nil_r.
    split_and!; [done | intros u; apply Htl | done | |].
    + intros u s' Hkey'. simpl in Hkey'. rewrite Hc1 in Hkey'. by apply Hsum.
    + destruct Htiers as [Husers Hdom]. split; [done|]. intros u. apply Hdom.
  - (* computed and stored *)
    specialize (Htl user_id) as Hsome. rewrite Hu in Hsome. destruct Hsome as [Hne Hsame].
    rewrite decide_False by done.
    split_and!; [done | by apply timelines_ok_touch | done | | by apply tiers_ok_touch].
    destruct (cache_put_lookup _ _ _ _ Hput) as [Hnew Hold'].
    intros u s' Hkey. simpl in Hkey.
    destruct (decide (u = user_id)) as [->|Hneq].
    + rewrite Hnew in Hkey. inversion Hkey; subst s'.
      split; [apply elem_of_app; right; by apply list_elem_of_singleton|].
      exists now, records. split_and!; [done | done |].
      by apply fresh_summary_summarises.
    + apply Hold' in Hkey; [|by intros ?%summary_key_inj].
      rewrite Hc1 in Hkey. by apply Hold.
Qed.

(** Every engine reached by calls is consistent with the calls made. *)
Lemma run_engine calls : ∀ self records users,
  engine_ok records users self →
  ∃ self', run self calls = Some self' ∧
    engine_ok (records ++ added calls) (users ++ served records calls) self'.
Proof.
  induction calls as [|c calls IH]; intros self records users Hok; simpl.
  - exists self. by rewrite !app_nil_r.
  - destruct c as [data | now user_id]; simpl.
    + destruct (engine_ok_add records users self data Hok) as (self1 & -> & Hok1).
      simpl. destruct (IH self1 _ _ Hok1) as (self' & Hrun & Hok').
      exists self'. split; [done|]. by rewrite <- (assoc_L (++)) in Hok'.
    + destruct (engine_ok_summary records users now self user_id Hok)
        as (result & self1 & -> & Hok1).
      simpl. destruct (IH self1 _ _ Hok1) as (self' & Hrun & Hok').
      exists self'. split; [done|]. by rewrite <- (assoc_L (++)) in Hok'.
Qed.

Lemma run_init calls :
  ∃ self, run init calls = Some self ∧ engine_ok (added calls) (served [] calls) self.
Proof. apply (run_engine calls init [] [] engine_ok_init). Qed.

Lemma served_requested calls : ∀ records u,
  u ∈ served records calls → u ∈ requested calls.
Proof.
  induction calls as [|c calls IH]; intros records u; simpl; [done|].
  destruct c as [data | now user_id]; [apply IH|].
  rewrite elem_of_app, elem_of_cons. intros [Hin | Hin]; [|right; by eapply IH].
  case_decide; [by apply elem_of_nil in Hin | left; by apply list_elem_of_singleton in Hin].
Qed.

Lemma no_records_no_summary records users self user_id :
  engine_ok records users self → records_of_user user_id records = [] →
  user_timelines self !! user_id = None ∧
  HealthDataCache.cache (cache self) !! summary_key user_id = None.
Proof.
  intros (_ & Htl & Hkeys & _ & _) Hnone.
  assert (Hu : user_timelines self !! user_id = None).
  { specialize (Htl user_id). destruct (user_timelines self !! user_id); [|done].
    by destruct Htl. }
  split; [done|].
  destruct (HealthDataCache.cache (cache self) !! summary_key user_id) as [value|] eqn:Hkey;
    [|done].
  destruct (Hkeys _ _ Hkey) as (u & [timeline Hu'] & [[Heq _] | [Heq _]]).
  - symmetry in Heq. by apply keys_distinct in Heq.
  - apply summary_key_inj in Heq as ->. congruence.
Qed.

Lemma summary_unknown_user records users now self user_id :
  engine_ok records users self → records_of_user user_id records = [] →
  get_user_health_summary now self user_id
    = Some (SummaryError "No health records found", self).
Proof.
  intros Hok Hnone.
  destruct (no_records_no_summary _ _ _ _ Hok Hnone) as [Hu Hkey].
  unfold get_user_health_summary. rewrite (CacheFacts.get_miss _ _ Hkey). simpl.
  rewrite Hu. by destruct self.
Qed.

Lemma summary_known_user records users now self user_id result self' :
  engine_ok records users self → records_of_user user_id records ≠ [] →
  get_user_health_summary now self user_id = Some (result, self') →
  ∃ s, result = SummaryOk s ∧
    (HealthDataCache.cache (cache self) !! summary_key user_id = None →
     summarises now (records_of_user user_id records) s).
Proof.
  intros (_ & Htl & Hkeys & _ & _) Hne Hget.
  specialize (Htl user_id).
  destruct (get_user_health_summary_inv _ _ _ _ _ Hget)
    as (cached & c1 & Hget1 & [(s & -> & -> & _) | [(_ & Hu & _ & _) |
         (_ & timeline & c2 & Hu & _ & -> & _)]]).
  - exists s. split; [done|]. intros Hkey.
    destruct (cache_get_cache _ _ _ _ Hget1) as [_ Hcached].
    by rewrite Hkey in Hcached.
  - by rewrite Hu in Htl.
  - eexists. split; [done|]. intros _. rewrite Hu in Htl. destruct Htl as [_ Hsame].
    by apply fresh_summary_summarises.
Qed.

Lemma last_surv {V} (c : HealthDataCache.t V) k (w : pyval V) :
  CacheSpec.wf c → last (HealthDataCache.access_order c) = Some k →
  HealthDataCache.cache c !! k = Some w → CacheSpec.surv k w 0 c.
Proof.
  intros [Hnd _] [order Ho]%last_Some Hk. unfold CacheSpec.surv. rewrite Ho in Hnd |- *.
  assert (Hnin : k ∉ order).
  { apply NoDup_app in Hnd as (_ & Hdisj & _). intros Hin.
    apply (Hdisj k Hin), list_elem_of_singleton. done. }
  split_and!; [apply elem_of_app; right; by apply list_elem_of_singleton | | done].
  by rewrite CacheFacts.behind_last.
Qed.

(** A summary that has just been served is cached under the most
    recently used key. *)
Lemma summary_served_last now self user_id s self1 :
  cache_ok self →
  get_user_health_summary now self user_id = Some (SummaryOk s, self1) →
  last (HealthDataCache.access_order (cache self1)) = Some (summary_key user_id) ∧
  HealthDataCache.cache (cache self1) !! summary_key user_id = Some (PyObj s).
Proof.
  intros [hist (_ & Hwf & _)] Hget. simpl in Hwf.
  destruct (get_user_health_summary_inv _ _ _ _ _ Hget)
    as (cached & c1 & Hget1 & [(s' & -> & [= <-] & ->) | [(_ & _ & ? & _) |
         (_ & timeline & c2 & Hu & Hput & [= ->] & ->)]]); [|done|]; simpl.
  - destruct (cache_get_cache _ _ _ _ Hget1) as [Hc1 Hcached].
    destruct (HealthDataCache.cache (cache self) !! summary_key user_id) as [w|] eqn:Hkey;
      simpl in Hcached; [subst w | done].
    destruct (CacheFacts.get_hit _ _ _ Hwf Hkey) as (l1 & l2 & _ & Hhit).
    rewrite Hhit in Hget1. inversion Hget1; subst c1. simpl.
    split; [apply last_snoc | done].
  - destruct (cache_put_lookup _ _ _ _ Hput) as [Hnew _].
    destruct (put_shape _ _ _ _ Hput) as (m & order & ->). simpl.
    split; [apply last_snoc | by rewrite lookup_insert_eq].
Qed.

Lemma added_adds (more : list record_data) : added (AddHealthRecord <$> more) = more.
Proof.
  induction more as [|data more IH]; [done|].
  rewrite fmap_cons. simpl. by rewrite IH.
Qed.

(** A cached entry with few keys queued behind it outlives that many
    [add_health_record] calls. *)
Lemma adds_keep_entry (more : list record_data) : ∀ (i : nat) self hist user_id w,
  CacheSpec.inv 100 (cache self, hist) →
  CacheSpec.surv (summary_key user_id) w i (cache self) →
  (i + length more ≤ 99)%nat →
  ∃ self', run self (AddHealthRecord <$> more) = Some self' ∧
    HealthDataCache.cache (cache self') !! summary_key user_id = Some w.
Proof.
  induction more as [|data more IH]; intros i self hist user_id w Hinv Hsurv Hlen; simpl.
  - exists self. split; [done|]. by destruct Hsurv as (_ & _ & ?).
  - simpl in Hlen.
    destruct (CacheFacts.surv_step 100 (summary_key user_id) w i (cache self, hist)
      (CacheSpec.Put (timeline_key (rd_user_id data)) PyNone))
      as ([c' hist'] & Hstep & Hsurv'); [done | lia | done | lia | apply keys_distinct |].
    pose proof (CacheFacts.inv_step 100 _ _ _ Hinv Hstep) as Hinv'.
    simpl in Hstep, Hsurv'.
    destruct (HealthDataCache.put (cache self) _ _) as [c1|] eqn:Hput; [|done].
    simpl in Hstep. inversion Hstep; subst c1 hist'.
    destruct (add_health_record_ok self data) as (self1 & Hadd & _); [by exists hist|].
    rewrite Hadd. simpl.
    destruct (add_health_record_inv _ _ _ Hadd) as (c1 & Hput1 & ->).
    rewrite Hput in Hput1. inversion Hput1; subst c1.
    apply (IH (S i) _ (timeline_key (rd_user_id data) :: hist)); [done | done | lia].
Qed.

Lemma summary_hit now self user_id s :
  cache_ok self →
  HealthDataCache.cache (cache self) !! summary_key user_id = Some (PyObj s) →
  ∃ self', get_user_health_summary now self user_id = Some (SummaryOk s, self').
Proof.
  intros Hcache Hkey.
  destruct (get_user_health_summary_ok now self user_id Hcache)
    as (result & self' & Hget & _).
  destruct (get_user_health_summary_inv _ _ _ _ _ Hget)
    as (cached & c1 & Hget1 & Hcase).
  destruct (cache_get_cache _ _ _ _ Hget1) as [_ Hcached].
  rewrite Hkey in Hcached. simpl in Hcached. subst cached.
  destruct Hcase as [(s' & [= <-] & -> & _) | [(? & _) | (? & _)]]; [|done|done].
  by exists self'.
Qed.



(** X15. A summary, once served, is kept: the next request for the user
    returns the same summary whatever the clock reads by then and
    whichever records, up to 99 of them and of any users, were added in
    between. The error answer is repeated as long as no record of the
    user is added. *)
Theorem served_summary_is_kept (calls : list call) (now1 now2 : Datetime.t)
    (user_id : Z) (more : list record_data) :
  (length more ≤ 99)%nat →
  ∃ self result self1 self2 result' self3,
    run init calls = Some self ∧
    get_user_health_summary now1 self user_id = Some (result, self1) ∧
    run self1 (AddHealthRecord <$> more) = Some self2 ∧
    get_user_health_summary now2 self2 user_id = Some (result', self3) ∧
    (∀ s, result = SummaryOk s → result' = result) ∧
    (records_of_user user_id more = [] → result' = result).
Proof.
  intros Hlen. destruct (run_init calls) as (self & Hrun & Hok).
  destruct (engine_ok_summary _ _ now1 self user_id Hok) as (result & self1 & Hget & Hok1).
  destruct (run_engine (AddHealthRecord <$> more) self1 _ _ Hok1)
    as (self2 & Hrun2 & Hok2).
  rewrite added_adds in Hok2.
  destruct result as [s | msg].
  - destruct (summary_served_last _ _ _ _ _ (proj1 Hok) Hget) as [Hlast Hkey].
    destruct Hok1 as ([hist Hinv] & _).
    destruct (adds_keep_entry more 0 self1 hist user_id (PyObj s) Hinv)
      as (self2' & Hrun2' & Hkey2); [|done|].
    { apply last_surv; [by destruct Hinv as (_ & ? & _) | done | done]. }
    rewrite Hrun2 in Hrun2'. inversion Hrun2'; subst self2'.
    destruct (summary_hit now2 self2 user_id s (proj1 Hok2) Hkey2) as (self3 & Hget2).
    exists self, (SummaryOk s), self1, self2, (SummaryOk s), self3.
    by split_and!.
  - assert (Hnone : records_of_user user_id (added calls) = []).
    { destruct (decide (records_of_user user_id (added calls) = [])) as [|Hsome]; [done|].
      by destruct (summary_known_user _ _ _ _ _ _ _ Hok Hsome Hget) as (s & ? & _). }
    destruct (engine_ok_summary _ _ now2 self2 user_id Hok2)
      as (result' & self3 & Hget2 & _).
    exists self, (SummaryError msg), self1, self2, result', self3.
    split_and!; [done | done | done | done | done |].
    intros Hmore.
    rewrite (summary_unknown_user _ _ now1 self user_id Hok Hnone) in Hget.
    rewrite (summary_unknown_user _ _ now2 self2 user_id Hok2) in Hget2.
    + congruence.
    + unfold records_of_user in *. by rewrite filter_app, Hnone, Hmore.
Qed.

(** X16. The engine's cache never grows beyond 100 entries, and all it
    ever holds is [None] under the timeline key and a summary under the
    summary key of users that have records; the summary key, the only
    one the engine reads, never holds [None]. *)
Theorem engine_cache_entries (calls : list call) :
  ∃ self, run init calls = Some self ∧
    Z.of_nat (size (HealthDataCache.cache (cache self))) ≤ 100 ∧
    ∀ key value, HealthDataCache.cache (cache self) !! key = Some value →
      ∃ user_id, records_of_user user_id (added calls) ≠ [] ∧
        (key = timeline_key user_id ∧ value = PyNone ∨
         key = summary_key user_id ∧ user_id ∈ requested calls ∧
           ∃ s, value = PyObj s).
Proof.
  destruct (run_init calls) as (self & Hrun & [hist Hinv] & Htl & Hkeys & Hsum & _).
  exists self. split_and!; [done | by destruct Hinv as (_ & _ & ? & _) |].
  intros key value Hkey.
  destruct (Hkeys key value Hkey) as (u & [timeline Hu] & Hcase).
  exists u. split.
  - specialize (Htl u). rewrite Hu in Htl. by destruct Htl.
  - destruct Hcase as [? | [-> [s ->]]]; [by left | right].
    destruct (Hsum u s Hkey) as [Hin _].
    split_and!; [done | by eapply served_requested | by exists s].
Qed.

Lemma dist_add_keys (index : gmap Severity (list HealthRecord)) (dist : gmap string Z) :
  ∀ key, is_Some (map_fold dist_add dist index !! key) ↔
    is_Some (dist !! key) ∨ ∃ tier, key = severity_value tier ∧ is_Some (index !! tier).
Proof.
  apply (map_fold_weak_ind
    (λ (r : gmap string Z) (m : gmap Severity (list HealthRecord)),
       ∀ key, is_Some (r !! key) ↔
         is_Some (dist !! key) ∨ ∃ tier, key = severity_value tier ∧ is_Some (m !! tier))
    dist_add dist).
  - intros key. split; [by left|]. intros [? | (tier & _ & Hin)]; [done|].
    rewrite lookup_empty in Hin. by destruct Hin.
  - intros tier0 records m r Hnone IH key. unfold dist_add.
    destruct (decide (severity_value tier0 = key)) as [<-|Hne].
    + rewrite lookup_insert_eq. split; [|by eexists]. intros _. right.
      exists tier0. by rewrite lookup_insert_eq.
    + rewrite lookup_insert_ne by done. rewrite IH. split.
      * intros [? | (tier & -> & Hin)]; [by left | right]. exists tier.
        split; [done|]. rewrite lookup_insert_ne by congruence. done.
      * intros [? | (tier & -> & Hin)]; [by left | right]. exists tier.
        split; [done|]. rewrite lookup_insert_ne in Hin by congruence. done.
Qed.

Lemma severity_dist_keys (timelines : gmap Z PatientTimeline.t) :
  ∀ key,
    is_Some (map_fold (λ _ timeline dist,
                 map_fold dist_add dist (PatientTimeline.severity_index timeline))
               ∅ timelines !! key) ↔
    ∃ user_id timeline tier, timelines !! user_id = Some timeline ∧
      key = severity_value tier ∧
      is_Some (PatientTimeline.severity_index timeline !! tier).
Proof.
  apply (map_fold_weak_ind
    (λ (r : gmap string Z) (m : gmap Z PatientTimeline.t),
       ∀ key, is_Some (r !! key) ↔
         ∃ user_id timeline tier, m !! user_id = Some timeline ∧
           key = severity_value tier ∧
           is_Some (PatientTimeline.severity_index timeline !! tier))
    (λ _ timeline dist,
       map_fold dist_add dist (PatientTimeline.severity_index timeline)) ∅).
  - intros key. rewrite lookup_empty. split; [by intros [? ?]|].
    intros (u & timeline & tier & Hu & _). by rewrite lookup_empty in Hu.
  - intros u timeline m r Hnone IH key. rewrite dist_add_keys, IH. split.
    + intros [(u' & timeline' & tier & Hu' & Hkey & Hin) | (tier & Hkey & Hin)].
      * exists u', timeline', tier. split; [|done].
        rewrite lookup_insert_ne by congruence. done.
      * exists u, timeline, tier. by rewrite lookup_insert_eq.
    + intros (u' & timeline' & tier & Hu' & Hkey & Hin).
      destruct (decide (u = u')) as [<-|Hne].
      * rewrite lookup_insert_eq in Hu'. inversion Hu'; subst timeline'.
        right. by exists tier.
      * rewrite lookup_insert_ne in Hu' by done. left. by exists u', timeline', tier.
Qed.

Lemma nonempty_elem_of {A} (l : list A) : l ≠ [] ↔ ∃ x, x ∈ l.
Proof.
  destruct l as [|x l].
  - split; [done|]. intros [x Hin]. by apply elem_of_nil in Hin.
  - split; [|done]. intros _. exists x. apply elem_of_cons. by left.
Qed.

Lemma tier_count_pos tier records :
  0 < tier_count tier records ↔
  ∃ data, data ∈ records ∧ _calculate_severity (rd_diagnosis data) = tier.
Proof.
  unfold tier_count.
  transitivity (filter (λ d, _calculate_severity (rd_diagnosis d) = tier) records ≠ []).
  - destruct (filter _ records); simpl; split; (done || lia).
  - rewrite nonempty_elem_of. split.
    + intros (d & (Hd & Hin)%list_elem_of_filter). by exists d.
    + intros (d & Hin & Hd). exists d. by apply list_elem_of_filter.
Qed.

(** The bucket of a tier holds a record exactly if one of the user's
    records classifies into the tier. *)
Lemma bucket_nonempty records self user_id timeline tier :
  timelines_ok records self → user_timelines self !! user_id = Some timeline →
  PatientTimeline.bucket (PatientTimeline.severity_index timeline) tier ≠ [] ↔
  ∃ data, data ∈ records ∧ rd_user_id data = user_id ∧
    _calculate_severity (rd_diagnosis data) = tier.
Proof.
  intros Htl Hu. specialize (Htl user_id). rewrite Hu in Htl.
  destruct Htl as [_ (_ & Htier & _)]. rewrite Htier, TimelineIndex.add_records_severity.
  unfold PatientTimeline.bucket at 1. simpl. rewrite lookup_empty. simpl.
  rewrite nonempty_elem_of. split.
  - intros (r & (Hr & (d & -> & Hd)%list_elem_of_fmap)%list_elem_of_filter).
    apply list_elem_of_filter in Hd as [Hd Hin]. by exists d.
  - intros (d & Hin & Hd & Hsev). exists (record_of d).
    apply list_elem_of_filter. split; [done|].
    apply list_elem_of_fmap. exists d. split; [done|]. by apply list_elem_of_filter.
Qed.

(** X17. The keys of [severity_distribution] are the tiers that have a
    record, and also "critical", with the count 0 if no record is
    critical, once a summary has been served to a user: reading the
    critical records of a timeline leaves an empty bucket behind. Every
    listed tier carries its number of records. *)
Theorem severity_distribution_keys (calls : list call) :
  ∃ self, run init calls = Some self ∧
    let dist := a_severity_distribution (get_system_analytics self) in
    ∀ tier,
      (is_Some (dist !! severity_value tier) ↔
         0 < tier_count tier (added calls) ∨ (tier = CRITICAL ∧ served [] calls ≠ [])) ∧
      (is_Some (dist !! severity_value tier) →
         dist !! severity_value tier = Some (tier_count tier (added calls))).
Proof.
  destruct (run_init calls) as (self & Hrun & _ & Htl & _ & _ & Husers & Htiers).
  destruct (run_indices calls init [] cache_ok_init indices_ok_init)
    as (self' & Hrun' & _ & _ & _ & Hcount).
  rewrite Hrun in Hrun'. inversion Hrun'; subst self'. simpl in Hcount.
  exists self. split; [done|]. intros dist tier.
  destruct (severity_dist_fold (user_timelines self)) as [Hdist _].
  split.
  - unfold dist, get_system_analytics. simpl. rewrite severity_dist_keys. split.
    + intros (u & timeline & tier' & Hu & ->%severity_value_inj & Hin).
      apply (Htiers u timeline tier' Hu) in Hin as [Hne | [-> Hin]].
      * left. apply tier_count_pos.
        apply (bucket_nonempty _ _ _ _ _ Htl Hu) in Hne as (d & Hd & _ & Hsev).
        by exists d.
      * right. split; [done|]. apply nonempty_elem_of. by exists u.
    + intros [(d & Hin & Hsev)%tier_count_pos | [-> (u & Hin)%nonempty_elem_of]].
      * assert (Hne : records_of_user (rd_user_id d) (added calls) ≠ []).
        { apply nonempty_elem_of. exists d. by apply list_elem_of_filter. }
        pose proof (Htl (rd_user_id d)) as Hu.
        destruct (user_timelines self !! rd_user_id d) as [timeline|] eqn:Hlookup; [|done].
        exists (rd_user_id d), timeline, tier. split_and!; [done | done |].
        apply (Htiers _ _ tier Hlookup). left.
        apply (bucket_nonempty _ _ _ _ _ Htl Hlookup). by exists d.
      * pose proof (Husers u Hin) as Hne. pose proof (Htl u) as Hu.
        destruct (user_timelines self !! u) as [timeline|] eqn:Hlookup; [|done].
        exists u, timeline, CRITICAL. split_and!; [done | done |].
        apply (Htiers _ _ CRITICAL Hlookup). right. done.
  - intros [n Hn]. specialize (Hdist tier). specialize (Hcount tier).
    unfold dist, get_system_analytics in *. simpl in *.
    rewrite Hn in Hdist |- *. simpl in Hdist. by rewrite Hdist, Hcount.
Qed.


Lemma served_summary_is_kept_witness :
  let data1 := mkRecordData 1 7 3 "Seasonal flu" (Datetime.mk 2024 5 1 0 0 0 0) None in
  let data2 := mkRecordData 2 7 4 "Heart attack" (Datetime.mk 2024 5 20 0 0 0 0) None in
  let now1 := Datetime.mk 2024 5 10 0 0 0 0 in
  let now2 := Datetime.mk 2024 9 1 0 0 0 0 in
  ∃ self result self1 self2 result' self3,
    run init [AddHealthRecord data1] = Some self ∧
    get_user_health_summary now1 self 7 = Some (result, self1) ∧
    run self1 (AddHealthRecord <$> [data2]) = Some self2 ∧
    get_user_health_summary now2 self2 7 = Some (result', self3) ∧
    (∀ s, result = SummaryOk s → result' = result) ∧
    (records_of_user 7 [data2] = [] → result' = result).
Proof.
  intros data1 data2 now1 now2.
  apply (served_summary_is_kept [AddHealthRecord data1] now1 now2 7 [data2]).
  simpl. lia.
Defined.

End EngineFacts.

(** ** The retry loop of app.py *)

Module AppFacts.
Import App AppSpec.

Lemma total_app (l1 l2 : list Z) : total (l1 ++ l2) = total l1 + total l2.
Proof. unfold total. induction l1 as [|x l1 IH]; simpl; [done | rewrite IH; lia]. Qed.

Lemma backoff_S (k : nat) : backoff (S k) = backoff k ++ [Z.of_nat k + 1].
Proof.
  unfold backoff. rewrite seq_S, fmap_app. simpl. do 2 f_equal. lia.
Qed.

Lemma total_backoff (k : nat) : 2 * total (backoff k) = Z.of_nat k * (Z.of_nat k + 1).
Proof.
  induction k as [|k IH]; [done|].
  rewrite backoff_S, total_app. unfold total at 2. simpl. lia.
Qed.

Lemma execute_write_loop_spec {A} (fn : nat → outcome A) (retries : Z) (remaining : nat) :
  ∀ (attempt : nat) (slept : list Z),
    Z.of_nat attempt + Z.of_nat (S remaining) = retries →
    ∃ k : nat, (attempt ≤ k)%nat ∧ Z.of_nat k < retries ∧
      (∀ j, (attempt ≤ j < k)%nat → retryable (fn j) = true) ∧
      (retryable (fn k) = false ∨ Z.of_nat k = retries - 1) ∧
      execute_write_loop fn retries attempt (S remaining) slept =
        (result_of (fn k), slept ++ (Z.of_nat <$> seq (S attempt) (k - attempt))).
Proof.
  induction remaining as [|remaining IH]; intros attempt slept Hsum.
  - exists attempt. rewrite Nat.sub_diag. simpl. rewrite app_nil_r.
    split_and!; [done | lia | intros j; lia | right; lia |].
    destruct (fn attempt) as [a | msg | e]; simpl; [done | | done].
    rewrite bool_decide_eq_false_2 by lia. by rewrite andb_false_r.
  - assert (Hstop : ∀ r, retryable (fn attempt) = false →
      r = (result_of (fn attempt), slept) →
      ∃ k : nat, (attempt ≤ k)%nat ∧ Z.of_nat k < retries ∧
        (∀ j, (attempt ≤ j < k)%nat → retryable (fn j) = true) ∧
        (retryable (fn k) = false ∨ Z.of_nat k = retries - 1) ∧
        r = (result_of (fn k), slept ++ (Z.of_nat <$> seq (S attempt) (k - attempt)))).
    { intros r Hno ->. exists attempt. rewrite Nat.sub_diag. simpl. rewrite app_nil_r.
      split_and!; [done | lia | intros j; lia | by left | done]. }
    change (execute_write_loop fn retries attempt (S (S remaining)) slept) with
      (match fn attempt with
       | Returns a => (Returned a, slept)
       | OperationalError msg =>
           if is_locked msg && bool_decide (Z.of_nat attempt < retries - 1)
           then execute_write_loop fn retries (S attempt) (S remaining)
                  (slept ++ [Z.of_nat attempt + 1])
           else (RaisedOperationalError msg, slept)
       | OtherError e => (RaisedOther e, slept)
       end).
    destruct (fn attempt) as [a | msg | e] eqn:Hfn.
    + apply Hstop; by rewrite ?Hfn.
    + destruct (is_locked msg) eqn:Hlocked; cbn [andb].
      * rewrite bool_decide_eq_true_2 by lia.
        destruct (IH (S attempt) (slept ++ [Z.of_nat attempt + 1]))
          as (k & Hle & Hlt & Hall & Hlast & ->); [lia|].
        exists k. split_and!; [lia | done | | done |].
        -- intros j Hj. destruct (decide (j = attempt)) as [->|Hne].
           ++ by rewrite Hfn.
           ++ apply Hall. lia.
        -- f_equal. rewrite <- (assoc_L (++)). f_equal.
           replace (k - attempt)%nat with (S (k - S attempt)) by lia.
           simpl. do 2 f_equal. lia.
      * apply Hstop; by rewrite ?Hfn.
    + apply Hstop; by rewrite ?Hfn.
Qed.


End AppFacts.

(** ** Priorities and due dates *)

Module PriorityFacts.
Import Datetime DatetimeFacts TreatmentPriorityQueue.

(** The whole days from [now] grow with the date. *)
Lemma sub_days_mono (a b now : Datetime.t) :
  valid a → valid b → py_lt b a = false → sub_days a now ≤ sub_days b now.
Proof.
  intros Ha Hb Hba. destruct (py_lt a b) eqn:Hab.
  - apply lt_cases in Hab. unfold sub_days.
    assert (Hord : (year a < year b ∨ year a = year b ∧
              (month a < month b ∨ month a = month b ∧ day a < day b)) ∨
            toordinal a = toordinal b ∧ year a = year b ∧ month a = month b ∧ day a = day b).
    { unfold toordinal. destruct Hab as [?|[Hy [?|[Hm [?|[Hd _]]]]]];
        [left; lia | left; lia | left; lia | right; by rewrite Hy, Hm, Hd]. }
    destruct Hord as [Hdate | (Hord & Hy & Hm & Hd)].
    + pose proof (toordinal_lt a b Ha Hb Hdate).
      destruct Ha as (_ & _ & _ & ? & ? & ? & ?), Hb as (_ & _ & _ & ? & ? & ? & ?).
      zdiv_lia.
    + rewrite Hord.
      destruct Ha as (_ & _ & _ & ? & ? & ? & ?), Hb as (_ & _ & _ & ? & ? & ? & ?).
      zdiv_lia.
  - by rewrite (py_lt_connex a b Hab Hba).
Qed.

(** X19. Read at one clock reading, the priority number respects the due
    date and the severity: a treatment that is due no later than another
    and whose severity offset is no larger never gets the larger
    priority number. *)
Theorem priority_respects_due_date (now a b : Datetime.t) (severity_a severity_b : Severity) :
  valid a → valid b → py_lt b a = false →
  severity_modifier severity_a ≤ severity_modifier severity_b →
  _calculate_priority now a severity_a ≤ _calculate_priority now b severity_b.
Proof.
  intros Ha Hb Hba Hsev. unfold _calculate_priority.
  pose proof (sub_days_mono a b now Ha Hb Hba). simpl. lia.
Qed.

Lemma priority_respects_due_date_witness :
  let now := Datetime.mk 2024 5 10 9 30 0 0 in
  let a := Datetime.mk 2024 5 12 0 0 0 0 in
  let b := Datetime.mk 2024 6 1 0 0 0 0 in
  _calculate_priority now a CRITICAL ≤ _calculate_priority now b MILD.
Proof.
  intros now a b. apply (priority_respects_due_date now a b CRITICAL MILD).
  - unfold valid; repeat split; vm_compute; (reflexivity || by intros [=]).
  - unfold valid; repeat split; vm_compute; (reflexivity || by intros [=]).
  - vm_compute. reflexivity.
  - vm_compute. by intros [=].
Defined.

End PriorityFacts.

(** ** Severity and the surrounding text *)

Module SeverityFacts.
Import Str StrFacts.

Lemma append_assoc (a b c : string) : (a +:+ b) +:+ c = a +:+ (b +:+ c).
Proof.
  induction a as [|x a IH]; [done|].
  by rewrite !append_cons, IH.
Qed.

Lemma lower_append (a b : string) : lower (a +:+ b) = lower a +:+ lower b.
Proof.
  induction a as [|x a IH]; [done|].
  rewrite append_cons. simpl. by rewrite append_cons, IH.
Qed.

Lemma substring_of_context (k pre s post : string) :
  substring_of k s → substring_of k (pre +:+ s +:+ post).
Proof.
  intros (p1 & p2 & ->). exists (pre +:+ p1), (p2 +:+ post).
  by rewrite !append_assoc.
Qed.

Lemma any_keyword_in_context (keywords : list string) (pre diagnosis post : string) :
  any_keyword_in keywords (lower diagnosis) = true →
  any_keyword_in keywords (lower (pre +:+ diagnosis +:+ post)) = true.
Proof.
  rewrite !any_keyword_in_spec, !lower_append.
  intros (k & Hin & Hk). exists k. split; [done|]. by apply substring_of_context.
Qed.

(** X20. Text around a diagnosis never lowers its severity, because
    keywords are matched anywhere in the text: a diagnosis that
    classifies CRITICAL stays CRITICAL whatever is written before or
    after it, one that classifies MODERATE never becomes MILD, and so
    the priority offset of the longer text is never the larger one. *)
Theorem severity_kept_in_context (pre diagnosis post : string) :
  (_calculate_severity diagnosis = CRITICAL →
   _calculate_severity (pre +:+ diagnosis +:+ post) = CRITICAL) ∧
  (_calculate_severity diagnosis = MODERATE →
   _calculate_severity (pre +:+ diagnosis +:+ post) ≠ MILD) ∧
  TreatmentPriorityQueue.severity_modifier
      (_calculate_severity (pre +:+ diagnosis +:+ post))
    ≤ TreatmentPriorityQueue.severity_modifier (_calculate_severity diagnosis).
Proof.
  unfold _calculate_severity.
  pose proof (any_keyword_in_context critical_keywords pre diagnosis post) as Hc.
  pose proof (any_keyword_in_context moderate_keywords pre diagnosis post) as Hm.
  destruct (any_keyword_in critical_keywords (lower diagnosis)).
  - rewrite Hc by done. by split_and!.
  - destruct (any_keyword_in moderate_keywords (lower diagnosis)).
    + rewrite Hm by done.
      destruct (any_keyword_in critical_keywords _); by split_and!.
    + split_and!; [done | done |].
      destruct (any_keyword_in critical_keywords _); [done|].
      by destruct (any_keyword_in moderate_keywords _).
Qed.

End SeverityFacts.
